(** * Impala Parquet scanner: a shallow embedding and its properties

    The definitions below transcribe the parts of
    [be/src/exec/hdfs-parquet-scanner.cc], [be/src/runtime/minmax-value.h]
    and [be/src/exprs/operators-ir.cc] that the properties at the end of the
    file talk about.  C++ integers are [Z], [double] is the binary64
    [PrimFloat.float], byte buffers are [list byte], [std::string] is
    [string], and calls into the I/O layer, the memory pools and the
    expression evaluator appear as explicit inputs of the functions that make
    them. *)

From Stdlib Require Import String Ascii.
From Stdlib Require Import ZArith List Bool Lia.
From Stdlib Require Import Init.Byte DecimalString DecimalNat.
From Stdlib Require Floats Uint63.
Import ListNotations.

Local Open Scope Z_scope.

Set Warnings "-register-all".

(* ================================================================== *)
(** * Part I: the embedding *)
(* ================================================================== *)

(** ** Machine integers *)

(** Arithmetic on [int64_t]: the result of an operation is reduced to the
    range of the type (two's complement). *)
Definition int64 (z : Z) : Z := (z + 2 ^ 63) mod 2 ^ 64 - 2 ^ 63.

Definition in_int64 (z : Z) : Prop := - 2 ^ 63 <= z < 2 ^ 63.

(** Conversion to [int]. *)
Definition int32 (z : Z) : Z := (z + 2 ^ 31) mod 2 ^ 32 - 2 ^ 31.

(** Conversion to [uint32_t] and to [uint8_t]. *)
Definition uint32 (z : Z) : Z := z mod 2 ^ 32.

Definition uint8 (z : Z) : Z := z mod 2 ^ 8.

(** ** [runtime/minmax-value.h] *)

Module MinMaxValue.

Section WithNumtype.

Variable numtype : Type.

(** [template<class numtype> struct MinMaxVal { numtype min; numtype max; }] *)
Record MinMaxVal : Type := mkMinMaxVal { min : numtype; max : numtype }.

(** The two identifiers that occur in the member function bodies. *)
Inductive ident : Type := id_min | id_max.

Definition ident_eqb (a b : ident) : bool :=
  match a, b with
  | id_min, id_min | id_max, id_max => true
  | _, _ => false
  end.

(** A member function body runs in a frame: the parameters of the call,
    which is the innermost scope, and the object [*this]. *)
Record frame : Type := mkFrame { params : list (ident * numtype); this : MinMaxVal }.

Fixpoint lookup_param (ps : list (ident * numtype)) (x : ident) : option numtype :=
  match ps with
  | [] => None
  | (y, v) :: ps' => if ident_eqb x y then Some v else lookup_param ps' x
  end.

Fixpoint store_param (ps : list (ident * numtype)) (x : ident) (v : numtype)
  : list (ident * numtype) :=
  match ps with
  | [] => []
  | (y, w) :: ps' =>
      if ident_eqb x y then (y, v) :: ps' else (y, w) :: store_param ps' x v
  end.

Definition get_member (o : MinMaxVal) (x : ident) : numtype :=
  match x with id_min => min o | id_max => max o end.

Definition set_member (o : MinMaxVal) (x : ident) (v : numtype) : MinMaxVal :=
  match x with
  | id_min => mkMinMaxVal v (max o)
  | id_max => mkMinMaxVal (min o) v
  end.

(** Unqualified name lookup: a parameter hides the data member of the same
    name. *)
Definition read_name (f : frame) (x : ident) : numtype :=
  match lookup_param (params f) x with
  | Some v => v
  | None => get_member (this f) x
  end.

Definition write_name (f : frame) (x : ident) (v : numtype) : frame :=
  match lookup_param (params f) x with
  | Some _ => mkFrame (store_param (params f) x v) (this f)
  | None => mkFrame (params f) (set_member (this f) x v)
  end.

(** The statement [lhs = rhs;] with two unqualified names. *)
Definition assign_names (lhs rhs : ident) (f : frame) : frame :=
  write_name f lhs (read_name f rhs).

(** [MinMaxVal(numtype min = 0, numtype max = 0) : min(min), max(max) { }]:
    in a member initialiser the name before the parenthesis is the member,
    the expression inside is looked up in the constructor's scope.  The
    members have no value before their initialisers run; the frame starts
    them at the arguments, and both are written. *)
Definition construct (min max : numtype) : MinMaxVal :=
  let f := mkFrame [(id_min, min); (id_max, max)] (mkMinMaxVal min max) in
  let o := set_member (this f) id_min (read_name f id_min) in
  set_member o id_max (read_name f id_max).

(** [void SetMin(numtype min) { min = min; }] *)
Definition SetMin (o : MinMaxVal) (min : numtype) : MinMaxVal :=
  this (assign_names id_min id_min (mkFrame [(id_min, min)] o)).

(** [void SetMax(numtype max) { max = max; }] *)
Definition SetMax (o : MinMaxVal) (max : numtype) : MinMaxVal :=
  this (assign_names id_max id_max (mkFrame [(id_max, max)] o)).

(** [void SetMinMax(numtype min, numtype max) { min = min; max = max; }] *)
Definition SetMinMax (o : MinMaxVal) (min max : numtype) : MinMaxVal :=
  this (assign_names id_max id_max
          (assign_names id_min id_min (mkFrame [(id_min, min); (id_max, max)] o))).

(** [operator=]: [this->min = other.min; this->max = other.max;] (the
    self-assignment test returns the same object). *)
Definition assign (o other : MinMaxVal) : MinMaxVal :=
  set_member (set_member o id_min (min other)) id_max (max other).

(** The member functions that are not [const]. *)
Inductive mutator : Type :=
| CallSetMin (min : numtype)
| CallSetMax (max : numtype)
| CallSetMinMax (min max : numtype)
| CallAssign (other : MinMaxVal).

Definition call (m : mutator) (o : MinMaxVal) : MinMaxVal :=
  match m with
  | CallSetMin a => SetMin o a
  | CallSetMax a => SetMax o a
  | CallSetMinMax a b => SetMinMax o a b
  | CallAssign other => assign o other
  end.

End WithNumtype.

Arguments mkMinMaxVal {numtype} _ _.
Arguments min {numtype} _.
Arguments max {numtype} _.
Arguments construct {numtype} _ _.
Arguments SetMin {numtype} _ _.
Arguments SetMax {numtype} _ _.
Arguments SetMinMax {numtype} _ _ _.
Arguments assign {numtype} _ _.
Arguments CallSetMin {numtype} _.
Arguments CallSetMax {numtype} _.
Arguments CallSetMinMax {numtype} _ _.
Arguments CallAssign {numtype} _.
Arguments call {numtype} _ _.

End MinMaxValue.

(** ** CHAR conversion: [ScalarColumnReader<StringValue, true>::ConvertSlot] *)

Module CharSlot.

Definition space : byte := x20.

(** [memcpy(dst, src, n)] on the bytes found at [dst]. *)
Definition memcpy (dst src : list byte) (n : Z) : list byte :=
  firstn (Z.to_nat n) src ++ skipn (Z.to_nat n) dst.

(** Modelled from the spec: [StringValue::PadWithSpaces(cptr, cptr_len,
    num_chars)] is declared in runtime/string-value.h, which is not among
    the sources; "pad on the right with ASCII space up to declared length",
    that is [memset(&cptr[num_chars], ' ', cptr_len - num_chars)]. *)
Definition PadWithSpaces (cptr : list byte) (cptr_len num_chars : Z) : list byte :=
  firstn (Z.to_nat num_chars) cptr
    ++ repeat space (Z.to_nat (cptr_len - num_chars))
    ++ skipn (Z.to_nat cptr_len) cptr.

(** [ConvertSlot(src, dst, pool)].  [len] is [slot_desc()->type().len],
    [is_var_len] is [type().IsVarLenStringType()], [src] the bytes of the
    decoded value ([src->len] is its length), [dst] the bytes of the slot
    and [TryAllocate] the pool.  The result is [None] when the function
    returns [false], and otherwise the [len] bytes of the CHAR value that
    the slot designates afterwards. *)
Definition ConvertSlot (len : Z) (is_var_len : bool) (src dst : list byte)
    (TryAllocate : Z -> option (list byte)) : option (list byte) :=
  let sv_ptr := if is_var_len then TryAllocate len else Some dst in
  match sv_ptr with
  | None => None
  | Some buf =>
      let unpadded_len := Z.min len (Z.of_nat (length src)) in
      let buf := memcpy buf src unpadded_len in
      let buf := PadWithSpaces buf len unpadded_len in
      Some (firstn (Z.to_nat len) buf)
  end.

End CharSlot.

(** ** [HdfsParquetScanner::FileVersion] *)

Module FileVersion.

(** Modelled from the spec: [struct FileVersion] is declared in
    hdfs-parquet-scanner.h, which is not among the sources; "parse the
    created_by string; expose comparison predicates".  The fields are those
    that the constructor assigns: the application name, the three parts of
    the version and the internal-release flag. *)
Record t : Type := mk {
  application : string;
  major : Z;
  minor : Z;
  patch : Z;
  is_impala_internal : bool
}.

Definition between (lo hi : nat) (c : ascii) : bool :=
  let n := nat_of_ascii c in (lo <=? n)%nat && (n <=? hi)%nat.

(** [::tolower] in the "C" locale: 'A'..'Z' go to 'a'..'z'. *)
Definition tolower (c : ascii) : ascii :=
  if between 65 90 c then ascii_of_nat (nat_of_ascii c + 32) else c.

(** [std::transform(s.begin(), s.end(), s.begin(), f)] *)
Fixpoint transform (f : ascii -> ascii) (s : string) : string :=
  match s with
  | EmptyString => EmptyString
  | String c s' => String (f c) (transform f s')
  end.

(** [boost::is_any_of(set)] *)
Fixpoint is_any_of (set : string) (c : ascii) : bool :=
  match set with
  | EmptyString => false
  | String d set' => Ascii.eqb c d || is_any_of set' c
  end.

(** [boost::split(tokens, s, is_sep, compress)]: the input is cut at every
    separator; with [token_compress_on] a run of adjacent separators counts
    as one.  A separator at either end leaves an empty token there, and
    there is always at least one token.  [after_sep] tells that the previous
    character was a separator. *)
Fixpoint split_from (is_sep : ascii -> bool) (token_compress : bool)
    (after_sep : bool) (s : string) : list string :=
  match s with
  | EmptyString => [EmptyString]
  | String c s' =>
      if is_sep c then
        if token_compress && after_sep
        then split_from is_sep token_compress true s'
        else EmptyString :: split_from is_sep token_compress true s'
      else
        match split_from is_sep token_compress false s' with
        | tok :: toks => String c tok :: toks
        | [] => [String c EmptyString]
        end
  end.

Definition split (is_sep : ascii -> bool) (token_compress : bool) (s : string)
  : list string :=
  split_from is_sep token_compress false s.

(** [s.find_first_not_of(set)] stored into an [int]: the index of the first
    character outside [set], and [-1] (the value of [npos]) when there is
    none. *)
Fixpoint find_first_not_of (set : string) (s : string) : Z :=
  match s with
  | EmptyString => -1
  | String c s' =>
      if is_any_of set c then
        let r := find_first_not_of set s' in
        if r <? 0 then -1 else r + 1
      else 0
  end.

Fixpoint take (n : nat) (s : string) : string :=
  match n, s with
  | S n', String c s' => String c (take n' s')
  | _, _ => EmptyString
  end.

(** [s.substr(0, n)] with an [int] count: a negative [n] converts to a
    [size_t] beyond every length and selects the whole string. *)
Definition substr0 (s : string) (n : Z) : string :=
  if n <? 0 then s else take (Z.to_nat n) s.

Definition isdigit (c : ascii) : bool := between 48 57 c.

Definition isspace (c : ascii) : bool :=
  Ascii.eqb c " "%char || between 9 13 c.

Fixpoint atoi_digits (s : string) (acc : Z) : Z :=
  match s with
  | EmptyString => acc
  | String c s' =>
      if isdigit c
      then atoi_digits s' (10 * acc + Z.of_nat (nat_of_ascii c - 48))
      else acc
  end.

(** The number that [atoi] reads: leading white space, an optional sign,
    then decimal digits up to the first other character. *)
Fixpoint atoi_number (s : string) : Z :=
  match s with
  | EmptyString => 0
  | String c s' =>
      if isspace c then atoi_number s'
      else if Ascii.eqb c "-"%char then - atoi_digits s' 0
      else if Ascii.eqb c "+"%char then atoi_digits s' 0
      else atoi_digits s 0
  end.

(** [atoi]: the number read, as an [int].  C leaves the behaviour undefined
    when the number does not fit an [int], which is the result [None]. *)
Definition atoi (s : string) : option Z :=
  let n := atoi_number s in
  if (- 2 ^ 31 <=? n) && (n <? 2 ^ 31) then Some n else None.

(** [haystack.find(needle) != string::npos] *)
Fixpoint contains (needle haystack : string) : bool :=
  prefix needle haystack ||
  match haystack with
  | EmptyString => false
  | String _ rest => contains needle rest
  end.

(** The constructor [FileVersion::FileVersion(const string& created_by)];
    [None] when one of the calls of [atoi] is undefined. *)
Definition FileVersion (created_by : string) : option t :=
  let created_by_lower := transform tolower created_by in
  let tokens := split (is_any_of " "%string) true created_by_lower in
  let application := nth 0 tokens EmptyString in
  if (3 <=? length tokens)%nat && String.eqb (nth 1 tokens EmptyString) "version"%string
  then
    let version_string := nth 2 tokens EmptyString in
    let n := find_first_not_of "0123456789."%string version_string in
    let version_string_trimmed := substr0 version_string n in
    let version_tokens := split (is_any_of "."%string) false version_string_trimmed in
    let part (i : nat) :=
      if (i + 1 <=? length version_tokens)%nat
      then atoi (nth i version_tokens EmptyString) else Some 0 in
    match part 0%nat, part 1%nat, part 2%nat with
    | Some major, Some minor, Some patch =>
        Some (mk application major minor patch
                (String.eqb application "impala"%string
                 && contains "-internal"%string version_string))
    | _, _, _ => None
    end
  else Some (mk application 0 0 0 false).

(** [FileVersion::VersionLt(major, minor, patch)] *)
Definition VersionLt (v : t) (major_ minor_ patch_ : Z) : bool :=
  if major v <? major_ then true
  else if major v >? major_ then false
  else if minor v <? minor_ then true
  else if minor v >? minor_ then false
  else patch v <? patch_.

(** [FileVersion::VersionEq(major, minor, patch)] *)
Definition VersionEq (v : t) (major_ minor_ patch_ : Z) : bool :=
  (major v =? major_) && (minor v =? minor_) && (patch v =? patch_).

(** [RequiresSkippedDictionaryHeaderCheck(v)] *)
Definition RequiresSkippedDictionaryHeaderCheck (v : t) : bool :=
  if negb (String.eqb (application v) "impala"%string) then false
  else VersionEq v 1 1 0 || (VersionEq v 1 2 0 && is_impala_internal v).

(** Vocabulary for statements about [created_by] strings of the usual
    shape: the characters of a string all satisfy [p], and the decimal
    numeral of a natural number. *)
Fixpoint all_chars (p : ascii -> bool) (s : string) : bool :=
  match s with
  | EmptyString => true
  | String c s' => p c && all_chars p s'
  end.

Definition starts_outside (p : ascii -> bool) (s : string) : bool :=
  match s with
  | EmptyString => true
  | String c _ => negb (p c)
  end.

Definition decimal (n : nat) : string := NilEmpty.string_of_uint (Nat.to_uint n).

(** The decimal numerals of a list of numbers with dots between them. *)
Fixpoint dotted (ns : list nat) : string :=
  match ns with
  | [] => EmptyString
  | n :: ns' =>
      match ns' with
      | [] => decimal n
      | _ :: _ => decimal n ++ String "."%char (dotted ns')
      end
  end.

Definition not_space (c : ascii) : bool := negb (is_any_of " "%string c).

Definition version_char (c : ascii) : bool := is_any_of "0123456789."%string c.

End FileVersion.

(** ** Status values *)

(** Modelled from the spec: [TErrorCode] and [Status] (common/status.h) are
    not among the sources; "all fallible operations return a result carrying
    one of" the error kinds.  The codes below are those that the functions
    of this file name. *)
Inductive TErrorCode : Type :=
| GENERAL
| MEM_LIMIT_EXCEEDED
| PARQUET_COLUMN_METADATA_INVALID
| PARQUET_HEADER_EOF
| PARQUET_CORRUPT_DICTIONARY
| PARQUET_CORRUPT_RLE_BYTES
| PARQUET_GROUP_ROW_COUNT_ERROR
| PARQUET_DEF_LEVEL_ERROR
| PARQUET_REP_LEVEL_ERROR
| PARQUET_UNRECOGNIZED_SCHEMA.

(** [Status]: [Status::OK()], or an error with its code and message.
    [Status("text")] carries the code [GENERAL]. *)
Inductive Status : Type :=
| OK
| Error (code : TErrorCode) (msg : string).

Definition ok (s : Status) : bool :=
  match s with OK => true | Error _ _ => false end.

(** ** Parquet encodings *)

(** Modelled from the spec: [parquet::Encoding] (parquet_types.h, generated
    from parquet.thrift) is not among the sources; "PLAIN / PLAIN_DICTIONARY
    / RLE / BIT_PACKED: supported Parquet value and level encodings".  Any
    other value of the enumeration carries its number. *)
Inductive Encoding : Type :=
| PLAIN | PLAIN_DICTIONARY | RLE | BIT_PACKED | OTHER_ENCODING (tag : Z).

(** ** Page reading: [BaseScalarColumnReader::ReadDataPage] *)

Module Page.

(** Modelled from the spec: [parquet::PageType] and [parquet::PageHeader]
    (parquet_types.h) are not among the sources; "Page: one of {Dictionary,
    Data, Other}; carries compressed/uncompressed sizes, page encoding, and
    for data pages the rep/def-level encodings and a num_values count".  The
    fields are those that [ReadDataPage] reads. *)
Inductive PageType : Type := DATA_PAGE | INDEX_PAGE | DICTIONARY_PAGE | DATA_PAGE_V2.

Definition is_plain_or_dictionary (e : Encoding) : bool :=
  match e with PLAIN | PLAIN_DICTIONARY => true | _ => false end.

Record DictionaryPageHeader : Type := mkDictionaryPageHeader {
  dict_num_values : Z;
  dict_encoding : Encoding
}.

Record DataPageHeader : Type := mkDataPageHeader {
  num_values : Z;
  encoding : Encoding;
  definition_level_encoding : Encoding;
  repetition_level_encoding : Encoding
}.

(** [parquet::PageHeader]; [dictionary_page_header] is [None] when
    [__isset.dictionary_page_header] is false. *)
Record PageHeader : Type := mkPageHeader {
  type : PageType;
  uncompressed_page_size : Z;
  compressed_page_size : Z;
  data_page_header : DataPageHeader;
  dictionary_page_header : option DictionaryPageHeader
}.

(** What the collaborators return while one page is read: the stream
    ([GetBuffer], the header deserialisation loop and [SkipBytes] of the
    header; [ReadBytes] or [SkipBytes] of the body), the pools
    ([TryAllocate]), the decompressor ([ProcessBlock32], with the size it
    reports), [CreateDictionaryDecoder] (with the number of entries of the
    decoder), and for a data page the two [LevelDecoder::Init] calls, the
    bytes left after the levels and [InitDataPage]. *)
Record PageRead : Type := mkPageRead {
  header : Status + PageHeader;
  body : Status;
  allocated : bool;
  decompressed : Status * Z;
  dict_decoder : Status * Z;
  rep_levels_init : Status;
  def_levels_init : Status;
  data_left : Z;
  init_data_page : Status
}.

(** The members of the reader that [ReadDataPage] reads or writes. *)
Record Reader : Type := mkReader {
  slot_desc_is_null : bool;
  element_is_boolean : bool;
  has_decompressor : bool;
  metadata_num_values : Z;
  num_buffered_values_ : Z;
  num_values_read_ : Z;
  dict_decoder_init_ : bool
}.

Definition with_dictionary (r : Reader) : Reader :=
  mkReader (slot_desc_is_null r) (element_is_boolean r) (has_decompressor r)
           (metadata_num_values r) (num_buffered_values_ r) (num_values_read_ r) true.

Definition with_data_page (r : Reader) (n : Z) : Reader :=
  mkReader (slot_desc_is_null r) (element_is_boolean r) (has_decompressor r)
           (metadata_num_values r) n (num_values_read_ r + n) (dict_decoder_init_ r).

(** Modelled from the spec: [HdfsScanner::LogOrReturnError(msg)] is defined
    in hdfs-scanner.cc, which is not among the sources; "whether to abort the
    scan or skip the row is controlled by abort_on_error": the error when
    [abort_on_error] is set, otherwise the message is logged and the status
    is OK. *)
Definition LogOrReturnError (abort_on_error : bool) (code : TErrorCode) : Status :=
  if abort_on_error then Error code EmptyString else OK.

Definition missing_dictionary_header : Status :=
  Error GENERAL "Dictionary page does not have dictionary header set.".

(** The dictionary-page branch for a reader that has a slot.  The result is
    the status to return, or [None] to go on with the next page, and the
    reader afterwards ([CreateDictionaryDecoder] sets [dict_decoder_init_]). *)
Definition ReadDictionaryPage (file_version : FileVersion.t) (r : Reader)
    (hdr : PageHeader) (pg : PageRead) : option Status * Reader :=
  if dict_decoder_init_ r
  then (Some (Error GENERAL "Column chunk should not contain two dictionary pages."), r)
  else if element_is_boolean r
  then (Some (Error GENERAL
    "Unexpected dictionary page. Dictionary page is not supported for booleans."), r)
  else
    let dict_header := dictionary_page_header hdr in
    if match dict_header with
       | Some _ => false
       | None => negb (FileVersion.RequiresSkippedDictionaryHeaderCheck file_version)
       end
    then (Some missing_dictionary_header, r)
    else if match dict_header with
            | Some h => negb (is_plain_or_dictionary (dict_encoding h))
            | None => false
            end
    then (Some (Error GENERAL
      "Only PLAIN and PLAIN_DICTIONARY encodings are supported for dictionary pages."), r)
    else if negb (ok (body pg)) then (Some (body pg), r)
    else
      let data_size := compressed_page_size hdr in
      let sized :=
        if has_decompressor r then
          if negb (allocated pg) then inl (Error MEM_LIMIT_EXCEEDED EmptyString)
          else if negb (ok (fst (decompressed pg))) then inl (fst (decompressed pg))
          else if negb (uncompressed_page_size hdr =? snd (decompressed pg))
          then inl (Error GENERAL "Error decompressing dictionary page")
          else inr (snd (decompressed pg))
        else
          if negb (uncompressed_page_size hdr =? data_size)
          then inl (Error GENERAL "Error reading dictionary page")
          else if negb (allocated pg) then inl (Error MEM_LIMIT_EXCEEDED EmptyString)
          else inr data_size in
      match sized with
      | inl err => (Some err, r)
      | inr _ =>
          if negb (ok (fst (dict_decoder pg))) then (Some (fst (dict_decoder pg)), r)
          else if match dict_header with
                  | Some h => negb (dict_num_values h =? snd (dict_decoder pg))
                  | None => false
                  end
          then (Some (Error PARQUET_CORRUPT_DICTIONARY EmptyString), with_dictionary r)
          else (None, with_dictionary r)
      end.

(** The data-page branch. *)
Definition ReadPlainDataPage (r : Reader) (hdr : PageHeader) (pg : PageRead)
  : Status * Reader :=
  if negb (ok (body pg)) then (body pg, r)
  else
    let r := with_data_page r (num_values (data_page_header hdr)) in
    let sized :=
      if has_decompressor r then
        if negb (allocated pg) then Error MEM_LIMIT_EXCEEDED EmptyString
        else if negb (ok (fst (decompressed pg))) then fst (decompressed pg)
        else if negb (uncompressed_page_size hdr =? snd (decompressed pg))
        then Error GENERAL "Error decompressing data page"
        else OK
      else
        if negb (compressed_page_size hdr =? uncompressed_page_size hdr)
        then Error GENERAL "Error reading data page"
        else OK in
    if negb (ok sized) then (sized, r)
    else if negb (ok (rep_levels_init pg)) then (rep_levels_init pg, r)
    else if negb (ok (def_levels_init pg)) then (def_levels_init pg, r)
    else if negb (data_left pg =? 0) && negb (ok (init_data_page pg))
    then (init_data_page pg, r)
    else (OK, r).

(** [ReadDataPage()].  [pages] is what remains of the column's stream, one
    entry per page; the empty list is the end of the scan range, where
    [GetBuffer] yields no bytes.  The result is the returned status, the
    reader afterwards and the rest of the stream. *)
Fixpoint ReadDataPage (file_version : FileVersion.t) (abort_on_error : bool)
    (r : Reader) (pages : list PageRead) : Status * Reader * list PageRead :=
  if num_values_read_ r =? metadata_num_values r then (OK, r, pages)
  else if num_values_read_ r >? metadata_num_values r
  then (LogOrReturnError abort_on_error PARQUET_COLUMN_METADATA_INVALID, r, pages)
  else
    match pages with
    | [] => (LogOrReturnError abort_on_error PARQUET_COLUMN_METADATA_INVALID, r, [])
    | pg :: rest =>
        match header pg with
        | inl err => (err, r, rest)
        | inr hdr =>
            match type hdr with
            | DICTIONARY_PAGE =>
                if slot_desc_is_null r then
                  if negb (ok (body pg)) then (body pg, r, rest)
                  else ReadDataPage file_version abort_on_error r rest
                else
                  match ReadDictionaryPage file_version r hdr pg with
                  | (Some err, r') => (err, r', rest)
                  | (None, r') => ReadDataPage file_version abort_on_error r' rest
                  end
            | DATA_PAGE =>
                let '(st, r') := ReadPlainDataPage r hdr pg in (st, r', rest)
            | _ =>
                if negb (ok (body pg)) then (body pg, r, rest)
                else ReadDataPage file_version abort_on_error r rest
            end
        end
    end.

(** The collaborators succeed on a dictionary page: the body is read, the
    buffer is allocated, the sizes agree with the header and the dictionary
    decodes. *)
Definition page_reads_cleanly (r : Reader) (hdr : PageHeader) (pg : PageRead) : bool :=
  ok (body pg) && allocated pg && ok (fst (dict_decoder pg)) &&
  if has_decompressor r
  then ok (fst (decompressed pg)) && (uncompressed_page_size hdr =? snd (decompressed pg))
  else (uncompressed_page_size hdr =? compressed_page_size hdr).

(** Sample inputs: a dictionary page of 40 bytes without dictionary header,
    a data page of 3 values, a reader for a column of 3 values that has a
    slot, and a counting reader for the same column. *)
Definition sample_dictionary_page : PageRead :=
  mkPageRead
    (inr (mkPageHeader DICTIONARY_PAGE 40 40 (mkDataPageHeader 0 PLAIN RLE RLE) None))
    OK true (OK, 40) (OK, 7) OK OK 0 OK.

Definition sample_data_page : PageRead :=
  mkPageRead
    (inr (mkPageHeader DATA_PAGE 64 64 (mkDataPageHeader 3 PLAIN_DICTIONARY RLE RLE) None))
    OK true (OK, 64) (OK, 0) OK OK 16 OK.

Definition sample_reader : Reader := mkReader false false false 3 0 0 false.

Definition sample_counting_reader : Reader := mkReader true false false 3 0 0 false.

End Page.

(** ** Row-group selection: [ProcessSplit] *)

Module Split.

(** Modelled from the spec: [parquet::ColumnMetaData] and
    [parquet::RowGroup] (parquet_types.h) are not among the sources; "each
    row group has ordered column chunks with data_page_offset, optional
    dictionary_page_offset, total_compressed_size".  These are the fields
    that the selection reads; [dictionary_page_offset] is [None] when the
    field is not set. *)
Record ColumnMetaData : Type := mkColumnMetaData {
  data_page_offset : Z;
  dictionary_page_offset : option Z;
  total_compressed_size : Z
}.

(** [parquet::RowGroup]: [columns[i].meta_data] and [num_rows]. *)
Record RowGroup : Type := mkRowGroup {
  columns : list ColumnMetaData;
  num_rows : Z
}.

(** [ValidateColumnOffsets(row_group)] for a file of [file_length] bytes. *)
Fixpoint ValidateColumnOffsets_from (file_length : Z) (cols : list ColumnMetaData)
  : Status :=
  match cols with
  | [] => OK
  | col :: cols' =>
      let col_start := data_page_offset col in
      match
        match dictionary_page_offset col with
        | Some d =>
            if d >=? col_start
            then inl (Error GENERAL
                   "metadata is corrupt. Dictionary page must come before any data pages.")
            else inr d
        | None => inr col_start
        end
      with
      | inl err => err
      | inr col_start =>
          let col_len := total_compressed_size col in
          let col_end := int64 (col_start + col_len) in
          if (col_end <=? 0) || (col_end >? file_length)
          then Error GENERAL "metadata is corrupt. Column has invalid column offsets."
          else ValidateColumnOffsets_from file_length cols'
      end
  end.

Definition ValidateColumnOffsets (file_length : Z) (row_group : RowGroup) : Status :=
  ValidateColumnOffsets_from file_length (columns row_group).

(** [GetColumnStartOffset(column)] *)
Definition GetColumnStartOffset (column : ColumnMetaData) : Z :=
  match dictionary_page_offset column with
  | Some d => d
  | None => data_page_offset column
  end.

(** [GetRowGroupMidOffset(row_group)].  The function indexes
    [columns[0]] and [columns[size - 1]]; on a row group without columns
    this is undefined, which is the result [None].  The division is the one
    of C++, which truncates towards zero. *)
Definition GetRowGroupMidOffset (row_group : RowGroup) : option Z :=
  match columns row_group with
  | [] => None
  | first_column :: _ =>
      let start_offset := GetColumnStartOffset first_column in
      let last_column := last (columns row_group) first_column in
      let end_offset :=
        int64 (GetColumnStartOffset last_column + total_compressed_size last_column) in
      Some (int64 (start_offset + Z.quot (int64 (end_offset - start_offset)) 2))
  end.

(** What happens to a row group once it is selected, as far as the loop of
    [ProcessSplit] looks at it: the status of [InitColumns], the verdict of
    [StatisticsEvalConjuncts], and after the readers were seeded and
    [AssembleRows] ran: the query status, [parse_status_],
    [scan_node_->ReachedLimit()], [context_->cancelled()] and
    [filters_pass]. *)
Record RowGroupRun : Type := mkRowGroupRun {
  init_columns : Status;
  stats_pass : bool;
  query_status : Status;
  parse_status : Status;
  reached_limit : bool;
  cancelled : bool;
  filters_pass : bool
}.

(** The result of the loop: the returned status, the indices of the row
    groups that passed the selection (those counted in NumRowGroups), and
    the number of row groups that the loop looked at. *)
Record Outcome : Type := mkOutcome {
  status : Status;
  selected : list nat;
  visited : nat
}.

Definition stop (st : Status) (sel : list nat) : option Outcome :=
  Some (mkOutcome st sel 1).

Definition and_then (sel : list nat) (rest : option Outcome) : option Outcome :=
  match rest with
  | Some o => Some (mkOutcome (status o) (sel ++ selected o) (S (visited o)))
  | None => None
  end.

(** The loop over [file_metadata_.row_groups] in [ProcessSplit], from index
    [i] on. *)
Fixpoint ProcessRowGroups (file_length split_offset split_length : Z)
    (abort_on_error : bool) (run : nat -> RowGroupRun)
    (i : nat) (row_groups : list RowGroup) : option Outcome :=
  match row_groups with
  | [] => Some (mkOutcome OK [] 0)
  | row_group :: rest =>
      let next :=
        ProcessRowGroups file_length split_offset split_length abort_on_error run
          (S i) rest in
      if num_rows row_group =? 0 then and_then [] next
      else
        match ValidateColumnOffsets file_length row_group with
        | Error code msg => stop (Error code msg) []
        | OK =>
            match GetRowGroupMidOffset row_group with
            | None => None
            | Some row_group_mid_pos =>
                if negb ((row_group_mid_pos >=? split_offset) &&
                         (row_group_mid_pos <? int64 (split_offset + split_length)))
                then and_then [] next
                else
                  let r := run i in
                  if negb (ok (init_columns r)) then stop (init_columns r) [i]
                  else if negb (stats_pass r) then and_then [i] next
                  else if negb (ok (query_status r)) then stop (query_status r) [i]
                  else if negb (ok (parse_status r)) && abort_on_error
                  then stop (parse_status r) [i]
                  else if reached_limit r then stop OK [i]
                  else if cancelled r then stop OK [i]
                  else if negb (filters_pass r) then stop OK [i]
                  else and_then [i] next
            end
        end
  end.

(** [ProcessSplit()]: the footer, the column readers, then the row groups.
    [footer] is the status of [ProcessFooter] and its [eosr] flag,
    [create_readers] the status of [CreateColumnReaders]. *)
Definition ProcessSplit (footer : Status * bool) (create_readers : Status)
    (file_length split_offset split_length : Z) (abort_on_error : bool)
    (run : nat -> RowGroupRun) (row_groups : list RowGroup) : option Outcome :=
  if negb (ok (fst footer)) then Some (mkOutcome (fst footer) [] 0)
  else if snd footer then Some (mkOutcome OK [] 0)
  else if negb (ok create_readers) then Some (mkOutcome create_readers [] 0)
  else ProcessRowGroups file_length split_offset split_length abort_on_error run
         0 row_groups.

(** The mid-byte-offset as the specification writes it, on unbounded
    integers. *)
Definition mid_byte_offset (row_group : RowGroup) (first_column : ColumnMetaData) : Z :=
  let start_offset := GetColumnStartOffset first_column in
  let last_column := last (columns row_group) first_column in
  let end_offset := GetColumnStartOffset last_column + total_compressed_size last_column in
  start_offset + Z.quot (end_offset - start_offset) 2.

(** The offsets of a row group stay within [int64_t]. *)
Definition offsets_in_range (row_group : RowGroup) (first_column : ColumnMetaData) : Prop :=
  let start_offset := GetColumnStartOffset first_column in
  let last_column := last (columns row_group) first_column in
  let end_offset := GetColumnStartOffset last_column + total_compressed_size last_column in
  in_int64 start_offset /\ in_int64 end_offset /\ in_int64 (end_offset - start_offset).

(** A row group passes the selection of the split. *)
Definition passes_selection (file_length split_offset split_length : Z)
    (row_group : RowGroup) : Prop :=
  num_rows row_group <> 0 /\
  ValidateColumnOffsets file_length row_group = OK /\
  exists mid, GetRowGroupMidOffset row_group = Some mid /\
              split_offset <= mid < int64 (split_offset + split_length).

(** A run that lets the loop go on to the next row group. *)
Definition runs_to_completion (abort_on_error : bool) (r : RowGroupRun) : Prop :=
  ok (init_columns r) = true /\
  (stats_pass r = true ->
     ok (query_status r) = true /\
     (ok (parse_status r) = true \/ abort_on_error = false) /\
     reached_limit r = false /\ cancelled r = false /\ filters_pass r = true).

(** A row group with one column chunk that starts at [start] and takes
    [len] bytes. *)
Definition one_column_group (start len rows : Z) : RowGroup :=
  mkRowGroup [mkColumnMetaData start None len] rows.

Definition quiet_run : RowGroupRun := mkRowGroupRun OK true OK OK false false true.

(** Three row groups with midpoints 2_000_000, 8_000_000 and 12_000_000. *)
Definition sample_row_groups : list RowGroup :=
  [one_column_group 4 3999992 10;
   one_column_group 4000000 8000000 10;
   one_column_group 12000000 1 5].

End Split.

(** ** Runtime filters and the transfer of scratch tuples *)

Module Filter.

(** [ROWS_PER_FILTER_SELECTIVITY_CHECK] *)
Definition ROWS_PER_FILTER_SELECTIVITY_CHECK : Z := 16 * 1024.

(** Modelled from the spec: [LocalFilterStats] is declared in
    hdfs-parquet-scanner.h, which is not among the sources; "per filter,
    maintain counters {total_possible, considered, rejected} and a boolean
    enabled".  The counters are [int64_t]. *)
Record LocalFilterStats : Type := mkLocalFilterStats {
  considered : Z;
  rejected : Z;
  total_possible : Z;
  enabled : bool
}.

(** A fresh entry of [filter_stats_]: no rows seen, filter enabled. *)
Definition fresh_stats : LocalFilterStats := mkLocalFilterStats 0 0 0 true.

(** The conversion of an [int64_t] to [double]: the nearest binary64 number,
    ties to even. *)
Definition double_of_int64 (n : Z) : PrimFloat.float :=
  if n =? - 2 ^ 63 then
    PrimFloat.opp (PrimFloat.mul (PrimFloat.of_uint63 (Uint63.of_Z (2 ^ 62)))
                     (PrimFloat.of_uint63 (Uint63.of_Z 2)))
  else if n <? 0 then PrimFloat.opp (PrimFloat.of_uint63 (Uint63.of_Z (- n)))
  else PrimFloat.of_uint63 (Uint63.of_Z n).

(** [double reject_ratio = stats->rejected /
    static_cast<double>(stats->considered)]: the division of doubles, which
    gives NaN for 0 / 0 and infinity for a positive number over 0. *)
Definition reject_ratio (stats : LocalFilterStats) : PrimFloat.float :=
  PrimFloat.div (double_of_int64 (rejected stats)) (double_of_int64 (considered stats)).

(** The default of [DEFINE_double(parquet_min_filter_reject_ratio, 0.1, _)]:
    the double nearest to one tenth. *)
Definition default_min_filter_reject_ratio : PrimFloat.float :=
  PrimFloat.div (double_of_int64 1) (double_of_int64 10).

Section WithTuple.

(** The rows that the filters and conjuncts look at. *)
Variable Tuple : Type.

(** The value of the flag [FLAGS_parquet_min_filter_reject_ratio]. *)
Variable FLAGS_parquet_min_filter_reject_ratio : PrimFloat.float.

(** What [EvalRuntimeFilters] asks of [filter_ctxs_[i]] at one call:
    [filter->AlwaysTrue()], and [filter->Eval] on the value of the filter
    expression at the row. *)
Record FilterContext : Type := mkFilterContext {
  AlwaysTrue : bool;
  Eval : Tuple -> bool
}.

(** The condition of the effectiveness check,
    [!(stats->total_possible & (ROWS_PER_FILTER_SELECTIVITY_CHECK - 1))]. *)
Definition selectivity_check_due (stats : LocalFilterStats) : bool :=
  Z.land (total_possible stats) (ROWS_PER_FILTER_SELECTIVITY_CHECK - 1) =? 0.

(** The outcome of the loop body for one filter: [continue] (the filter is
    or becomes disabled), the row passes the filter, or the row is rejected
    and the function returns [false]. *)
Inductive FilterStep : Type :=
| Skipped (stats : LocalFilterStats)
| Passed (stats : LocalFilterStats)
| Rejected (stats : LocalFilterStats).

Definition stats_of (step : FilterStep) : LocalFilterStats :=
  match step with Skipped st | Passed st | Rejected st => st end.

(** The body of the loop of [EvalRuntimeFilters] for filter [i]. *)
Definition EvalRuntimeFilter (ctx : FilterContext) (stats : LocalFilterStats)
    (row : Tuple) : FilterStep :=
  if negb (enabled stats) then Skipped stats
  else
    let stats :=
      mkLocalFilterStats (considered stats) (rejected stats)
        (int64 (total_possible stats + 1)) (enabled stats) in
    if selectivity_check_due stats &&
       (AlwaysTrue ctx ||
        PrimFloat.ltb (reject_ratio stats) FLAGS_parquet_min_filter_reject_ratio)
    then
      Skipped (mkLocalFilterStats (considered stats) (rejected stats)
                 (total_possible stats) false)
    else
      let stats :=
        mkLocalFilterStats (int64 (considered stats + 1)) (rejected stats)
          (total_possible stats) (enabled stats) in
      if negb (Eval ctx row)
      then Rejected (mkLocalFilterStats (considered stats) (int64 (rejected stats + 1))
                       (total_possible stats) (enabled stats))
      else Passed stats.

(** [EvalRuntimeFilters(row)]: the verdict and [filter_stats_] afterwards.
    [filter_ctxs_] and [filter_stats_] have the same size. *)
Fixpoint EvalRuntimeFilters (filter_ctxs_ : list FilterContext)
    (filter_stats_ : list LocalFilterStats) (row : Tuple)
  : bool * list LocalFilterStats :=
  match filter_ctxs_, filter_stats_ with
  | ctx :: ctxs, stats :: rest =>
      match EvalRuntimeFilter ctx stats row with
      | Rejected stats' => (false, stats' :: rest)
      | Skipped stats' | Passed stats' =>
          let '(verdict, rest') := EvalRuntimeFilters ctxs rest row in
          (verdict, stats' :: rest')
      end
  | _, _ => (true, filter_stats_)
  end.

(** Filter [i] rejects the row when the loop comes to it. *)
Definition rejects (ctx : FilterContext) (stats : LocalFilterStats) (row : Tuple)
  : bool :=
  match EvalRuntimeFilter ctx stats row with
  | Rejected _ => true
  | Skipped _ | Passed _ => false
  end.

(** The loop comes to filter [i]: none of the filters before it rejects the
    row. *)
Fixpoint reached (filter_ctxs_ : list FilterContext)
    (filter_stats_ : list LocalFilterStats) (row : Tuple) (i : nat) : bool :=
  match i, filter_ctxs_, filter_stats_ with
  | S i', ctx :: ctxs, stats :: rest =>
      negb (rejects ctx stats row) && reached ctxs rest row i'
  | _, _, _ => true
  end.

(** A scanner evaluates the filters on one row after the other; the state of
    the filters (arrived or not) may differ from row to row. *)
Fixpoint EvalRows (rows : list (list FilterContext * Tuple))
    (filter_stats_ : list LocalFilterStats) : list bool * list LocalFilterStats :=
  match rows with
  | [] => ([], filter_stats_)
  | (ctxs, row) :: rows' =>
      let '(verdict, stats') := EvalRuntimeFilters ctxs filter_stats_ row in
      let '(verdicts, stats'') := EvalRows rows' stats' in
      (verdict :: verdicts, stats'')
  end.

(** [ExecNode::EvalConjuncts]: every conjunct holds of the row. *)
Definition EvalConjuncts (conjuncts : list (Tuple -> bool)) (row : Tuple) : bool :=
  forallb (fun conjunct => conjunct row) conjuncts.

(** [struct ScratchTupleBatch]: entry [j] of [tuple_mem] is the tuple at
    [tuple_mem + j * tuple_byte_size]. *)
Record ScratchTupleBatch : Type := mkScratchTupleBatch {
  tuple_mem : list Tuple;
  tuple_idx : Z;
  num_tuples : Z;
  tuple_byte_size : Z
}.

(** The tuples between [CurrTuple()] and [TupleEnd()]. *)
Definition pending (scratch : ScratchTupleBatch) : list Tuple :=
  firstn (Z.to_nat (num_tuples scratch - tuple_idx scratch))
         (skipn (Z.to_nat (tuple_idx scratch)) (tuple_mem scratch)).

(** The state of the loop of [TransferScratchTuples]: the rows written to
    the output batch so far ([output_row - output_row_start] of them), the
    number of scratch tuples passed, and [filter_stats_]. *)
Record Transfer : Type := mkTransfer {
  output_rows : list (option Tuple);
  scratch_passed : Z;
  stats_after : list LocalFilterStats
}.

(** The loop [while (scratch_tuple != scratch_tuple_end)].  [room] is
    [output_row_end - output_row_start]. *)
Fixpoint TransferLoop (filter_ctxs_ : list FilterContext)
    (conjuncts : list (Tuple -> bool)) (room : Z)
    (scratch_tuples : list Tuple) (st : Transfer) : Transfer :=
  match scratch_tuples with
  | [] => st
  | scratch_tuple :: rest =>
      let has_filters := negb (match filter_ctxs_ with [] => true | _ => false end) in
      let has_conjuncts := negb (match conjuncts with [] => true | _ => false end) in
      let '(filters_ok, stats) :=
        if has_filters
        then EvalRuntimeFilters filter_ctxs_ (stats_after st) scratch_tuple
        else (true, stats_after st) in
      let passed := scratch_passed st + 1 in
      if negb filters_ok
      then TransferLoop filter_ctxs_ conjuncts room rest
             (mkTransfer (output_rows st) passed stats)
      else if has_conjuncts && negb (EvalConjuncts conjuncts scratch_tuple)
      then TransferLoop filter_ctxs_ conjuncts room rest
             (mkTransfer (output_rows st) passed stats)
      else
        let rows := output_rows st ++ [Some scratch_tuple] in
        if Z.of_nat (length rows) =? room
        then mkTransfer rows passed stats
        else TransferLoop filter_ctxs_ conjuncts room rest
               (mkTransfer rows passed stats)
  end.

(** The result of [TransferScratchTuples]: the returned number of rows, the
    rows written behind the [num_rows] rows of the output batch, the scratch
    batch and [filter_stats_] afterwards. *)
Record Transferred : Type := mkTransferred {
  returned : Z;
  written : list (option Tuple);
  scratch_after : ScratchTupleBatch;
  filter_stats_after : list LocalFilterStats
}.

Definition advance (scratch : ScratchTupleBatch) (n : Z) : ScratchTupleBatch :=
  mkScratchTupleBatch (tuple_mem scratch) (tuple_idx scratch + n)
    (num_tuples scratch) (tuple_byte_size scratch).

(** [TransferScratchTuples()] for an output batch of [capacity] rows that
    holds [num_rows] rows. *)
Definition TransferScratchTuples (capacity num_rows : Z)
    (scratch : ScratchTupleBatch) (filter_ctxs_ : list FilterContext)
    (filter_stats_ : list LocalFilterStats) (conjuncts : list (Tuple -> bool))
  : Transferred :=
  if tuple_byte_size scratch =? 0 then
    let n := Z.min (capacity - num_rows) (num_tuples scratch - tuple_idx scratch) in
    mkTransferred n (repeat None (Z.to_nat n)) (advance scratch n) filter_stats_
  else
    let st := TransferLoop filter_ctxs_ conjuncts (capacity - num_rows)
                (pending scratch) (mkTransfer [] 0 filter_stats_) in
    mkTransferred (Z.of_nat (length (output_rows st))) (output_rows st)
      (advance scratch (scratch_passed st)) (stats_after st).

End WithTuple.

Arguments AlwaysTrue {Tuple} _.
Arguments Eval {Tuple} _ _.
Arguments mkFilterContext {Tuple} _ _.
Arguments mkScratchTupleBatch {Tuple} _ _ _ _.
Arguments tuple_mem {Tuple} _.
Arguments tuple_idx {Tuple} _.
Arguments num_tuples {Tuple} _.
Arguments tuple_byte_size {Tuple} _.
Arguments returned {Tuple} _.
Arguments written {Tuple} _.
Arguments scratch_after {Tuple} _.
Arguments filter_stats_after {Tuple} _.

End Filter.

(** ** End of a row group: [ValidateEndOfRowGroup] *)

Module EndOfRowGroup.

(** A function with DCHECKs returns a value, stops at a DCHECK that fails
    (builds with DCHECKs on), or indexes an empty vector. *)
Inductive Run (A : Type) : Type :=
| Returns (a : A)
| DcheckFailed
| Undefined.

Arguments Returns {A} _.
Arguments DcheckFailed {A}.
Arguments Undefined {A}.

(** The column readers, as far as the validation looks at them: a scalar
    reader with [max_rep_level()], [num_buffered_values_],
    [num_values_read_] and [metadata_->num_values], or a collection reader
    with its children. *)
Inductive ColumnReader : Type :=
| ScalarReader (max_rep_level num_buffered_values_ num_values_read_ num_values : Z)
| CollectionReader (max_rep_level : Z) (children : list ColumnReader).

Definition max_rep_level (r : ColumnReader) : Z :=
  match r with
  | ScalarReader m _ _ _ => m
  | CollectionReader m _ => m
  end.

Definition IsCollectionReader (r : ColumnReader) : bool :=
  match r with
  | ScalarReader _ _ _ _ => false
  | CollectionReader _ _ => true
  end.

Definition num_buffered_values_ (r : ColumnReader) : Z :=
  match r with
  | ScalarReader _ n _ _ => n
  | CollectionReader _ _ => 0
  end.

Definition num_values_read_ (r : ColumnReader) : Z :=
  match r with
  | ScalarReader _ _ n _ => n
  | CollectionReader _ _ => 0
  end.

(** The loop "Validate scalar column readers' state"; [num_values_read] is
    the local [int] that starts at -1. *)
Fixpoint ValidateScalarReaders (dchecks abort_on_error : bool)
    (column_readers : list ColumnReader) (num_values_read : Z) : Run Status :=
  match column_readers with
  | [] => Returns OK
  | CollectionReader _ _ :: rest =>
      ValidateScalarReaders dchecks abort_on_error rest num_values_read
  | ScalarReader _ buffered read expected :: rest =>
      if negb (buffered =? 0)
      then Returns (Error GENERAL
             "Corrupt parquet metadata: metadata reports more values in data page than actually present")
      else
        let num_values_read :=
          if num_values_read =? -1 then int32 read else num_values_read in
        if dchecks && negb (read =? num_values_read) then DcheckFailed
        else if dchecks && negb ((read =? expected) || negb abort_on_error)
        then DcheckFailed
        else ValidateScalarReaders dchecks abort_on_error rest num_values_read
  end.

(** [ValidateEndOfRowGroup(column_readers, row_group_idx, rows_read)].
    [dchecks] tells whether DCHECKs are compiled in, [parse_status] is
    [parse_status_] at the call and [expected_rows_in_group] is
    [file_metadata_.row_groups[row_group_idx].num_rows]. *)
Definition ValidateEndOfRowGroup (dchecks abort_on_error : bool)
    (parse_status : Status) (column_readers : list ColumnReader)
    (expected_rows_in_group rows_read : Z) : Run Status :=
  match column_readers with
  | [] => if dchecks then DcheckFailed else Undefined
  | first_reader :: _ =>
      if dchecks && negb (ok parse_status) then DcheckFailed
      else if (max_rep_level first_reader =? 0)
              && negb (rows_read =? expected_rows_in_group)
      then Returns (Error PARQUET_GROUP_ROW_COUNT_ERROR EmptyString)
      else ValidateScalarReaders dchecks abort_on_error column_readers (-1)
  end.

(** The end of [AssembleRows]: the loop has ended with [rows_read] rows,
    [row_group_at_end] is [column_readers[0]->RowGroupAtEnd()]; the result
    is [parse_status_] afterwards and the returned [continue_execution]. *)
Definition AssembleRowsEnd (dchecks abort_on_error : bool)
    (row_group_at_end : bool) (parse_status : Status) (continue_execution : bool)
    (column_readers : list ColumnReader) (expected_rows_in_group rows_read : Z)
  : Run (Status * bool) :=
  if row_group_at_end && ok parse_status then
    match ValidateEndOfRowGroup dchecks abort_on_error parse_status column_readers
            expected_rows_in_group rows_read with
    | Returns parse_status' =>
        Returns (parse_status', continue_execution && ok parse_status')
    | DcheckFailed => DcheckFailed
    | Undefined => Undefined
    end
  else Returns (parse_status, continue_execution).

(** The state of a scalar reader of [max_rep_level] as the validation reads
    it from the members that [ReadDataPage] maintains. *)
Definition reader_state (max_rep_level : Z) (r : Page.Reader) : ColumnReader :=
  ScalarReader max_rep_level (Page.num_buffered_values_ r) (Page.num_values_read_ r)
    (Page.metadata_num_values r).

(** [ReadValueBatch] has taken all buffered values of the current page. *)
Definition page_consumed (r : Page.Reader) : Page.Reader :=
  Page.mkReader (Page.slot_desc_is_null r) (Page.element_is_boolean r)
    (Page.has_decompressor r) (Page.metadata_num_values r) 0
    (Page.num_values_read_ r) (Page.dict_decoder_init_ r).

(** A column that [ReadValueBatch] reads through in one batch: [NextPage]
    reads a data page, the values of the page are taken, and [NextPage]
    calls [ReadDataPage] again, which finds no further values. *)
Definition read_through (file_version : FileVersion.t) (abort_on_error : bool)
    (r : Page.Reader) (pages : list Page.PageRead) : Status * Page.Reader :=
  let '(status, r, rest) := Page.ReadDataPage file_version abort_on_error r pages in
  if negb (ok status) then (status, r)
  else
    let '(status, r, _) :=
      Page.ReadDataPage file_version abort_on_error (page_consumed r) rest in
    (status, r).

(** A column chunk that consists of one uncompressed data page of [n]
    values. *)
Definition one_data_page (n : Z) : list Page.PageRead :=
  [Page.mkPageRead
     (inr (Page.mkPageHeader Page.DATA_PAGE 64 64
             (Page.mkDataPageHeader n PLAIN RLE RLE) None))
     OK true (OK, 64) (OK, 0) OK OK 16 OK].

(** A reader with a slot at the start of a row group, for a column whose
    metadata announce [num_values] values. *)
Definition fresh_reader (num_values : Z) : Page.Reader :=
  Page.mkReader false false false num_values 0 0 false.

(** Two top-level scalar columns at the end of a row group of 9 rows.  The
    metadata of both columns announce 9 values, as [InitColumns] requires,
    but the column chunk of the first holds a data page of 7 values only.
    With [abort_on_error] off [ReadDataPage] logs the shortfall and goes on;
    without DCHECKs [AssembleRows] reads both columns into one scratch batch,
    in which the second reader leaves [num_tuples] at 9. *)
Definition out_of_step_readers (file_version : FileVersion.t) : list ColumnReader :=
  [reader_state 0 (snd (read_through file_version false (fresh_reader 9)
                          (one_data_page 7)));
   reader_state 0 (snd (read_through file_version false (fresh_reader 9)
                          (one_data_page 9)))].

End EndOfRowGroup.

(** ** Level decoding: [LevelDecoder] *)

Module Level.

(** *** The bit reader and the RLE decoder *)

(** Modelled from the spec: [BitReader] (util/bit-stream-utils.h) and
    [RleDecoder] (util/rle-encoding.h) are not among the sources.  The
    specification has "RLE: sequence of alternating repeated and literal runs
    over a bit-width", "literal bits themselves packed into fixed-width
    groups" and a "pure bit-packed" stream; the layout is the one of the
    Parquet format: values are packed from the least significant bit of each
    byte, a run starts with a ULEB128 header whose lowest bit tells a literal
    run (of 8 * (header >> 1) values) from a repeated run (of header >> 1
    copies of one value stored in ceil(bit_width / 8) bytes).

    The reader holds the bytes from its start on, the number of bytes it may
    read and the position of the next bit.  Bytes behind the end of [buffer]
    are memory outside the page; they read as 0 here. *)
Record BitReader : Type := mkBitReader {
  buffer : list Z;
  max_bytes : Z;
  bit_pos : Z
}.

Definition byte_at (r : BitReader) (i : Z) : Z := nth (Z.to_nat i) (buffer r) 0.

Definition bit_at (r : BitReader) (p : Z) : Z :=
  Z.b2z (Z.testbit (byte_at r (p / 8)) (p mod 8)).

(** The [n] bits from position [p] on, least significant first. *)
Fixpoint bits_from (r : BitReader) (p : Z) (n : nat) : Z :=
  match n with
  | O => 0
  | S n' => bit_at r p + 2 * bits_from r (p + 1) n'
  end.

Definition at_bit (r : BitReader) (p : Z) : BitReader :=
  mkBitReader (buffer r) (max_bytes r) p.

(** [bit_reader.GetValue(num_bits, &v)]: [None] when the bits are not
    there. *)
Definition GetValue (num_bits : Z) (r : BitReader) : option (Z * BitReader) :=
  if bit_pos r + num_bits >? max_bytes r * 8 then None
  else Some (bits_from r (bit_pos r) (Z.to_nat num_bits),
             at_bit r (bit_pos r + num_bits)).

(** [bit_reader.GetAligned(num_bytes, &v)]: skips to the next byte boundary
    and reads [num_bytes] bytes, little endian. *)
Definition GetAligned (num_bytes : Z) (r : BitReader) : option (Z * BitReader) :=
  let byte_offset := (bit_pos r + 7) / 8 in
  if byte_offset + num_bytes >? max_bytes r then None
  else Some (bits_from r (8 * byte_offset) (Z.to_nat (8 * num_bytes)),
             at_bit r (8 * (byte_offset + num_bytes))).

(** The bytes that [GetAligned(1, _)] delivers one after the other from
    byte [byte_offset] on. *)
Definition aligned_bytes (r : BitReader) (byte_offset : Z) : list Z :=
  map (fun i => byte_at r (Z.of_nat i))
      (seq (Z.to_nat byte_offset) (Z.to_nat (max_bytes r - byte_offset))).

(** The loop of [GetVlqInt]: seven bits per byte, the eighth bit announces
    another byte.  The result is the value and the number of bytes read. *)
Fixpoint vlq (bytes : list Z) (shift v count : Z) : option (Z * Z) :=
  match bytes with
  | [] => None
  | byte :: rest =>
      let v := Z.lor v (int32 (Z.shiftl (Z.land byte 127) shift)) in
      if Z.land byte 128 =? 0 then Some (v, count + 1)
      else vlq rest (shift + 7) v (count + 1)
  end.

(** [bit_reader.GetVlqInt(&v)] *)
Definition GetVlqInt (r : BitReader) : option (Z * BitReader) :=
  let byte_offset := (bit_pos r + 7) / 8 in
  match vlq (aligned_bytes r byte_offset) 0 0 0 with
  | None => None
  | Some (v, count) => Some (v, at_bit r (8 * (byte_offset + count)))
  end.

(** The members of [RleDecoder]: [repeat_count_] and [literal_count_] are
    [uint32_t], [current_value_] is [uint64_t]. *)
Record RleDecoder : Type := mkRleDecoder {
  bit_reader_ : BitReader;
  bit_width_ : Z;
  current_value_ : Z;
  repeat_count_ : Z;
  literal_count_ : Z
}.

(** [RleDecoder::Reset(buffer, buffer_len, bit_width)] *)
Definition Reset (bytes : list Z) (buffer_len bit_width : Z) : RleDecoder :=
  mkRleDecoder (mkBitReader bytes buffer_len 0) bit_width 0 0 0.

(** [RleDecoder::NextCounts()]: reads the header of the next run; [None]
    when the function returns false. *)
Definition NextCounts (d : RleDecoder) : option RleDecoder :=
  match GetVlqInt (bit_reader_ d) with
  | None => None
  | Some (indicator_value, r) =>
      if negb (Z.land indicator_value 1 =? 0) then
        let literal_count := uint32 (Z.shiftr indicator_value 1 * 8) in
        if literal_count =? 0 then None
        else Some (mkRleDecoder r (bit_width_ d) (current_value_ d)
                     (repeat_count_ d) literal_count)
      else
        let repeat_count := uint32 (Z.shiftr indicator_value 1) in
        match GetAligned ((bit_width_ d + 7) / 8) r with
        | None => None
        | Some (value, r') =>
            if repeat_count =? 0 then None
            else Some (mkRleDecoder r' (bit_width_ d) value repeat_count
                         (literal_count_ d))
        end
  end.

(** [RleDecoder::Get(&val)] for a [uint8_t] value. *)
Definition Get (d : RleDecoder) : option (Z * RleDecoder) :=
  match
    if (literal_count_ d =? 0) && (repeat_count_ d =? 0)
    then NextCounts d else Some d
  with
  | None => None
  | Some d =>
      if repeat_count_ d >? 0 then
        Some (uint8 (current_value_ d),
              mkRleDecoder (bit_reader_ d) (bit_width_ d) (current_value_ d)
                (repeat_count_ d - 1) (literal_count_ d))
      else
        match GetValue (bit_width_ d) (bit_reader_ d) with
        | None => None
        | Some (v, r) =>
            Some (uint8 v,
                  mkRleDecoder r (bit_width_ d) (current_value_ d)
                    (repeat_count_ d) (literal_count_ d - 1))
        end
  end.

(** *** The level decoder *)

(** [class LevelDecoder : public RleDecoder].  [cached_levels_] is [None]
    while the pointer is NULL. *)
Record LevelDecoder : Type := mkLevelDecoder {
  rle : RleDecoder;
  cached_levels_ : option (list Z);
  num_cached_levels_ : Z;
  cached_level_idx_ : Z;
  encoding_ : Encoding;
  max_level_ : Z;
  cache_size_ : Z;
  num_buffered_values_ : Z;
  decoding_error_code_ : TErrorCode
}.

(** [LevelDecoder(is_def_level_decoder)] *)
Definition new_decoder (is_def_level_decoder : bool) : LevelDecoder :=
  mkLevelDecoder (Reset [] 0 0) None 0 0 PLAIN 0 0 0
    (if is_def_level_decoder then PARQUET_DEF_LEVEL_ERROR else PARQUET_REP_LEVEL_ERROR).

Definition with_rle (d : LevelDecoder) (r : RleDecoder) : LevelDecoder :=
  mkLevelDecoder r (cached_levels_ d) (num_cached_levels_ d) (cached_level_idx_ d)
    (encoding_ d) (max_level_ d) (cache_size_ d) (num_buffered_values_ d)
    (decoding_error_code_ d).

Definition with_cache (d : LevelDecoder) (cache : option (list Z)) : LevelDecoder :=
  mkLevelDecoder (rle d) cache (num_cached_levels_ d) (cached_level_idx_ d)
    (encoding_ d) (max_level_ d) (cache_size_ d) (num_buffered_values_ d)
    (decoding_error_code_ d).

Definition with_cursor (d : LevelDecoder) (num_cached idx : Z) : LevelDecoder :=
  mkLevelDecoder (rle d) (cached_levels_ d) num_cached idx
    (encoding_ d) (max_level_ d) (cache_size_ d) (num_buffered_values_ d)
    (decoding_error_code_ d).

(** [cached_levels_[i] = v]; a store outside the allocation is not
    modelled. *)
Definition store (cache : list Z) (i v : Z) : list Z :=
  if (0 <=? i) && (i <? Z.of_nat (length cache))
  then firstn (Z.to_nat i) cache ++ [uint8 v] ++ skipn (S (Z.to_nat i)) cache
  else cache.

Definition store_level (d : LevelDecoder) (i v : Z) : LevelDecoder :=
  with_cache d (option_map (fun cache => store cache i v) (cached_levels_ d)).

(** [memset(cached_levels_ + i, v, n)] *)
Fixpoint memset_levels (d : LevelDecoder) (i v : Z) (n : nat) : LevelDecoder :=
  match n with
  | O => d
  | S n' => memset_levels (store_level d i v) (i + 1) v n'
  end.

Definition level_at (d : LevelDecoder) (i : Z) : Z :=
  match cached_levels_ d with
  | Some cache => nth (Z.to_nat i) cache 0
  | None => 0
  end.

(** [InitCache(pool, cache_size)]; [allocated] tells whether
    [pool->TryAllocate] succeeds. *)
Definition InitCache (allocated : bool) (cache_size : Z) (d : LevelDecoder)
  : Status * LevelDecoder :=
  let d := with_cursor d 0 0 in
  match cached_levels_ d with
  | Some _ => (OK, d)
  | None =>
      if negb allocated then (Error MEM_LIMIT_EXCEEDED EmptyString, d)
      else
        let d := with_cache d (Some (repeat 0 (Z.to_nat cache_size))) in
        (OK,
         mkLevelDecoder (rle d) (cached_levels_ d) (num_cached_levels_ d)
           (cached_level_idx_ d) (encoding_ d) (max_level_ d) cache_size
           (num_buffered_values_ d) (decoding_error_code_ d))
  end.

(** Modelled from the spec: [ReadWriteUtil::Read(data, data_size,
    &num_bytes, &status)] (exec/read-write-util.h) is not among the sources;
    [Init] "advances data past any length prefix (RLE)", which is a 4-byte
    little endian [int32_t]. *)
Definition read_int32 (data : list Z) : option (Z * list Z) :=
  match data with
  | b0 :: b1 :: b2 :: b3 :: rest =>
      Some (int32 (b0 + 256 * b1 + 65536 * b2 + 16777216 * b3), rest)
  | _ => None
  end.

(** [LevelDecoder::Init(filename, encoding, cache_pool, cache_size,
    max_level, num_buffered_values, data, data_size)]: the status, the
    decoder and the data behind the levels.  [Bits::Log2Ceiling64(n)] is
    [Z.log2_up n] (the "bit-width = ceil(log2(max_level+1))" of the
    specification) and [BitUtil::Ceil(n, 8)] is [(n + 7) / 8].  The DCHECK
    at the end, that the levels take at least one byte, is left out. *)
Definition Init (encoding : Encoding) (allocated : bool) (cache_size max_level
    num_buffered_values : Z) (data : list Z) (d : LevelDecoder)
  : Status * LevelDecoder * list Z :=
  let d := mkLevelDecoder (rle d) (cached_levels_ d) (num_cached_levels_ d)
             (cached_level_idx_ d) encoding max_level (cache_size_ d)
             num_buffered_values (decoding_error_code_ d) in
  let '(status, d) := InitCache allocated cache_size d in
  if negb (ok status) then (status, d, data)
  else if max_level =? 0 then (OK, d, data)
  else
    match encoding with
    | RLE =>
        match read_int32 data with
        | None => (Error GENERAL "File is corrupt: unexpected end of data", d, data)
        | Some (num_bytes, data) =>
            if num_bytes <? 0
            then (Error PARQUET_CORRUPT_RLE_BYTES EmptyString, d, data)
            else
              let bit_width := Z.log2_up (max_level + 1) in
              (OK, with_rle d (Reset data num_bytes bit_width),
               skipn (Z.to_nat num_bytes) data)
        end
    | BIT_PACKED =>
        let num_bytes := (num_buffered_values + 7) / 8 in
        (OK,
         with_rle d
           (mkRleDecoder (mkBitReader data num_bytes 0) (bit_width_ (rle d))
              (current_value_ (rle d)) (repeat_count_ (rle d))
              (literal_count_ (rle d))),
         skipn (Z.to_nat num_bytes) data)
    | _ => (Error GENERAL "Unsupported encoding", d, data)
    end.

(** [ReadLevel()]: the next level, or [INVALID_LEVEL]. *)
Definition INVALID_LEVEL : Z := -1.

Definition ReadLevel (d : LevelDecoder) : Z * LevelDecoder :=
  match encoding_ d with
  | RLE =>
      match Get (rle d) with
      | Some (level, r) => (level, with_rle d r)
      | None => (INVALID_LEVEL, d)
      end
  | _ =>
      match GetValue 1 (bit_reader_ (rle d)) with
      | Some (level, r) =>
          (uint8 level,
           with_rle d (mkRleDecoder r (bit_width_ (rle d)) (current_value_ (rle d))
                         (repeat_count_ (rle d)) (literal_count_ (rle d))))
      | None => (INVALID_LEVEL, d)
      end
  end.

Definition with_reader (d : LevelDecoder) (r : BitReader) : LevelDecoder :=
  with_rle d (mkRleDecoder r (bit_width_ (rle d)) (current_value_ (rle d))
                (repeat_count_ (rle d)) (literal_count_ (rle d))).

Definition with_counts (d : LevelDecoder) (repeat_count literal_count : Z)
  : LevelDecoder :=
  with_rle d (mkRleDecoder (bit_reader_ (rle d)) (bit_width_ (rle d))
                (current_value_ (rle d)) repeat_count literal_count).

(** The loops [for (; num_values < end; ++num_values)] of [FillCache]: read a
    value of [num_bits] bits into the cache, stop at a value that is missing
    or greater than [max_level_].  The flag is false where the function
    returns false. *)
Fixpoint ReadLevels (num_bits : Z) (count : nat) (num_values : Z) (d : LevelDecoder)
  : bool * Z * LevelDecoder :=
  match count with
  | O => (true, num_values, d)
  | S count' =>
      match GetValue num_bits (bit_reader_ (rle d)) with
      | None => (false, num_values, d)
      | Some (v, r) =>
          let d := store_level (with_reader d r) num_values v in
          if level_at d num_values >? max_level_ d then (false, num_values, d)
          else ReadLevels num_bits count' (num_values + 1) d
      end
  end.

(** The loop [while (true)] of the RLE branch of [FillCache]; the result is
    the returned flag and the decoder, in which [num_cached_levels_] is set
    when the flag is true.  Each round but the last reads the header of a
    run, so [fuel] rounds suffice when [fuel] exceeds the number of bits of
    the level data; [None] means that the rounds ran out.  What
    [NextCounts] leaves behind when it fails is not modelled. *)
Fixpoint FillCacheRle (fuel : nat) (batch_size num_values : Z) (d : LevelDecoder)
  : option (bool * LevelDecoder) :=
  match fuel with
  | O => None
  | S fuel' =>
      let num_repeats_to_set :=
        Z.min (repeat_count_ (rle d)) (uint32 (batch_size - num_values)) in
      let d := memset_levels d num_values (current_value_ (rle d))
                 (Z.to_nat num_repeats_to_set) in
      let num_values := num_values + num_repeats_to_set in
      let d := with_counts d (repeat_count_ (rle d) - num_repeats_to_set)
                 (literal_count_ (rle d)) in
      let num_literals_to_set :=
        Z.min (literal_count_ (rle d)) (uint32 (batch_size - num_values)) in
      let num_values_end :=
        Z.min (uint32 (num_values + literal_count_ (rle d))) (uint32 batch_size) in
      let '(valid, num_values, d) :=
        ReadLevels (bit_width_ (rle d)) (Z.to_nat (num_values_end - num_values))
          num_values d in
      if negb valid then Some (false, d)
      else
        let d := with_counts d (repeat_count_ (rle d))
                   (literal_count_ (rle d) - num_literals_to_set) in
        if num_values =? batch_size
        then Some (true, with_cursor d num_values (cached_level_idx_ d))
        else
          match NextCounts (rle d) with
          | None => Some (false, d)
          | Some r =>
              let d := with_rle d r in
              if (repeat_count_ r >? 0) && (current_value_ r >? max_level_ d)
              then Some (false, d)
              else FillCacheRle fuel' batch_size num_values d
          end
  end.

(** The number of rounds given to the RLE loop. *)
Definition rounds (d : LevelDecoder) : nat :=
  S (Z.to_nat (8 * max_bytes (bit_reader_ (rle d)))).

(** [FillCache(batch_size, &num_cached_levels_)] *)
Definition FillCache (batch_size : Z) (d : LevelDecoder)
  : option (bool * LevelDecoder) :=
  match encoding_ d with
  | RLE => FillCacheRle (rounds d) batch_size 0 d
  | _ =>
      let '(valid, num_values, d) := ReadLevels 1 (Z.to_nat batch_size) 0 d in
      if negb valid then Some (false, d)
      else Some (true, with_cursor d num_values (cached_level_idx_ d))
  end.

(** [CacheNextBatch(batch_size)] *)
Definition CacheNextBatch (batch_size : Z) (d : LevelDecoder)
  : option (Status * LevelDecoder) :=
  let d := with_cursor d (num_cached_levels_ d) 0 in
  if max_level_ d >? 0 then
    match FillCache batch_size d with
    | None => None
    | Some (false, d) => Some (Error (decoding_error_code_ d) EmptyString, d)
    | Some (true, d) => Some (OK, d)
    end
  else Some (OK, with_cursor d batch_size 0).

Definition CacheHasNext (d : LevelDecoder) : bool :=
  cached_level_idx_ d <? num_cached_levels_ d.

(** [CacheGetNext()] *)
Definition CacheGetNext (d : LevelDecoder) : Z * LevelDecoder :=
  (level_at d (cached_level_idx_ d),
   with_cursor d (num_cached_levels_ d) (cached_level_idx_ d + 1)).

(** The first [n] cached levels lie between 0 and [max_level_]. *)
Definition levels_in_range (d : LevelDecoder) (n : Z) : Prop :=
  forall i, 0 <= i < n -> 0 <= level_at d i <= max_level_ d.

(** What decoding leaves as it is. *)
Definition same_stream (d d' : LevelDecoder) : Prop :=
  max_level_ d' = max_level_ d /\
  encoding_ d' = encoding_ d /\
  bit_width_ (rle d') = bit_width_ (rle d) /\
  max_bytes (bit_reader_ (rle d')) = max_bytes (bit_reader_ (rle d)) /\
  decoding_error_code_ d' = decoding_error_code_ d.

(** The state of the RLE decoder and the cache while [FillCache] works, with
    [n] levels in the cache: the counters are not negative, the cache holds
    bytes, a repeated run that is under way repeats a level within range,
    and the [n] levels are within range. *)
Definition filling (d : LevelDecoder) (n : Z) : Prop :=
  0 <= n /\
  0 <= max_level_ d /\
  0 <= bit_width_ (rle d) /\
  0 <= bit_pos (bit_reader_ (rle d)) /\
  0 <= repeat_count_ (rle d) /\
  0 <= current_value_ (rle d) /\
  (forall i, 0 <= level_at d i) /\
  (0 < repeat_count_ (rle d) -> current_value_ (rle d) <= max_level_ d) /\
  levels_in_range d n.

(** The state of a decoder between calls; a decoder without levels
    ([max_level_] 0) has a cache of zeros. *)
Definition well_formed (d : LevelDecoder) : Prop :=
  filling d 0 /\ (max_level_ d = 0 -> forall i, level_at d i = 0).

(** The bits of the level data that the reader has not passed. *)
Definition bits_left (d : LevelDecoder) : Z :=
  8 * max_bytes (bit_reader_ (rle d)) - bit_pos (bit_reader_ (rle d)).

(** Level data for max_level 2 (bit width 2): the length 2, then a repeated
    run of one value 3. *)
Definition sample_level_data : list Z := [2; 0; 0; 0; 2; 3].

End Level.

(** ** Schema resolution: [ResolvePath] *)

Module Schema.

(** [parquet::FieldRepetitionType] and [parquet::Type], the repetition
    type and the physical type of a schema element. *)
Inductive FieldRepetitionType : Type := REQUIRED | OPTIONAL | REPEATED.

Inductive ParquetType : Type :=
| BOOLEAN | INT32 | INT64 | INT96 | FLOAT | DOUBLE | BYTE_ARRAY | FIXED_LEN_BYTE_ARRAY.

Definition ParquetType_eqb (a b : ParquetType) : bool :=
  match a, b with
  | BOOLEAN, BOOLEAN | INT32, INT32 | INT64, INT64 | INT96, INT96
  | FLOAT, FLOAT | DOUBLE, DOUBLE | BYTE_ARRAY, BYTE_ARRAY
  | FIXED_LEN_BYTE_ARRAY, FIXED_LEN_BYTE_ARRAY => true
  | _, _ => false
  end.

(** Modelled from the spec: [struct SchemaNode] is declared in
    hdfs-parquet-scanner.h, which is not among the sources; "element: raw
    schema entry (name, physical type, repetition type, ...)", "children:
    ordered sequence of SchemaNode (empty for leaves)".  Of [element] the
    name, the physical type and the repetition type are kept. *)
Inductive SchemaNode : Type :=
| mkSchemaNode (name : string) (type : ParquetType)
    (repetition_type : FieldRepetitionType) (children : list SchemaNode).

Definition name (n : SchemaNode) : string :=
  match n with mkSchemaNode s _ _ _ => s end.

Definition type (n : SchemaNode) : ParquetType :=
  match n with mkSchemaNode _ t _ _ => t end.

Definition children (n : SchemaNode) : list SchemaNode :=
  match n with mkSchemaNode _ _ _ c => c end.

Definition is_repeated (n : SchemaNode) : bool :=
  match n with
  | mkSchemaNode _ _ REPEATED _ => true
  | _ => false
  end.

(** Modelled from the spec: [PrimitiveType] and [ColumnType]
    (runtime/types.h) are not among the sources; they are the "table column
    type" of a step of the path, with the members that the resolution reads:
    the type, the children of a complex type and the field names of a
    struct. *)
Inductive PrimitiveType : Type :=
| TYPE_BOOLEAN | TYPE_TINYINT | TYPE_SMALLINT | TYPE_INT | TYPE_BIGINT
| TYPE_FLOAT | TYPE_DOUBLE | TYPE_TIMESTAMP | TYPE_STRING | TYPE_DECIMAL
| TYPE_CHAR | TYPE_VARCHAR | TYPE_STRUCT | TYPE_ARRAY | TYPE_MAP.

(** [ColumnType] *)
Inductive ColumnType : Type :=
| mkColumnType (type : PrimitiveType) (children : list ColumnType)
    (field_names : list string).

Definition col_type_of (t : ColumnType) : PrimitiveType :=
  match t with mkColumnType p _ _ => p end.

Definition col_children (t : ColumnType) : list ColumnType :=
  match t with mkColumnType _ c _ => c end.

Definition field_names (t : ColumnType) : list string :=
  match t with mkColumnType _ _ f => f end.

(** Modelled from the spec: [enum ArrayEncoding] is declared in
    hdfs-parquet-scanner.h, which is not among the sources; the "three
    different legal array-encoding conventions". *)
Inductive ArrayEncoding : Type := ONE_LEVEL | TWO_LEVEL | THREE_LEVEL.

(** What a resolution writes through its out-parameters, and its status.
    [node] is [None] for a NULL pointer. *)
Record Resolution : Type := mkResolution {
  status : Status;
  node : option SchemaNode;
  pos_field : bool;
  missing_field : bool
}.

Section WithTable.

(** The table and the query: the column descriptors (name and type), the
    number of partition keys, whether the fallback schema resolution is by
    name, the file and its schema, and the table
    [IMPALA_TO_PARQUET_TYPES]. *)
Variable col_descs : list (string * ColumnType).
Variable num_partition_keys : Z.
Variable resolve_by_name : bool.
Variable schema_ : SchemaNode.
Variable IMPALA_TO_PARQUET_TYPES : PrimitiveType -> ParquetType.

(** [SchemaPathConstants::ARRAY_POS] and [SchemaPathConstants::MAP_KEY], the
    path indices that stand for the position of an array and the key of a
    map; the other two constants occur in DCHECKs only. *)
Variable ARRAY_POS : Z.
Variable MAP_KEY : Z.

(** [FindChildWithName(node, name)] *)
Fixpoint FindChildWithName_from (idx : Z) (nodes : list SchemaNode) (name_ : string)
  : Z :=
  match nodes with
  | [] => idx
  | child :: rest =>
      if String.eqb (name child) name_ then idx
      else FindChildWithName_from (idx + 1) rest name_
  end.

Definition FindChildWithName (node_ : SchemaNode) (name_ : string) : Z :=
  FindChildWithName_from 0 (children node_) name_.

Definition size (node_ : SchemaNode) : Z := Z.of_nat (length (children node_)).

(** [file_idx >= node->children.size()], a comparison of an [int] with a
    [size_t]: a negative index converts to a number beyond every size. *)
Definition beyond_children (file_idx : Z) (node_ : SchemaNode) : bool :=
  (file_idx <? 0) || (file_idx >=? size node_).

Definition is_type (t : PrimitiveType) (c : ColumnType) : bool :=
  match t, col_type_of c with
  | TYPE_STRUCT, TYPE_STRUCT | TYPE_ARRAY, TYPE_ARRAY | TYPE_MAP, TYPE_MAP => true
  | _, _ => false
  end.

(** [NextSchemaNode(col_type, path, next_idx, node, missing_field)]: the
    child of [node] that [path[next_idx]] names, or NULL with
    [*missing_field] set.  [first] tells [next_idx == 0]; the outer [None]
    is an index outside [col_descs] or [field_names]. *)
Definition NextSchemaNode (col_type : option ColumnType) (table_idx : Z)
    (first : bool) (node_ : SchemaNode) : option (option SchemaNode) :=
  let by_index (file_idx : Z) : option (option SchemaNode) :=
    if beyond_children file_idx node_ then Some None
    else Some (nth_error (children node_) (Z.to_nat file_idx)) in
  if resolve_by_name then
    if first then
      match nth_error col_descs (Z.to_nat table_idx) with
      | Some (name_, _) => by_index (FindChildWithName node_ name_)
      | None => None
      end
    else
      match col_type with
      | None => None
      | Some t =>
          if is_type TYPE_STRUCT t then
            match nth_error (field_names t) (Z.to_nat table_idx) with
            | Some name_ => by_index (FindChildWithName node_ name_)
            | None => None
            end
          else if is_type TYPE_ARRAY t then by_index table_idx
          else
            let name_ := if table_idx =? MAP_KEY then "key"%string else "value"%string in
            let file_idx := FindChildWithName node_ name_ in
            by_index (if beyond_children file_idx node_ then table_idx else file_idx)
      end
  else
    if first then by_index (table_idx - num_partition_keys)
    else by_index table_idx.

Definition unrecognized (what : string) (node_ : SchemaNode) : Status :=
  Error PARQUET_UNRECOGNIZED_SCHEMA (what ++ " " ++ name node_).

(** [ResolveArray(array_encoding, path, idx, node, pos_field,
    missing_field)]; [next] is [path[idx + 1]] when the path goes on. *)
Definition ResolveArray (array_encoding : ArrayEncoding) (next : option Z)
    (node_ : SchemaNode) : Status * option SchemaNode * bool :=
  match
    match array_encoding with
    | ONE_LEVEL =>
        if negb (is_repeated node_) then inl (unrecognized "array" node_)
        else inr node_
    | _ =>
        match children node_ with
        | [child] =>
            if negb (is_repeated child) then inl (unrecognized "array" node_)
            else inr child
        | _ => inl (unrecognized "array" node_)
        end
    end
  with
  | inl err => (err, Some node_, false)
  | inr repeated_node =>
      match next with
      | Some next_idx =>
          if next_idx =? ARRAY_POS then (OK, None, true)
          else (OK, Some repeated_node, false)
      | None => (OK, Some repeated_node, false)
      end
  end.

(** [ResolveMap(path, idx, node, missing_field)] *)
Definition ResolveMap (node_ : SchemaNode) : Status * option SchemaNode :=
  match children node_ with
  | [child] =>
      if negb (is_repeated child) || negb (Z.of_nat (length (children child)) =? 2)
      then (unrecognized "map" node_, Some node_)
      else (OK, Some child)
  | _ => (unrecognized "map" node_, Some node_)
  end.

(** [ValidateScalarNode(node, col_type, path, idx)] *)
Definition ValidateScalarNode (node_ : SchemaNode) (col_type : ColumnType) : Status :=
  if negb (match children node_ with [] => true | _ => false end)
  then unrecognized "scalar" node_
  else if negb (ParquetType_eqb (IMPALA_TO_PARQUET_TYPES (col_type_of col_type))
                  (type node_))
  then unrecognized "scalar" node_
  else OK.

(** The loop of [ResolvePathHelper] from an index on: [rest] is the path
    from that index, [first] tells that the index is 0, [node_] and
    [col_type] are [*node] and [col_type] before the iteration.  The outer
    [None] is an index outside a vector of the table's types. *)
Fixpoint ResolvePathFrom (array_encoding : ArrayEncoding) (rest : list Z)
    (first : bool) (node_ : SchemaNode) (col_type : option ColumnType)
  : option Resolution :=
  match rest with
  | [] => Some (mkResolution OK (Some node_) false false)
  | table_idx :: rest' =>
      let advance :=
        first ||
        negb (match col_type with Some t => is_type TYPE_ARRAY t | None => false end) ||
        match array_encoding with THREE_LEVEL => true | _ => false end in
      match
        if advance then NextSchemaNode col_type table_idx first node_
        else Some (Some node_)
      with
      | None => None
      | Some None => Some (mkResolution OK None false true)
      | Some (Some node_) =>
          match
            if first then option_map snd (nth_error col_descs (Z.to_nat table_idx))
            else match col_type with
                 | Some t => nth_error (col_children t) (Z.to_nat table_idx)
                 | None => None
                 end
          with
          | None => None
          | Some t =>
              if is_type TYPE_ARRAY t then
                match ResolveArray array_encoding (hd_error rest') node_ with
                | (Error code msg, n, _) =>
                    Some (mkResolution (Error code msg) n false false)
                | (OK, _, true) => Some (mkResolution OK None true false)
                | (OK, Some n, false) =>
                    ResolvePathFrom array_encoding rest' false n (Some t)
                | (OK, None, false) => Some (mkResolution OK None false false)
                end
              else if is_type TYPE_MAP t then
                match ResolveMap node_ with
                | (Error code msg, n) =>
                    Some (mkResolution (Error code msg) n false false)
                | (OK, Some n) =>
                    ResolvePathFrom array_encoding rest' false n (Some t)
                | (OK, None) => Some (mkResolution OK None false false)
                end
              else if is_type TYPE_STRUCT t then
                ResolvePathFrom array_encoding rest' false node_ (Some t)
              else
                match ValidateScalarNode node_ t with
                | Error code msg =>
                    Some (mkResolution (Error code msg) (Some node_) false false)
                | OK => ResolvePathFrom array_encoding rest' false node_ (Some t)
                end
          end
      end
  end.

(** [ResolvePathHelper(array_encoding, path, node, pos_field,
    missing_field)] *)
Definition ResolvePathHelper (array_encoding : ArrayEncoding) (path : list Z)
  : option Resolution :=
  ResolvePathFrom array_encoding path true schema_ None.

Definition resolved (r : Resolution) : bool :=
  ok (status r) && negb (missing_field r).

(** [ResolvePath(path, node, pos_field, missing_field)] *)
Definition ResolvePath (path : list Z) : option Resolution :=
  match ResolvePathHelper TWO_LEVEL path with
  | None => None
  | Some two_level =>
      if resolved two_level
      then Some (mkResolution OK (node two_level) (pos_field two_level) false)
      else
        match ResolvePathHelper THREE_LEVEL path with
        | None => None
        | Some three_level =>
            if resolved three_level
            then Some (mkResolution OK (node three_level) (pos_field three_level) false)
            else
              match ResolvePathHelper ONE_LEVEL path with
              | None => None
              | Some one_level =>
                  if resolved one_level
                  then Some (mkResolution OK (node one_level) (pos_field one_level)
                               false)
                  else if missing_field one_level || missing_field two_level
                          || missing_field three_level
                  then Some (mkResolution OK None (pos_field one_level) true)
                  else Some (mkResolution (status three_level) None
                               (pos_field one_level) false)
              end
        end
  end.

End WithTable.

(** The mapping of scalar types to physical types, as far as the sample
    needs it. *)
Definition sample_parquet_type (t : PrimitiveType) : ParquetType :=
  match t with
  | TYPE_BOOLEAN => BOOLEAN
  | TYPE_TINYINT | TYPE_SMALLINT | TYPE_INT => INT32
  | TYPE_BIGINT => INT64
  | TYPE_FLOAT => FLOAT
  | TYPE_DOUBLE => DOUBLE
  | TYPE_TIMESTAMP => INT96
  | TYPE_DECIMAL => FIXED_LEN_BYTE_ARRAY
  | _ => BYTE_ARRAY
  end.

(** A table [(id INT, tags ARRAY<INT>)] and a file that stores [tags] in
    the three-level encoding. *)
Definition sample_col_descs : list (string * ColumnType) :=
  [("id"%string, mkColumnType TYPE_INT [] []);
   ("tags"%string, mkColumnType TYPE_ARRAY [mkColumnType TYPE_INT [] []] [])].

Definition sample_item : SchemaNode := mkSchemaNode "element" INT32 OPTIONAL [].

Definition sample_list : SchemaNode := mkSchemaNode "list" BOOLEAN REPEATED [sample_item].

Definition sample_schema : SchemaNode :=
  mkSchemaNode "schema" BOOLEAN REQUIRED
    [mkSchemaNode "id" INT32 OPTIONAL [];
     mkSchemaNode "tags" BOOLEAN OPTIONAL [sample_list]].

End Schema.

(** ** [runtime/minmax-value.h]: the comparison operators *)

Module MinMaxCompare.

Import MinMaxValue.

Section WithOrder.

Variable numtype : Type.

(** The operators [<] and [<=] of [numtype].  For the arithmetic types at
    which the template is used [a > b] is [b < a] and [a >= b] is
    [b <= a]. *)
Variable lt : numtype -> numtype -> bool.
Variable le : numtype -> numtype -> bool.

Definition gt (a b : numtype) : bool := lt b a.
Definition ge (a b : numtype) : bool := le b a.

(** [bool operator==(const MinMaxVal& other) const] *)
Definition op_eq (this other : MinMaxVal numtype) : bool :=
  le (min other) (max this) && ge (max other) (min this).

(** [bool operator!=(const MinMaxVal& other) const] *)
Definition op_ne (this other : MinMaxVal numtype) : bool :=
  gt (min other) (max this) || lt (max other) (min this).

(** [bool operator>(const MinMaxVal& other) const] *)
Definition op_gt (this other : MinMaxVal numtype) : bool :=
  gt (max this) (min other).

(** [bool operator>=(const MinMaxVal& other) const] *)
Definition op_ge (this other : MinMaxVal numtype) : bool :=
  ge (max this) (min other).

(** [bool operator<(const MinMaxVal& other) const] *)
Definition op_lt (this other : MinMaxVal numtype) : bool :=
  lt (min this) (max other).

(** [bool operator<=(const MinMaxVal& other) const] *)
Definition op_le (this other : MinMaxVal numtype) : bool :=
  le (min this) (max other).

(** [bool operator==(const numtype& other) const] *)
Definition op_eq_val (this : MinMaxVal numtype) (other : numtype) : bool :=
  ge other (min this) && le other (max this).

(** [bool operator!=(const numtype& other) const] *)
Definition op_ne_val (this : MinMaxVal numtype) (other : numtype) : bool :=
  negb (op_eq_val this other).

(** [bool operator>(const numtype& other) const] *)
Definition op_gt_val (this : MinMaxVal numtype) (other : numtype) : bool :=
  lt other (max this).

(** [bool operator>=(const numtype& other) const] *)
Definition op_ge_val (this : MinMaxVal numtype) (other : numtype) : bool :=
  le other (max this).

(** [bool operator<(const numtype& other) const] *)
Definition op_lt_val (this : MinMaxVal numtype) (other : numtype) : bool :=
  gt other (min this).

(** [bool operator<=(const numtype& other) const] *)
Definition op_le_val (this : MinMaxVal numtype) (other : numtype) : bool :=
  ge other (min this).

(** The six comparisons, to speak about them together. *)
Inductive comparison_op : Type := EQ | NE | GT | GE | LT | LE.

Definition compare_ranges (op : comparison_op) : MinMaxVal numtype ->
    MinMaxVal numtype -> bool :=
  match op with
  | EQ => op_eq | NE => op_ne | GT => op_gt | GE => op_ge | LT => op_lt | LE => op_le
  end.

Definition compare_range_value (op : comparison_op) : MinMaxVal numtype ->
    numtype -> bool :=
  match op with
  | EQ => op_eq_val | NE => op_ne_val | GT => op_gt_val | GE => op_ge_val
  | LT => op_lt_val | LE => op_le_val
  end.

(** The comparison of two values of [numtype]; [==] holds of values that
    are [<=] in both directions. *)
Definition compare_values (op : comparison_op) (a b : numtype) : bool :=
  match op with
  | EQ => le a b && le b a
  | NE => negb (le a b && le b a)
  | GT => gt a b | GE => ge a b | LT => lt a b | LE => le a b
  end.

(** A value lies between the bounds of a range. *)
Definition within (x : numtype) (r : MinMaxVal numtype) : Prop :=
  le (min r) x = true /\ le x (max r) = true.

End WithOrder.

Arguments within {numtype} _ _ _.

End MinMaxCompare.

(** ** [exprs/operators-ir.cc] *)

Module Operators.

Import MinMaxValue MinMaxCompare.

(** Modelled from the spec: the value types of udf/udf.h ([TinyIntVal],
    [SmallIntVal], [IntVal], [BigIntVal], [BooleanVal], [MinMaxIntVal] and
    so on) are not among the sources, and the specification does not
    describe them.  A value is what the macros of this file read and write:
    [is_null], and [val] when the value is not null; [TYPE(x)] makes the
    value [Val x] and [TYPE::null()] the value [null]. *)
Inductive AnyVal (A : Type) : Type :=
| null
| Val (val : A).

Arguments null {A}.
Arguments Val {A} _.

(** The integer value types, the width of their [val] and the width of the
    type in which [v1.val OP v2.val] is computed after the integer
    promotions: [int], or [int64_t] for [BigIntVal]. *)
Inductive IntType : Type := TinyIntVal | SmallIntVal | IntVal | BigIntVal.

Definition bits (t : IntType) : Z :=
  match t with TinyIntVal => 8 | SmallIntVal => 16 | IntVal => 32 | BigIntVal => 64 end.

Definition promoted (t : IntType) : Z :=
  match t with BigIntVal => 64 | _ => 32 end.

(** [z] is a value of the signed type of [w] bits. *)
Definition fits (w z : Z) : bool :=
  (- 2 ^ (w - 1) <=? z) && (z <? 2 ^ (w - 1)).

(** Conversion to the signed type of [w] bits (two's complement). *)
Definition convert (w z : Z) : Z := (z + 2 ^ (w - 1)) mod 2 ^ w - 2 ^ (w - 1).

(** The result of an arithmetic operator of the promoted type: a result
    that the type cannot hold is undefined, which is [None]. *)
Definition arith (t : IntType) (r : Z) : option Z :=
  if fits (promoted t) r then Some r else None.

(** [BINARY_OP_FN(NAME, TYPE, OP)] at an integer type: the outer [None] is
    undefined behaviour of [OP]. *)
Definition BINARY_OP_FN (t : IntType) (OP : Z -> Z -> option Z)
    (v1 v2 : AnyVal Z) : option (AnyVal Z) :=
  match v1, v2 with
  | Val a, Val b => option_map (fun r => Val (convert (bits t) r)) (OP a b)
  | _, _ => Some null
  end.

(** [BINARY_OP_CHECK_ZERO_FN(NAME, TYPE, OP)] *)
Definition BINARY_OP_CHECK_ZERO_FN (t : IntType) (OP : Z -> Z -> option Z)
    (v1 v2 : AnyVal Z) : option (AnyVal Z) :=
  match v1, v2 with
  | Val a, Val b =>
      if b =? 0 then Some null
      else option_map (fun r => Val (convert (bits t) r)) (OP a b)
  | _, _ => Some null
  end.

(** [BINARY_OP_NUMERIC_TYPES(Add, +)] and so on, at the integer types. *)
Definition Add (t : IntType) := BINARY_OP_FN t (fun a b => arith t (a + b)).
Definition Subtract (t : IntType) := BINARY_OP_FN t (fun a b => arith t (a - b)).
Definition Multiply (t : IntType) := BINARY_OP_FN t (fun a b => arith t (a * b)).

(** [BINARY_OP_CHECK_ZERO_INT_TYPES(Int_divide, /)] and [(Mod, %)]: the
    division of C++ truncates towards zero, and the remainder is undefined
    where the quotient is. *)
Definition Int_divide (t : IntType) :=
  BINARY_OP_CHECK_ZERO_FN t (fun a b => arith t (Z.quot a b)).

Definition Mod (t : IntType) :=
  BINARY_OP_CHECK_ZERO_FN t
    (fun a b => if fits (promoted t) (Z.quot a b) then Some (Z.rem a b) else None).

(** [BINARY_OP_INT_TYPES(Bitand, &)], [(Bitxor, ^)], [(Bitor, |)] *)
Definition Bitand (t : IntType) := BINARY_OP_FN t (fun a b => Some (Z.land a b)).
Definition Bitxor (t : IntType) := BINARY_OP_FN t (fun a b => Some (Z.lxor a b)).
Definition Bitor (t : IntType) := BINARY_OP_FN t (fun a b => Some (Z.lor a b)).

(** [BITNOT_FN(TYPE)] *)
Definition Bitnot (t : IntType) (v : AnyVal Z) : AnyVal Z :=
  match v with
  | null => null
  | Val a => Val (convert (bits t) (Z.lnot a))
  end.

Definition FACTORIAL_MAX : Z := 20.

Definition FACTORIAL_LOOKUP : list Z :=
  [1; 1; 2; 6; 24; 120; 720; 5040; 40320; 362880; 3628800; 39916800;
   479001600; 6227020800; 87178291200; 1307674368000; 20922789888000;
   355687428096000; 6402373705728000; 121645100408832000;
   2432902008176640000].

(** [ComputeFactorial(n)] *)
Definition ComputeFactorial (n : Z) : Z :=
  if n >? FACTORIAL_MAX then -1
  else if n <? 0 then 1
  else nth (Z.to_nat n) FACTORIAL_LOOKUP 0.

(** [FACTORIAL_FN(TYPE)]: the result and the message given to
    [c->SetError], if any. *)
Definition Factorial (v : AnyVal Z) : AnyVal Z * option string :=
  match v with
  | null => (null, None)
  | Val n =>
      let fact := ComputeFactorial n in
      if fact <? 0
      then (null,
            Some ("factorial " ++ FileVersion.decimal (Z.to_nat n)
                    ++ "! too large for BIGINT")%string)
      else (Val fact, None)
  end.

(** The comparison operators of the integer types. *)
Definition numeric_op (op : comparison_op) (a b : Z) : bool :=
  match op with
  | EQ => a =? b
  | NE => negb (a =? b)
  | GT => a >? b
  | GE => a >=? b
  | LT => a <? b
  | LE => a <=? b
  end.

(** The body shared by the predicate macros: NULL when an argument is
    NULL, and [BooleanVal(v1.val OP v2.val)] otherwise. *)
Definition BINARY_PREDICATE_FN {A B : Type} (OP : A -> B -> bool)
    (v1 : AnyVal A) (v2 : AnyVal B) : AnyVal bool :=
  match v1, v2 with
  | Val a, Val b => Val (OP a b)
  | _, _ => null
  end.

(** [BINARY_PREDICATE_NUMERIC_FN(NAME, TYPE, OP)] at an integer type:
    [Eq], [Ne], [Gt], [Lt], [Ge], [Le]. *)
Definition BINARY_PREDICATE_NUMERIC_FN (NAME : comparison_op) :
    AnyVal Z -> AnyVal Z -> AnyVal bool :=
  BINARY_PREDICATE_FN (numeric_op NAME).

(** [NULLSAFE_NUMERIC_DISTINCTION(NAME, TYPE, OP, IS_EQUAL)], with [OP] the
    operator of the type of [val]. *)
Definition NULLSAFE_NUMERIC_DISTINCTION {A : Type} (OP : A -> A -> bool)
    (IS_EQUAL : bool) (v1 v2 : AnyVal A) : AnyVal bool :=
  let is_null (v : AnyVal A) := match v with null => true | Val _ => false end in
  match v1, v2 with
  | null, _ => Val (if IS_EQUAL then is_null v2 else negb (is_null v2))
  | Val _, null => Val (negb IS_EQUAL)
  | Val a, Val b => Val (OP a b)
  end.

(** [NULLSAFE_DISTINCTION(DistinctFrom, !=, false)] and
    [NULLSAFE_DISTINCTION(NotDistinct, ==, true)] at a numeric type with the
    operators [ne] and [eq]: [BooleanVal], the integer types, and [FloatVal]
    and [DoubleVal], whose operators are those of the IEEE numbers. *)
Definition DistinctFrom {A : Type} (ne : A -> A -> bool) :
    AnyVal A -> AnyVal A -> AnyVal bool :=
  NULLSAFE_NUMERIC_DISTINCTION ne false.

Definition NotDistinct {A : Type} (eq : A -> A -> bool) :
    AnyVal A -> AnyVal A -> AnyVal bool :=
  NULLSAFE_NUMERIC_DISTINCTION eq true.

(** [==] and [!=] of [double]: a NaN is equal to nothing, itself included,
    and different from everything. *)
Definition double_eq (a b : PrimFloat.float) : bool := PrimFloat.eqb a b.
Definition double_ne (a b : PrimFloat.float) : bool := negb (PrimFloat.eqb a b).

(** [BINARY_2_MINMAX_PREDICATE_NUMERIC_FN(NAME, TYPE, OP)]: both arguments
    are ranges, and [OP] is the operator of [MinMaxVal]. *)
Definition BINARY_2_MINMAX_PREDICATE_NUMERIC_FN (NAME : comparison_op) :
    AnyVal (MinMaxVal Z) -> AnyVal (MinMaxVal Z) -> AnyVal bool :=
  BINARY_PREDICATE_FN (compare_ranges Z Z.ltb Z.leb NAME).

(** [BINARY_MINMAX_PREDICATE_NUMERIC_FN(NAME, TYPE1, TYPE2, OP)]: a range
    and a value. *)
Definition BINARY_MINMAX_PREDICATE_NUMERIC_FN (NAME : comparison_op) :
    AnyVal (MinMaxVal Z) -> AnyVal Z -> AnyVal bool :=
  BINARY_PREDICATE_FN (compare_range_value Z Z.ltb Z.leb NAME).

(** The operator that each name is given in
    [BINARY_MINMAX_REVERSE_PREDICATE_ALL_TYPES(NAME, OP)]. *)
Definition reverse_op (NAME : comparison_op) : comparison_op :=
  match NAME with
  | EQ => EQ | NE => NE | GT => LT | LT => GT | GE => LE | LE => GE
  end.

(** [BINARY_MINMAX_REVERSE_PREDICATE_NUMERIC_FN(NAME, TYPE1, TYPE2, OP)]: a
    value and a range, computed as [v2.val OP v1.val]. *)
Definition BINARY_MINMAX_REVERSE_PREDICATE_NUMERIC_FN (NAME : comparison_op)
    (v1 : AnyVal Z) (v2 : AnyVal (MinMaxVal Z)) : AnyVal bool :=
  BINARY_PREDICATE_FN
    (fun a b => compare_range_value Z Z.ltb Z.leb (reverse_op NAME) b a) v1 v2.

End Operators.

(** ** Footer ranges: [IssueInitialRanges] and [FindFooterSplit] *)

Module InitialRanges.

(** [FOOTER_SIZE] *)
Definition FOOTER_SIZE : Z := 100 * 1024.

(** [DiskIoMgr::ScanRange], as far as the two functions read it.  Splits
    are handled through pointers; a split is identified here by its
    position in [splits]. *)
Record ScanRange : Type := mkScanRange {
  offset : Z;
  len : Z;
  disk_id : Z;
  try_cache : bool;
  expected_local : bool
}.

(** [HdfsFileDesc]: the length of the file and its splits. *)
Record HdfsFileDesc : Type := mkHdfsFileDesc {
  file_length : Z;
  splits : list ScanRange
}.

(** [FindFooterSplit(file)]: the position of the first split that ends at
    the end of the file, [None] for NULL. *)
Fixpoint FindFooterSplit_from (i : nat) (file_length : Z) (splits : list ScanRange)
  : option nat :=
  match splits with
  | [] => None
  | split :: rest =>
      if int64 (offset split + len split) =? file_length then Some i
      else FindFooterSplit_from (S i) file_length rest
  end.

Definition FindFooterSplit (file : HdfsFileDesc) : option nat :=
  FindFooterSplit_from 0 (file_length file) (splits file).

(** A footer range as [AllocateScanRange] is asked for it: the file and the
    split it is issued for, its length and offset, and the disk id and the
    two flags. *)
Record FooterRange : Type := mkFooterRange {
  file_idx : nat;
  split_idx : nat;
  range_len : Z;
  range_offset : Z;
  range_disk_id : Z;
  range_try_cache : bool;
  range_expected_local : bool
}.

(** What the loop over the splits of one file adds: footer ranges, and
    calls of [RangeComplete]. *)
Fixpoint IssueFileRanges (zero_slot_scan : bool) (i : nat) (file : HdfsFileDesc)
    (footer_split : option nat) (j : nat) (splits : list ScanRange)
  : list FooterRange * nat :=
  match splits with
  | [] => ([], 0%nat)
  | split :: rest =>
      let footer_size := Z.min FOOTER_SIZE (file_length file) in
      let footer_start := int64 (file_length file - footer_size) in
      let '(ranges, completed) :=
        IssueFileRanges zero_slot_scan i file footer_split (S j) rest in
      let is_footer_split :=
        match footer_split with Some k => Nat.eqb k j | None => false end in
      if negb zero_slot_scan || is_footer_split then
        let footer_range :=
          match footer_split with
          | Some k =>
              let fs := nth k (InitialRanges.splits file) split in
              mkFooterRange i j footer_size footer_start (disk_id fs) (try_cache fs)
                (expected_local fs)
          | None => mkFooterRange i j footer_size footer_start (-1) false false
          end in
        (footer_range :: ranges, completed)
      else (ranges, S completed)
  end.

(** The result of [IssueInitialRanges]: the status, the ranges given to
    [AddDiskIoRanges] ([None] when it is not called) and the number of
    calls of [RangeComplete]. *)
Record Issued : Type := mkIssued {
  status : Status;
  added : option (list FooterRange);
  completed : nat
}.

(** The loop over the files, from file [i] on, with the ranges and the
    completed splits so far. *)
Fixpoint IssueRanges_from (zero_slot_scan : bool) (add_status : Status) (i : nat)
    (files : list HdfsFileDesc) (footer_ranges : list FooterRange) (done : nat)
  : Issued :=
  match files with
  | [] => mkIssued add_status (Some footer_ranges) done
  | file :: rest =>
      if file_length file <? 12
      then mkIssued (Error GENERAL "Parquet file has an invalid file length") None done
      else
        let '(ranges, completed) :=
          IssueFileRanges zero_slot_scan i file (FindFooterSplit file) 0 (splits file) in
        IssueRanges_from zero_slot_scan add_status (S i) rest
          (footer_ranges ++ ranges) (done + completed)
  end.

(** [IssueInitialRanges(scan_node, files)]; [zero_slot_scan] is
    [scan_node->IsZeroSlotTableScan()] and [add_status] the status of
    [scan_node->AddDiskIoRanges]. *)
Definition IssueInitialRanges (zero_slot_scan : bool) (add_status : Status)
    (files : list HdfsFileDesc) : Issued :=
  IssueRanges_from zero_slot_scan add_status 0 files [] 0.

(** The splits that a list of ranges was issued for: pairs of the position
    of the file and the position of the split in it. *)
Definition issued_for (ranges : list FooterRange) : list (nat * nat) :=
  map (fun fr => (file_idx fr, split_idx fr)) ranges.

(** All splits of the files from position [i] on, and their footer
    splits. *)
Fixpoint all_splits (i : nat) (files : list HdfsFileDesc) : list (nat * nat) :=
  match files with
  | [] => []
  | file :: rest =>
      map (pair i) (seq 0 (length (splits file))) ++ all_splits (S i) rest
  end.

Fixpoint footer_splits (i : nat) (files : list HdfsFileDesc) : list (nat * nat) :=
  match files with
  | [] => []
  | file :: rest =>
      match FindFooterSplit file with
      | Some k => [(i, k)]
      | None => []
      end ++ footer_splits (S i) rest
  end.

(** A footer range covers the last [min(FOOTER_SIZE, file_length)] bytes
    of a file, which are at least 12. *)
Definition at_end_of (file : HdfsFileDesc) (fr : FooterRange) : Prop :=
  range_len fr = Z.min FOOTER_SIZE (file_length file) /\
  12 <= range_len fr /\ 0 <= range_offset fr /\
  range_offset fr + range_len fr = file_length file.

(** A file of 1_000_000 bytes in two splits, and a file of 50 bytes in one. *)
Definition sample_files : list HdfsFileDesc :=
  [mkHdfsFileDesc 1000000
     [mkScanRange 0 600000 3 true true; mkScanRange 600000 400000 5 false true];
   mkHdfsFileDesc 50 [mkScanRange 0 50 1 false false]].

End InitialRanges.

(** ** The schema tree: [CreateSchemaTree] *)

Module SchemaTree.

(** [parquet::ConvertedType], of which the scanner names DECIMAL. *)
Inductive ConvertedType : Type := DECIMAL | OTHER_CONVERTED_TYPE (tag : Z).

(** Modelled from the spec: [parquet::SchemaElement] (parquet_types.h) is
    not among the sources; "element: raw schema entry (name, physical type,
    repetition type, optional converted-type, optional
    type-length/scale/precision, child-count)".  An optional field that is
    not set is [None]. *)
Record SchemaElement : Type := mkSchemaElement {
  name : string;
  type : Schema.ParquetType;
  type_length : option Z;
  repetition_type : Schema.FieldRepetitionType;
  num_children : Z;
  converted_type : option ConvertedType;
  scale : option Z;
  precision : option Z
}.

(** Modelled from the spec: [struct SchemaNode] is declared in
    hdfs-parquet-scanner.h, which is not among the sources; "element",
    "children: ordered sequence of SchemaNode (empty for leaves)", "col_idx:
    for leaves, 0-based index into the flat column list of each row group;
    -1 for internal nodes", "max_def_level, max_rep_level",
    "def_level_of_immediate_repeated_ancestor". *)
Inductive SchemaNode : Type :=
| mkSchemaNode (element : SchemaElement) (children : list SchemaNode)
    (col_idx max_def_level max_rep_level
     def_level_of_immediate_repeated_ancestor : Z).

Definition element (n : SchemaNode) : SchemaElement :=
  match n with mkSchemaNode e _ _ _ _ _ => e end.

Definition children (n : SchemaNode) : list SchemaNode :=
  match n with mkSchemaNode _ c _ _ _ _ => c end.

Definition col_idx (n : SchemaNode) : Z :=
  match n with mkSchemaNode _ _ i _ _ _ => i end.

Definition max_def_level (n : SchemaNode) : Z :=
  match n with mkSchemaNode _ _ _ d _ _ => d end.

Definition max_rep_level (n : SchemaNode) : Z :=
  match n with mkSchemaNode _ _ _ _ r _ => r end.

Definition def_level_of_immediate_repeated_ancestor (n : SchemaNode) : Z :=
  match n with mkSchemaNode _ _ _ _ _ a => a end.

(** [SchemaNode::is_repeated()] *)
Definition is_repeated (n : SchemaNode) : bool :=
  match repetition_type (element n) with Schema.REPEATED => true | _ => false end.

(** A function returns a value, returns an error status, or ends in the
    exception of [vector::resize] with a size beyond [max_size()]. *)
Inductive Result (A : Type) : Type :=
| Built (a : A)
| Failed (s : Status)
| Throws.

Arguments Built {A} _.
Arguments Failed {A} _.
Arguments Throws {A}.

Definition corrupt_schema : Status :=
  Error GENERAL
    "File corrupt: could not reconstruct schema tree from flattened schema in file metadata".

(** The loop [for (int i = 0; i < num_children; ++i)] over the children of
    a node; [build] is the recursive call with the levels of the node. *)
Fixpoint CreateChildren (build : Z -> Z -> option (Result (SchemaNode * Z * Z)))
    (n : nat) (idx col_idx : Z) : option (Result (list SchemaNode * Z * Z)) :=
  match n with
  | O => Some (Built ([], idx, col_idx))
  | S n' =>
      match build idx col_idx with
      | None => None
      | Some (Failed s) => Some (Failed s)
      | Some Throws => Some Throws
      | Some (Built (child, idx, col_idx)) =>
          match CreateChildren build n' idx col_idx with
          | Some (Built (rest, idx, col_idx)) => Some (Built (child :: rest, idx, col_idx))
          | other => other
          end
      end
  end.

(** [CreateSchemaTree(schema, max_def_level, max_rep_level, ira_def_level,
    idx, col_idx, node)]: the node and the values of [*idx] and [*col_idx]
    afterwards.  Each call takes one element of [schema] or fails, so the
    depth of the calls is at most the number of elements; [fuel] bounds the
    depth, and [None] means that it ran out.  [*idx >= schema.size()]
    compares an [int] with a [size_t]. *)
Fixpoint CreateSchemaTree_at (fuel : nat) (schema : list SchemaElement)
    (max_def_level max_rep_level ira_def_level idx col_idx : Z)
  : option (Result (SchemaNode * Z * Z)) :=
  match fuel with
  | O => None
  | S fuel' =>
      match
        if (idx <? 0) || (idx >=? Z.of_nat (length schema)) then None
        else nth_error schema (Z.to_nat idx)
      with
      | None => Some (Failed corrupt_schema)
      | Some element =>
          let idx := idx + 1 in
          let is_leaf := num_children element =? 0 in
          let node_col_idx := if is_leaf then col_idx else -1 in
          let col_idx := if is_leaf then col_idx + 1 else col_idx in
          let node_ira_def_level := ira_def_level in
          let '(max_def_level, max_rep_level, ira_def_level) :=
            match repetition_type element with
            | Schema.OPTIONAL => (max_def_level + 1, max_rep_level, ira_def_level)
            | Schema.REPEATED =>
                (max_def_level + 1, max_rep_level + 1, max_def_level + 1)
            | Schema.REQUIRED => (max_def_level, max_rep_level, ira_def_level)
            end in
          if num_children element <? 0 then Some Throws
          else
            match
              CreateChildren
                (CreateSchemaTree_at fuel' schema max_def_level max_rep_level
                   ira_def_level)
                (Z.to_nat (num_children element)) idx col_idx
            with
            | None => None
            | Some (Failed s) => Some (Failed s)
            | Some Throws => Some Throws
            | Some (Built (children, idx, col_idx)) =>
                Some (Built (mkSchemaNode element children node_col_idx max_def_level
                               max_rep_level node_ira_def_level,
                             idx, col_idx))
            end
      end
  end.

(** [CreateSchemaTree(schema, node)] *)
Definition CreateSchemaTree (schema : list SchemaElement) : option (Result SchemaNode) :=
  match CreateSchemaTree_at (S (length schema)) schema 0 0 0 0 0 with
  | None => None
  | Some (Built (node, _, _)) => Some (Built node)
  | Some (Failed s) => Some (Failed s)
  | Some Throws => Some Throws
  end.

(** The elements of a tree in the order of the flattened schema, all its
    nodes in this order, and its leaves. *)
Fixpoint flatten (n : SchemaNode) : list SchemaElement :=
  match n with
  | mkSchemaNode e c _ _ _ _ => e :: flat_map flatten c
  end.

Fixpoint nodes (n : SchemaNode) : list SchemaNode :=
  n :: match n with
       | mkSchemaNode _ c _ _ _ _ => flat_map nodes c
       end.

Definition is_leaf (n : SchemaNode) : bool :=
  match children n with [] => true | _ => false end.

Definition leaves (n : SchemaNode) : list SchemaNode := filter is_leaf (nodes n).

(** What a successful call has built, in terms of the position [idx] and
    the column counter [col] it started from. *)
Definition built_from (schema : list SchemaElement) (idx col : Z)
    (node : SchemaNode) (idx' col' : Z) : Prop :=
  0 <= idx /\ idx' <= Z.of_nat (length schema) /\
  idx' = idx + Z.of_nat (length (flatten node)) /\
  firstn (Z.to_nat idx') schema = firstn (Z.to_nat idx) schema ++ flatten node /\
  col' = col + Z.of_nat (length (leaves node)) /\
  (forall k leaf, nth_error (leaves node) k = Some leaf ->
                  col_idx leaf = col + Z.of_nat k) /\
  Forall (fun m => num_children (element m) = Z.of_nat (length (children m)) /\
                   (is_leaf m = false -> col_idx m = -1)) (nodes node).

Definition children_built_from (schema : list SchemaElement) (idx col : Z)
    (cs : list SchemaNode) (idx' col' : Z) : Prop :=
  idx <= idx' /\ (0 <= idx -> idx' <= Z.of_nat (length schema) \/ cs = []) /\
  idx' = idx + Z.of_nat (length (flat_map flatten cs)) /\
  firstn (Z.to_nat idx') schema = firstn (Z.to_nat idx) schema ++ flat_map flatten cs /\
  col' = col + Z.of_nat (length (flat_map leaves cs)) /\
  (forall k leaf, nth_error (flat_map leaves cs) k = Some leaf ->
                  col_idx leaf = col + Z.of_nat k) /\
  Forall (fun m => num_children (element m) = Z.of_nat (length (children m)) /\
                   (is_leaf m = false -> col_idx m = -1)) (flat_map nodes cs).

(** What a node adds to the levels of its parent: an OPTIONAL or REPEATED
    node adds a definition level, a REPEATED node a repetition level. *)
Definition def_step (e : SchemaElement) : Z :=
  match repetition_type e with Schema.REQUIRED => 0 | _ => 1 end.

Definition rep_step (e : SchemaElement) : Z :=
  match repetition_type e with Schema.REPEATED => 1 | _ => 0 end.

(** The levels of a child [c] of the node [m]. *)
Definition edge_levels (m c : SchemaNode) : Prop :=
  def_level_of_immediate_repeated_ancestor c
    = (if is_repeated m then max_def_level m
       else def_level_of_immediate_repeated_ancestor m) /\
  max_def_level c = max_def_level m + def_step (element c) /\
  max_rep_level c = max_rep_level m + rep_step (element c).

(** The levels of a node are within bounds, and its children have the
    levels of [edge_levels]. *)
Definition levels_ok (m : SchemaNode) : Prop :=
  0 <= def_level_of_immediate_repeated_ancestor m <= max_def_level m /\
  0 <= max_rep_level m <= max_def_level m /\
  Forall (edge_levels m) (children m).

(** A schema element by its name, repetition type and number of children. *)
Definition field (name : string) (repetition_type : Schema.FieldRepetitionType)
    (num_children : Z) : SchemaElement :=
  mkSchemaElement name Schema.INT32 None repetition_type num_children None None None.

(** The flattened schema of a table [(id INT, tags ARRAY<INT>)] with the
    array in the three-level encoding. *)
Definition sample_flat_schema : list SchemaElement :=
  [field "schema" Schema.REQUIRED 2;
   field "id" Schema.OPTIONAL 0;
   field "tags" Schema.OPTIONAL 1;
   field "list" Schema.REPEATED 1;
   field "element" Schema.OPTIONAL 0].

End SchemaTree.

(** ** The level cache over a column's pages *)

Module LevelCache.

Import Level.

(** The states of a level decoder of a column with maximum level
    [max_level] that uses the cache: [Init] on a new decoder, [Init] again
    for the next page, [CacheNextBatch] for at most [cache_size_] levels with
    status OK, and [CacheGetNext] while [CacheHasNext] holds. *)
Inductive cache_run (max_level : Z) : LevelDecoder -> Prop :=
| run_Init (is_def_level_decoder : bool) (encoding : Encoding) (allocated : bool)
    (cache_size num_buffered_values : Z) (data data' : list Z) (d : LevelDecoder) :
    Init encoding allocated cache_size max_level num_buffered_values data
      (new_decoder is_def_level_decoder) = (OK, d, data') ->
    cache_run max_level d
| run_next_page (d0 : LevelDecoder) (encoding : Encoding) (allocated : bool)
    (num_buffered_values : Z) (data data' : list Z) (d : LevelDecoder) :
    cache_run max_level d0 ->
    Init encoding allocated (cache_size_ d0) max_level num_buffered_values data d0
      = (OK, d, data') ->
    cache_run max_level d
| run_CacheNextBatch (d0 : LevelDecoder) (batch_size : Z) (d : LevelDecoder) :
    cache_run max_level d0 ->
    0 <= batch_size <= cache_size_ d0 ->
    CacheNextBatch batch_size d0 = Some (OK, d) ->
    cache_run max_level d
| run_CacheGetNext (d0 : LevelDecoder) :
    cache_run max_level d0 ->
    CacheHasNext d0 = true ->
    cache_run max_level (snd (CacheGetNext d0)).

(** [n] calls of [CacheGetNext]: the levels and the decoder afterwards. *)
Fixpoint CacheGetNexts (n : nat) (d : LevelDecoder) : list Z * LevelDecoder :=
  match n with
  | O => ([], d)
  | S n' =>
      let '(level, d) := CacheGetNext d in
      let '(levels, d) := CacheGetNexts n' d in
      (level :: levels, d)
  end.

End LevelCache.

(** ** The splits of a file *)

Module SplitTiling.

(** The splits [(offset, length)] follow one another without gap or overlap
    from [from] to [to]. *)
Fixpoint tiles (from : Z) (splits : list (Z * Z)) (to : Z) : Prop :=
  match splits with
  | [] => from = to
  | (offset, len) :: rest => offset = from /\ 0 <= len /\ tiles (from + len) rest to
  end.

End SplitTiling.

(** ** The counters of the runtime filters *)

Module FilterCounters.

Import Filter.

(** The counters of a filter are in order, and [room] more rows can be
    counted without leaving [int64_t]. *)
Definition counters_ok (room : Z) (st : LocalFilterStats) : Prop :=
  0 <= rejected st <= considered st /\
  considered st <= total_possible st /\
  total_possible st + room < 2 ^ 63.

(** From [st] to [st'] the counters have not gone down, [total_possible] has
    grown by at most [n], and the filter has not been enabled. *)
Definition grown (n : Z) (st st' : LocalFilterStats) : Prop :=
  rejected st <= rejected st' /\
  considered st <= considered st' /\
  total_possible st <= total_possible st' <= total_possible st + n /\
  (enabled st' = true -> enabled st = true).

End FilterCounters.

(* ================================================================== *)
(** * Part II: properties *)
(* ================================================================== *)

(** ** MinMaxVal setters *)

Section MinMaxValFacts.

Context {numtype : Type}.
Import MinMaxValue.

Lemma SetMin_unchanged (o : MinMaxVal numtype) (x : numtype) : SetMin o x = o.
Proof. reflexivity. Qed.

Lemma SetMax_unchanged (o : MinMaxVal numtype) (x : numtype) : SetMax o x = o.
Proof. reflexivity. Qed.

Lemma SetMinMax_unchanged (o : MinMaxVal numtype) (x y : numtype) :
  SetMinMax o x y = o.
Proof. reflexivity. Qed.

Lemma construct_fields (a b : numtype) :
  min (construct a b) = a /\ max (construct a b) = b.
Proof. split; reflexivity. Qed.

Lemma assign_copies (o other : MinMaxVal numtype) : assign o other = other.
Proof. destruct other; reflexivity. Qed.

(** C10: SetMin, SetMax and SetMinMax leave both fields of the object as
    they were, whatever the arguments; among the member functions only the
    constructor and the assignment operator give an object its bounds: a
    call that changes the object is an assignment, and the object then
    equals the assigned one. *)
Theorem C10_setters_are_noops :
  (forall (o : MinMaxVal numtype) (x : numtype),
      min (SetMin o x) = min o /\ max (SetMin o x) = max o) /\
  (forall (o : MinMaxVal numtype) (x : numtype),
      min (SetMax o x) = min o /\ max (SetMax o x) = max o) /\
  (forall (o : MinMaxVal numtype) (x y : numtype),
      min (SetMinMax o x y) = min o /\ max (SetMinMax o x y) = max o) /\
  (forall a b : numtype, min (construct a b) = a /\ max (construct a b) = b) /\
  (forall (m : mutator numtype) (o : MinMaxVal numtype),
      call m o = o \/ exists other, m = CallAssign other /\ call m o = other).
Proof.
  repeat split.
  intros m o. destruct m as [a|a|a b|other]; simpl.
  - left. apply SetMin_unchanged.
  - left. apply SetMax_unchanged.
  - left. apply SetMinMax_unchanged.
  - right. exists other. split; [reflexivity | apply assign_copies].
Qed.

End MinMaxValFacts.

(** ** CHAR conversion *)

Section CharSlotFacts.

Import CharSlot.

Lemma memcpy_length (dst src : list byte) (n : Z) :
  (Z.to_nat n <= length src)%nat -> (Z.to_nat n <= length dst)%nat ->
  length (memcpy dst src n) = length dst.
Proof.
  intros Hs Hd. unfold memcpy.
  rewrite length_app, length_firstn, length_skipn. lia.
Qed.

Lemma firstn_memcpy (dst src : list byte) (n : Z) :
  (Z.to_nat n <= length src)%nat ->
  firstn (Z.to_nat n) (memcpy dst src n) = firstn (Z.to_nat n) src.
Proof.
  intros Hs. unfold memcpy.
  rewrite firstn_app, length_firstn.
  replace (Z.to_nat n - Nat.min (Z.to_nat n) (length src))%nat with 0%nat by lia.
  rewrite firstn_firstn, Nat.min_id. simpl. apply app_nil_r.
Qed.

Lemma firstn_two_parts (a b c : list byte) (n : nat) :
  n = (length a + length b)%nat -> firstn n (a ++ b ++ c) = a ++ b.
Proof.
  intros ->. rewrite app_assoc, <- length_app.
  rewrite firstn_app, firstn_all, Nat.sub_diag. simpl. apply app_nil_r.
Qed.

Lemma PadWithSpaces_prefix (cptr : list byte) (cptr_len num_chars : Z) :
  0 <= num_chars <= cptr_len ->
  (Z.to_nat num_chars <= length cptr)%nat ->
  firstn (Z.to_nat cptr_len) (PadWithSpaces cptr cptr_len num_chars) =
    firstn (Z.to_nat num_chars) cptr
      ++ repeat space (Z.to_nat (cptr_len - num_chars)).
Proof.
  intros Hn Hc. unfold PadWithSpaces. apply firstn_two_parts.
  rewrite length_firstn, repeat_length. lia.
Qed.

(** What [ConvertSlot] leaves in the slot, for a target buffer that holds
    at least [len] bytes. *)
Lemma ConvertSlot_value (len : Z) (is_var_len : bool) (src dst buf : list byte)
    (TryAllocate : Z -> option (list byte)) :
  0 <= len ->
  (if is_var_len then TryAllocate len else Some dst) = Some buf ->
  (Z.to_nat len <= length buf)%nat ->
  ConvertSlot len is_var_len src dst TryAllocate =
    Some (firstn (Z.to_nat len) src
            ++ repeat space (Z.to_nat len - length src)).
Proof.
  intros Hlen Hbuf Hsz. unfold ConvertSlot. rewrite Hbuf. f_equal.
  set (u := Z.min len (Z.of_nat (length src))).
  assert (Hu : Z.to_nat u = Nat.min (Z.to_nat len) (length src)) by (unfold u; lia).
  rewrite PadWithSpaces_prefix.
  - rewrite firstn_memcpy by lia. f_equal.
    + rewrite Hu. rewrite <- firstn_firstn.
      rewrite (firstn_all2 (n := length src)) by lia. reflexivity.
    + f_equal. lia.
  - unfold u. lia.
  - rewrite memcpy_length; lia.
Qed.

Lemma ConvertSlot_alloc_failure (len : Z) (src dst : list byte)
    (TryAllocate : Z -> option (list byte)) :
  TryAllocate len = None ->
  ConvertSlot len true src dst TryAllocate = None.
Proof. intros H. unfold ConvertSlot. rewrite H. reflexivity. Qed.

(** C7: a source string converted into a CHAR(n) slot gives exactly n bytes:
    the source followed by ASCII spaces up to length n when the source is
    shorter than n, and the first n bytes of the source when it is longer.
    The conversion writes into the slot itself, or into a buffer of n bytes
    obtained from the pool for a variable-length CHAR. *)
Theorem C7_char_pad_or_truncate
    (n : Z) (is_var_len : bool) (src dst buf : list byte)
    (TryAllocate : Z -> option (list byte)) :
  0 <= n ->
  (if is_var_len then TryAllocate n else Some dst) = Some buf ->
  (Z.to_nat n <= length buf)%nat ->
  exists v,
    ConvertSlot n is_var_len src dst TryAllocate = Some v /\
    Z.of_nat (length v) = n /\
    (Z.of_nat (length src) <= n ->
       v = src ++ repeat space (Z.to_nat n - length src)) /\
    (n <= Z.of_nat (length src) -> v = firstn (Z.to_nat n) src).
Proof.
  intros Hn Hbuf Hsz.
  exists (firstn (Z.to_nat n) src ++ repeat space (Z.to_nat n - length src)).
  split; [ now apply ConvertSlot_value with (buf := buf) | ].
  split; [ rewrite length_app, length_firstn, repeat_length; lia | ].
  split; intros H.
  - rewrite firstn_all2 by lia. reflexivity.
  - replace (Z.to_nat n - length src)%nat with 0%nat by lia.
    simpl. apply app_nil_r.
Qed.

(** "ab" and "abcdef" read into a CHAR(5) slot stored in the tuple. *)
Lemma C7_char_witness :
  ConvertSlot 5 false [x61; x62] [x00; x00; x00; x00; x00] (fun _ => None)
    = Some [x61; x62; x20; x20; x20] /\
  ConvertSlot 5 false [x61; x62; x63; x64; x65; x66] [x00; x00; x00; x00; x00]
      (fun _ => None)
    = Some [x61; x62; x63; x64; x65].
Proof.
  split.
  - destruct (C7_char_pad_or_truncate 5 false [x61; x62]
                [x00; x00; x00; x00; x00] [x00; x00; x00; x00; x00] (fun _ => None))
      as [v [Hv [_ [Hshort _]]]]; [lia | reflexivity | simpl; lia | ].
    rewrite Hv, Hshort by (simpl; lia). reflexivity.
  - destruct (C7_char_pad_or_truncate 5 false [x61; x62; x63; x64; x65; x66]
                [x00; x00; x00; x00; x00] [x00; x00; x00; x00; x00] (fun _ => None))
      as [v [Hv [_ [_ Hlong]]]]; [lia | reflexivity | simpl; lia | ].
    rewrite Hv, Hlong by (simpl; lia). reflexivity.
Defined.

End CharSlotFacts.

(** ** FileVersion *)

Section FileVersionFacts.

Import FileVersion.
Local Open Scope string_scope.

Ltac ascii_cases c :=
  destruct c as [[] [] [] [] [] [] [] []]; try reflexivity; try discriminate.

Lemma tolower_keeps_space_class (c : ascii) :
  is_any_of " " (tolower c) = is_any_of " " c.
Proof. ascii_cases c. Qed.

Lemma transform_append (f : ascii -> ascii) (a b : string) :
  transform f (a ++ b) = transform f a ++ transform f b.
Proof. induction a as [|c a IH]; simpl; [reflexivity | now rewrite IH]. Qed.

Lemma transform_not_space (a : string) :
  all_chars not_space a = true ->
  all_chars not_space (transform tolower a) = true.
Proof.
  induction a as [|c a IH]; simpl; [reflexivity|].
  intros H. apply andb_true_iff in H as [Hc Ha].
  unfold not_space in *. rewrite tolower_keeps_space_class, Hc. simpl. auto.
Qed.

Lemma tolower_fixes_version_char (c : ascii) :
  version_char c = true -> tolower c = c.
Proof. ascii_cases c. Qed.

Lemma transform_version_chars (a : string) :
  all_chars version_char a = true -> transform tolower a = a.
Proof.
  induction a as [|c a IH]; simpl; [reflexivity|].
  intros H. apply andb_true_iff in H as [Hc Ha].
  now rewrite tolower_fixes_version_char, IH.
Qed.

Lemma split_from_not_nil is_sep cmp b s : split_from is_sep cmp b s <> [].
Proof.
  revert b. induction s as [|c s IH]; intros b; simpl; [discriminate|].
  destruct (is_sep c).
  - destruct (cmp && b); [apply IH | discriminate].
  - destruct (split_from is_sep cmp false s); discriminate.
Qed.

(** A token without separators, then a separator. *)
Lemma split_from_token_sep is_sep cmp (tok : string) (c : ascii) (s : string) :
  all_chars (fun d => negb (is_sep d)) tok = true ->
  is_sep c = true ->
  split_from is_sep cmp false (tok ++ String c s)
    = tok :: split_from is_sep cmp true s.
Proof.
  intros Htok Hc. induction tok as [|d tok IH]; simpl.
  - rewrite Hc, andb_false_r. reflexivity.
  - simpl in Htok. apply andb_true_iff in Htok as [Hd Htok].
    apply negb_true_iff in Hd. rewrite Hd, (IH Htok). reflexivity.
Qed.

(** After a separator, a token that starts with another character. *)
Lemma split_from_after_sep is_sep cmp (d : ascii) (s : string) :
  is_sep d = false ->
  split_from is_sep cmp true (String d s) = split_from is_sep cmp false (String d s).
Proof. intros Hd. simpl. rewrite Hd. reflexivity. Qed.

(** The last token. *)
Lemma split_from_last is_sep cmp b (tok : string) :
  all_chars (fun d => negb (is_sep d)) tok = true ->
  split_from is_sep cmp b tok = [tok].
Proof.
  revert b. induction tok as [|d tok IH]; intros b Htok; simpl; [reflexivity|].
  simpl in Htok. apply andb_true_iff in Htok as [Hd Htok].
  apply negb_true_iff in Hd. rewrite Hd, (IH false Htok). reflexivity.
Qed.

Lemma all_chars_append p (a b : string) :
  all_chars p (a ++ b) = all_chars p a && all_chars p b.
Proof. induction a as [|c a IH]; simpl; [reflexivity | now rewrite IH, andb_assoc]. Qed.

Lemma all_chars_weaken (p q : ascii -> bool) (a : string) :
  (forall c, p c = true -> q c = true) ->
  all_chars p a = true -> all_chars q a = true.
Proof.
  intros Hpq. induction a as [|c a IH]; simpl; [reflexivity|].
  intros H. apply andb_true_iff in H as [Hc Ha]. rewrite (Hpq c Hc). auto.
Qed.

(** The tokens of ["<app> version <vtok>"]. *)
Lemma tokens_of_created_by (app vtok : string) :
  all_chars not_space app = true ->
  all_chars not_space vtok = true ->
  split (is_any_of " ") true (app ++ " version " ++ vtok)
    = [app; "version"; vtok].
Proof.
  intros Happ Hv. unfold split.
  change (app ++ " version " ++ vtok)
    with (app ++ String " " ("version" ++ String " " vtok)).
  rewrite split_from_token_sep by (exact Happ || reflexivity).
  change ("version" ++ String " " vtok)
    with (String "v" ("ersion" ++ String " " vtok)).
  rewrite split_from_after_sep by reflexivity.
  change (String "v" ("ersion" ++ String " " vtok))
    with ("version" ++ String " " vtok).
  rewrite split_from_token_sep by reflexivity.
  rewrite split_from_last by exact Hv. reflexivity.
Qed.

Lemma find_first_not_of_lower_bound set s : -1 <= find_first_not_of set s.
Proof.
  induction s as [|c s IH]; simpl; [lia|].
  destruct (is_any_of set c); [|lia].
  destruct (find_first_not_of set s <? 0)%Z eqn:E; lia.
Qed.

Lemma find_first_not_of_cons set (c : ascii) (s : string) :
  find_first_not_of set (String c s)
    = if is_any_of set c
      then (if (find_first_not_of set s <? 0)%Z then -1
            else find_first_not_of set s + 1)
      else 0.
Proof. reflexivity. Qed.

(** Cutting at the first character that is neither a digit nor a dot. *)
Lemma substr0_find_first_not_of (v suf : string) :
  all_chars version_char v = true ->
  starts_outside version_char suf = true ->
  substr0 (v ++ suf) (find_first_not_of "0123456789." (v ++ suf)) = v.
Proof.
  intros Hv Hsuf. induction v as [|c v IH].
  - simpl. destruct suf as [|d suf]; [reflexivity|].
    simpl in Hsuf. apply negb_true_iff in Hsuf.
    unfold version_char in Hsuf. rewrite find_first_not_of_cons, Hsuf.
    reflexivity.
  - simpl in Hv. apply andb_true_iff in Hv as [Hc Hv]. specialize (IH Hv).
    unfold version_char in Hc.
    change ((String c v) ++ suf) with (String c (v ++ suf)).
    rewrite find_first_not_of_cons, Hc.
    pose proof (find_first_not_of_lower_bound "0123456789." (v ++ suf)) as Hlb.
    unfold substr0 in *.
    destruct (find_first_not_of "0123456789." (v ++ suf) <? 0)%Z eqn:E.
    + simpl. now rewrite IH.
    + apply Z.ltb_ge in E.
      replace (find_first_not_of "0123456789." (v ++ suf) + 1 <? 0)%Z with false
        by (symmetry; apply Z.ltb_ge; lia).
      rewrite Z2Nat.inj_add by lia. rewrite Nat.add_1_r. simpl take.
      now rewrite IH.
Qed.

Lemma digits_of_uint (d : Decimal.uint) :
  all_chars isdigit (NilEmpty.string_of_uint d) = true.
Proof. induction d; simpl; auto. Qed.

Lemma atoi_digits_of_uint (d : Decimal.uint) (acc : nat) :
  atoi_digits (NilEmpty.string_of_uint d) (Z.of_nat acc)
    = Z.of_nat (Nat.of_uint_acc d acc).
Proof.
  revert acc. induction d; intros acc; [reflexivity| ..];
    cbn [NilEmpty.string_of_uint atoi_digits Nat.of_uint_acc];
    match goal with |- context [isdigit ?c] => change (isdigit c) with true end;
    cbv iota; rewrite <- IHd; f_equal; rewrite Nat.tail_mul_spec;
    match goal with
    | |- context [Z.of_nat (nat_of_ascii ?c - 48)] =>
        set (k := Z.of_nat (nat_of_ascii c - 48)); vm_compute in k; subst k
    end; lia.
Qed.

Lemma atoi_number_of_uint (d : Decimal.uint) :
  atoi_number (NilEmpty.string_of_uint d) = atoi_digits (NilEmpty.string_of_uint d) 0.
Proof. destruct d; reflexivity. Qed.

Lemma atoi_number_decimal (n : nat) : atoi_number (decimal n) = Z.of_nat n.
Proof.
  unfold decimal. rewrite atoi_number_of_uint.
  change 0 with (Z.of_nat 0). rewrite atoi_digits_of_uint.
  change (Nat.of_uint_acc (Nat.to_uint n) 0) with (Nat.of_uint (Nat.to_uint n)).
  now rewrite DecimalNat.Unsigned.of_to.
Qed.

(** [atoi] reads a decimal numeral back when the number fits an [int]. *)
Lemma atoi_decimal (n : nat) :
  (Z.of_nat n < 2 ^ 31)%Z -> atoi (decimal n) = Some (Z.of_nat n).
Proof.
  intros Hn. unfold atoi. rewrite atoi_number_decimal. cbv zeta.
  replace (- 2 ^ 31 <=? Z.of_nat n)%Z with true by (symmetry; apply Z.leb_le; lia).
  replace (Z.of_nat n <? 2 ^ 31)%Z with true by (symmetry; now apply Z.ltb_lt).
  reflexivity.
Qed.

Lemma decimal_not_empty (n : nat) : decimal n <> EmptyString.
Proof.
  unfold decimal.
  assert (Hnorm : Nat.to_uint n = Decimal.unorm (Nat.to_uint n)).
  { rewrite <- DecimalNat.Unsigned.to_of. now rewrite DecimalNat.Unsigned.of_to. }
  pose proof (DecimalFacts.unorm_nonnil (Nat.to_uint n)) as Hnil.
  rewrite <- Hnorm in Hnil.
  destruct (Nat.to_uint n); [contradiction| ..]; discriminate.
Qed.

Lemma digit_is_version_char (c : ascii) : isdigit c = true -> version_char c = true.
Proof. ascii_cases c. Qed.

Lemma digit_is_not_dot (c : ascii) :
  isdigit c = true -> negb (is_any_of "." c) = true.
Proof. ascii_cases c. Qed.

Lemma decimal_digits (n : nat) : all_chars isdigit (decimal n) = true.
Proof. apply digits_of_uint. Qed.

Lemma decimal_no_dot (n : nat) :
  all_chars (fun d => negb (is_any_of "." d)) (decimal n) = true.
Proof.
  apply all_chars_weaken with (p := isdigit);
    [apply digit_is_not_dot | apply decimal_digits].
Qed.

(** Without [token_compress_on] a separator before the input makes no
    difference. *)
Lemma split_from_no_compress is_sep (b : bool) (s : string) :
  split_from is_sep false b s = split_from is_sep false false s.
Proof. destruct s as [|c s]; reflexivity. Qed.

Lemma dotted_cons (n m : nat) (ns : list nat) :
  dotted (n :: m :: ns) = decimal n ++ String "." (dotted (m :: ns)).
Proof. reflexivity. Qed.

(** The parts of ["n1.n2. ... .nk"]. *)
Lemma split_dotted (ns : list nat) :
  ns <> [] -> split (is_any_of ".") false (dotted ns) = map decimal ns.
Proof.
  induction ns as [|n ns IH]; [contradiction|]. intros _.
  destruct ns as [|m ns].
  - cbn [dotted map]. unfold split. apply split_from_last, decimal_no_dot.
  - rewrite dotted_cons. unfold split.
    rewrite split_from_token_sep by (apply decimal_no_dot || reflexivity).
    rewrite split_from_no_compress. fold (split (is_any_of ".") false (dotted (m :: ns))).
    rewrite IH by discriminate. reflexivity.
Qed.

Lemma append_assoc' (a b c : string) : (a ++ b) ++ c = a ++ (b ++ c).
Proof. induction a as [|x a IH]; simpl; [reflexivity | now rewrite IH]. Qed.

Lemma tolower_keeps_version_class (c : ascii) :
  version_char (tolower c) = version_char c.
Proof. ascii_cases c. Qed.

Lemma version_char_not_space (c : ascii) :
  version_char c = true -> not_space c = true.
Proof. ascii_cases c. Qed.

Lemma transform_starts_outside (s : string) :
  starts_outside version_char s = true ->
  starts_outside version_char (transform tolower s) = true.
Proof.
  destruct s as [|c s]; simpl; [reflexivity|].
  now rewrite tolower_keeps_version_class.
Qed.

Lemma prefix_internal_version_char (c : ascii) (s : string) :
  version_char c = true -> prefix "-internal" (String c s) = false.
Proof.
  revert s. destruct c as [[] [] [] [] [] [] [] []]; intros s H;
    try discriminate H; reflexivity.
Qed.

Lemma contains_cons needle (c : ascii) (s : string) :
  contains needle (String c s) = prefix needle (String c s) || contains needle s.
Proof. reflexivity. Qed.

(** A run of digits and dots cannot hold the start of ["-internal"]. *)
Lemma contains_internal_skip (v s : string) :
  all_chars version_char v = true ->
  contains "-internal" (v ++ s) = contains "-internal" s.
Proof.
  induction v as [|c v IH]; intros Hv; [reflexivity|].
  simpl in Hv. apply andb_true_iff in Hv as [Hc Hv].
  change (String c v ++ s) with (String c (v ++ s)).
  rewrite contains_cons, prefix_internal_version_char by exact Hc.
  simpl. auto.
Qed.

Lemma decimal_version_chars (n : nat) : all_chars version_char (decimal n) = true.
Proof.
  apply all_chars_weaken with (p := isdigit);
    [apply digit_is_version_char | apply decimal_digits].
Qed.

Lemma dotted_version_chars (ns : list nat) :
  all_chars version_char (dotted ns) = true.
Proof.
  induction ns as [|n ns IH]; [reflexivity|].
  destruct ns as [|m ns]; [apply decimal_version_chars|].
  rewrite dotted_cons, all_chars_append, decimal_version_chars.
  cbn [all_chars andb]. exact IH.
Qed.

Lemma dotted_not_empty (ns : list nat) : ns <> [] -> dotted ns <> EmptyString.
Proof.
  destruct ns as [|n [|m ns]]; [contradiction| |]; intros _.
  - apply decimal_not_empty.
  - rewrite dotted_cons. pose proof (decimal_not_empty n) as Hn.
    destruct (decimal n); [contradiction | discriminate].
Qed.

(** Part [i] of the version, as the constructor reads it from the tokens of
    ["n1.n2. ... .nk"]: the number, and 0 for a part that is missing. *)
Lemma version_part (ns : list nat) (i : nat) :
  (i < 3)%nat ->
  Forall (fun n => (Z.of_nat n < 2 ^ 31)%Z) (firstn 3 ns) ->
  (if (i + 1 <=? length (split (is_any_of ".") false (dotted ns)))%nat
   then atoi (nth i (split (is_any_of ".") false (dotted ns)) EmptyString)
   else Some 0%Z)
  = Some (Z.of_nat (nth i ns 0%nat)).
Proof.
  intros Hi Hfit.
  destruct ns as [|a ns].
  { destruct i as [|[|[|i]]]; try lia; reflexivity. }
  rewrite split_dotted by discriminate.
  destruct ns as [|b ns]; [|destruct ns as [|c ns]];
    destruct i as [|[|[|i]]]; try lia;
    cbn [firstn] in Hfit; cbn [map length nth Nat.add Nat.leb];
    repeat match goal with
           | H : Forall _ (_ :: _) |- _ => inversion H; subst; clear H
           end;
    try reflexivity; now apply atoi_decimal.
Qed.

(** After a separator: a token and whatever follows the next separator. *)
Lemma split_from_next_token is_sep (tok : string) (c : ascii) (s : string) :
  all_chars (fun d => negb (is_sep d)) tok = true ->
  tok <> EmptyString ->
  is_sep c = true ->
  split_from is_sep true true (tok ++ String c s)
    = tok :: split_from is_sep true true s.
Proof.
  intros Htok Hne Hc. destruct tok as [|d tok]; [contradiction|].
  assert (Hd : is_sep d = false).
  { cbn [all_chars] in Htok. apply andb_true_iff in Htok as [Hd _].
    now apply negb_true_iff in Hd. }
  change (String d tok ++ String c s) with (String d (tok ++ String c s)).
  rewrite split_from_after_sep by exact Hd.
  change (String d (tok ++ String c s)) with (String d tok ++ String c s).
  now apply split_from_token_sep.
Qed.

(** The tokens of ["<app> version <vtok>"] followed by nothing or by a space
    and anything: the third token is [vtok]. *)
Lemma tokens_of_created_by_rest (app vtok rest : string) :
  all_chars not_space app = true ->
  all_chars not_space vtok = true ->
  vtok <> EmptyString ->
  rest = EmptyString \/ (exists rest', rest = String " " rest') ->
  exists more,
    split (is_any_of " ") true (app ++ " version " ++ vtok ++ rest)
      = app :: "version" :: vtok :: more.
Proof.
  intros Happ Hv Hne [->|[rest' ->]].
  - exists []. replace (vtok ++ EmptyString) with vtok.
    + now apply tokens_of_created_by.
    + clear. induction vtok as [|c v IH]; [reflexivity|]. simpl. now rewrite <- IH.
  - exists (split_from (is_any_of " ") true true rest'). unfold split.
    change (app ++ " version " ++ vtok ++ String " " rest')
      with (app ++ String " " ("version" ++ String " " (vtok ++ String " " rest'))).
    rewrite split_from_token_sep by (exact Happ || reflexivity).
    rewrite split_from_next_token by (reflexivity || discriminate).
    now rewrite split_from_next_token by (assumption || reflexivity).
Qed.

(** [FileVersion] reads the version from the third token. *)
Lemma FileVersion_by_tokens (created_by : string) (ns : list nat) (suffix : string) :
  let tokens := split (is_any_of " ") true (transform tolower created_by) in
  (3 <= length tokens)%nat ->
  nth 1 tokens EmptyString = "version" ->
  nth 2 tokens EmptyString = dotted ns ++ suffix ->
  starts_outside version_char suffix = true ->
  Forall (fun n => (Z.of_nat n < 2 ^ 31)%Z) (firstn 3 ns) ->
  FileVersion created_by
    = Some (mk (nth 0 tokens EmptyString)
               (Z.of_nat (nth 0 ns 0%nat)) (Z.of_nat (nth 1 ns 0%nat))
               (Z.of_nat (nth 2 ns 0%nat))
               (String.eqb (nth 0 tokens EmptyString) "impala"
                  && contains "-internal" suffix)).
Proof.
  cbv zeta. intros Hlen Hver Hthird Hout Hfit.
  unfold FileVersion. cbv zeta.
  apply Nat.leb_le in Hlen. rewrite Hlen, Hver, Hthird.
  cbn [andb String.eqb Ascii.eqb Bool.eqb].
  rewrite substr0_find_first_not_of by (apply dotted_version_chars || exact Hout).
  rewrite !version_part by (lia || exact Hfit).
  now rewrite contains_internal_skip by apply dotted_version_chars.
Qed.

(** C8, as the code has it.  FileVersion lowercases created_by and cuts it
    at runs of the space character; the application is the first token; the
    version is 0.0.0 unless there are at least three tokens and the second is
    "version"; in that case the digits-and-dots prefix of the third token is
    read as the version, whatever tokens follow: of a prefix "n1.n2. ... .nk"
    the first three numbers are major, minor and patch (each has to fit an
    int), a missing number counts as 0; and is_impala_internal is set exactly
    when, in addition, the application is "impala" and the third token
    contains "-internal".  On a string "<app> version <n1.n2...><suffix>",
    alone or followed by a space and anything, this gives the lowercased
    application and the version read from the numbers. *)
Theorem C8_file_version (created_by : string) :
  let tokens := split (is_any_of " ") true (transform tolower created_by) in
  (forall v, FileVersion created_by = Some v ->
     application v = nth 0 tokens EmptyString /\
     (is_impala_internal v = true <->
        (3 <= length tokens)%nat /\ nth 1 tokens EmptyString = "version" /\
        nth 0 tokens EmptyString = "impala" /\
        contains "-internal" (nth 2 tokens EmptyString) = true)) /\
  ((length tokens < 3)%nat \/ nth 1 tokens EmptyString <> "version" ->
     FileVersion created_by = Some (mk (nth 0 tokens EmptyString) 0 0 0 false)) /\
  (forall (ns : list nat) (suffix : string),
     (3 <= length tokens)%nat ->
     nth 1 tokens EmptyString = "version" ->
     nth 2 tokens EmptyString = dotted ns ++ suffix ->
     starts_outside version_char suffix = true ->
     Forall (fun n => (Z.of_nat n < 2 ^ 31)%Z) (firstn 3 ns) ->
     FileVersion created_by
       = Some (mk (nth 0 tokens EmptyString)
                  (Z.of_nat (nth 0 ns 0%nat)) (Z.of_nat (nth 1 ns 0%nat))
                  (Z.of_nat (nth 2 ns 0%nat))
                  (String.eqb (nth 0 tokens EmptyString) "impala"
                     && contains "-internal" suffix))) /\
  (forall (app suffix rest : string) (ns : list nat),
     all_chars not_space app = true ->
     all_chars not_space suffix = true ->
     starts_outside version_char suffix = true ->
     ns <> [] ->
     Forall (fun n => (Z.of_nat n < 2 ^ 31)%Z) (firstn 3 ns) ->
     rest = EmptyString \/ (exists rest', rest = String " " rest') ->
     created_by = app ++ " version " ++ (dotted ns ++ suffix) ++ rest ->
     FileVersion created_by
       = Some (mk (transform tolower app)
                  (Z.of_nat (nth 0 ns 0%nat)) (Z.of_nat (nth 1 ns 0%nat))
                  (Z.of_nat (nth 2 ns 0%nat))
                  (String.eqb (transform tolower app) "impala"
                     && contains "-internal" (transform tolower suffix)))).
Proof.
  cbv zeta. split; [|split; [|split]].
  - intros v. unfold FileVersion. cbv zeta.
    destruct (3 <=? length (split (is_any_of " ") true (transform tolower created_by)))%nat
      eqn:Hlen;
    destruct (String.eqb
                (nth 1 (split (is_any_of " ") true (transform tolower created_by))
                   EmptyString)
                "version") eqn:Hver; cbn [andb].
    + repeat match goal with
             | |- context [if ?b then atoi ?x else Some 0%Z] =>
                 destruct (if b then atoi x else Some 0%Z)
             end; try discriminate.
      intros [= <-]. cbn [application is_impala_internal].
      split; [reflexivity|].
      apply Nat.leb_le in Hlen. apply String.eqb_eq in Hver.
      rewrite andb_true_iff, String.eqb_eq. tauto.
    + intros [= <-]. cbn [application is_impala_internal].
      split; [reflexivity|].
      apply String.eqb_neq in Hver. split; [discriminate | tauto].
    + intros [= <-]. cbn [application is_impala_internal].
      split; [reflexivity|].
      apply Nat.leb_gt in Hlen. split; [discriminate | lia].
    + intros [= <-]. cbn [application is_impala_internal].
      split; [reflexivity|].
      apply Nat.leb_gt in Hlen. split; [discriminate | lia].
  - intros H. unfold FileVersion. cbv zeta.
    destruct (3 <=? length (split (is_any_of " ") true (transform tolower created_by)))%nat
      eqn:Hlen;
    destruct (String.eqb
                (nth 1 (split (is_any_of " ") true (transform tolower created_by))
                   EmptyString)
                "version") eqn:Hver; cbn [andb]; auto.
    apply Nat.leb_le in Hlen. apply String.eqb_eq in Hver.
    destruct H as [H|H]; [lia | contradiction].
  - intros ns suffix. apply (FileVersion_by_tokens created_by ns suffix).
  - intros app suffix rest ns Happ Hsuf Hout Hns Hfit Hrest ->.
    assert (Hlow : transform tolower
                     (app ++ " version " ++ (dotted ns ++ suffix) ++ rest)
                   = transform tolower app ++ " version "
                       ++ (dotted ns ++ transform tolower suffix)
                       ++ transform tolower rest).
    { rewrite !transform_append.
      change (transform tolower " version ") with " version ".
      now rewrite (transform_version_chars (dotted ns) (dotted_version_chars ns)). }
    destruct (tokens_of_created_by_rest (transform tolower app)
                (dotted ns ++ transform tolower suffix) (transform tolower rest))
      as [more Htok].
    + now apply transform_not_space.
    + rewrite all_chars_append.
      rewrite (all_chars_weaken version_char not_space (dotted ns)
                 version_char_not_space (dotted_version_chars ns)).
      now apply transform_not_space.
    + pose proof (dotted_not_empty ns Hns) as Hne.
      destruct (dotted ns); [contradiction | discriminate].
    + destruct Hrest as [->|[rest' ->]]; [now left|].
      right. exists (transform tolower rest'). reflexivity.
    + pose proof (FileVersion_by_tokens
                    (app ++ " version " ++ (dotted ns ++ suffix) ++ rest) ns
                    (transform tolower suffix)) as Hread.
      cbv zeta in Hread. rewrite Hlow, Htok in Hread. cbn [nth length] in Hread.
      apply Hread; [lia | reflexivity | reflexivity | | exact Hfit].
      now apply transform_starts_outside.
Qed.

(** "Impala version 1.2.0-INTERNAL (build 5464)" is Impala-internal 1.2.0:
    the version is read from the third token, not from what follows. *)
Lemma C8_file_version_witness :
  FileVersion "Impala version 1.2.0-INTERNAL (build 5464)"
    = Some (mk "impala" 1 2 0 true).
Proof.
  destruct (C8_file_version "Impala version 1.2.0-INTERNAL (build 5464)")
    as [_ [_ [_ H]]].
  refine (H "Impala" "-INTERNAL" " (build 5464)" [1; 2; 0]%nat
            eq_refl eq_refl eq_refl _ _ _ eq_refl).
  - discriminate.
  - repeat constructor.
  - right. eexists. reflexivity.
Defined.

(** C8 as the specification words it fails: a version token that contains
    "-internal" does not set the flag when the application is not
    "impala". *)
Lemma C8_internal_flag_counterexample :
  ~ (forall created_by : string,
       let tokens := split (is_any_of " ") true (transform tolower created_by) in
       (3 <= length tokens)%nat ->
       nth 1 tokens EmptyString = "version" ->
       contains "-internal" (nth 2 tokens EmptyString) = true ->
       exists v, FileVersion created_by = Some v /\ is_impala_internal v = true).
Proof.
  intros H.
  specialize (H "parquet-mr version 1.2.0-internal").
  cbv zeta in H.
  destruct H as (v & Hv & Hflag); [vm_compute; lia | reflexivity | reflexivity |].
  vm_compute in Hv. injection Hv as <-. discriminate Hflag.
Qed.

(** Only the space character separates tokens: with tabs the whole string
    is the application and the version stays 0.0.0. *)
Lemma FileVersion_tab_separated :
  FileVersion (String "i" (String "m" (String (ascii_of_nat 9) "version")))
    = Some (mk (String "i" (String "m" (String (ascii_of_nat 9) "version"))) 0 0 0 false).
Proof. reflexivity. Qed.

(** A part of the version that does not fit an [int] leaves the result
    undefined. *)
Lemma FileVersion_part_beyond_int :
  FileVersion "impala version 2147483648.0.0" = None.
Proof. reflexivity. Qed.

End FileVersionFacts.

(** ** Dictionary pages without a dictionary header *)

Section DictionaryHeaderFacts.

Import Page.
Local Open Scope string_scope.

Lemma RequiresSkippedDictionaryHeaderCheck_iff (v : FileVersion.t) :
  FileVersion.RequiresSkippedDictionaryHeaderCheck v = true <->
  FileVersion.application v = "impala" /\
  ((FileVersion.major v = 1 /\ FileVersion.minor v = 1 /\ FileVersion.patch v = 0)%Z \/
   (FileVersion.major v = 1 /\ FileVersion.minor v = 2 /\ FileVersion.patch v = 0)%Z /\
   FileVersion.is_impala_internal v = true).
Proof.
  unfold FileVersion.RequiresSkippedDictionaryHeaderCheck, FileVersion.VersionEq.
  destruct (String.eqb_spec (FileVersion.application v) "impala") as [Happ|Happ];
    cbn [negb].
  - rewrite orb_true_iff, !andb_true_iff, !Z.eqb_eq. tauto.
  - split; [discriminate | tauto].
Qed.

(** One step of [ReadDataPage] at a dictionary page, for a reader that still
    expects values. *)
Lemma ReadDataPage_dictionary_step fv abort (r : Reader) (pg : PageRead)
    (rest : list PageRead) (hdr : PageHeader) :
  (num_values_read_ r < metadata_num_values r)%Z ->
  header pg = inr hdr ->
  type hdr = DICTIONARY_PAGE ->
  ReadDataPage fv abort r (pg :: rest) =
    if slot_desc_is_null r then
      if negb (ok (body pg)) then (body pg, r, rest)
      else ReadDataPage fv abort r rest
    else
      match ReadDictionaryPage fv r hdr pg with
      | (Some err, r') => (err, r', rest)
      | (None, r') => ReadDataPage fv abort r' rest
      end.
Proof.
  intros Hlt Hhdr Hty. cbn [ReadDataPage].
  replace (num_values_read_ r =? metadata_num_values r)%Z with false
    by (symmetry; apply Z.eqb_neq; lia).
  replace (num_values_read_ r >? metadata_num_values r)%Z with false
    by (symmetry; rewrite Z.gtb_ltb; apply Z.ltb_ge; lia).
  rewrite Hhdr, Hty. reflexivity.
Qed.

Lemma ReadDictionaryPage_missing_header fv (r : Reader) hdr pg :
  dict_decoder_init_ r = false -> element_is_boolean r = false ->
  dictionary_page_header hdr = None ->
  FileVersion.RequiresSkippedDictionaryHeaderCheck fv = false ->
  ReadDictionaryPage fv r hdr pg = (Some missing_dictionary_header, r).
Proof.
  intros Hd Hb Hh Hv. unfold ReadDictionaryPage. now rewrite Hd, Hb, Hh, Hv.
Qed.

Lemma ReadDictionaryPage_header_waived fv (r : Reader) hdr pg :
  dict_decoder_init_ r = false -> element_is_boolean r = false ->
  dictionary_page_header hdr = None ->
  FileVersion.RequiresSkippedDictionaryHeaderCheck fv = true ->
  page_reads_cleanly r hdr pg = true ->
  ReadDictionaryPage fv r hdr pg = (None, with_dictionary r).
Proof.
  intros Hd Hb Hh Hv Hclean. unfold page_reads_cleanly in Hclean.
  apply andb_true_iff in Hclean as [Hclean Hsz].
  apply andb_true_iff in Hclean as [Hclean Hdec].
  apply andb_true_iff in Hclean as [Hbody Halloc].
  unfold ReadDictionaryPage. rewrite Hd, Hb, Hh, Hv, Hbody, Halloc, Hdec.
  cbn [negb]. destruct (has_decompressor r).
  - apply andb_true_iff in Hsz as [Hok Hsz]. now rewrite Hok, Hsz.
  - now rewrite Hsz.
Qed.

(** C4, as the code has it.  At a dictionary page whose header lacks
    dictionary_page_header, a reader that has a slot, no dictionary yet and a
    column that is not BOOLEAN returns the error "Dictionary page does not
    have dictionary header set." (a GENERAL status) unless
    RequiresSkippedDictionaryHeaderCheck holds; when it holds and the page
    body is read and decoded, the page is accepted and reading goes on with
    the dictionary installed.  The check holds exactly for application
    "impala" with version 1.1.0, or version 1.2.0 with the internal marker.
    A reader without a slot skips every dictionary page without this check. *)
Theorem C4_dictionary_page_without_header fv abort (r : Reader) (pg : PageRead)
    (rest : list PageRead) (hdr : PageHeader) :
  (num_values_read_ r < metadata_num_values r)%Z ->
  header pg = inr hdr ->
  type hdr = DICTIONARY_PAGE ->
  dictionary_page_header hdr = None ->
  (slot_desc_is_null r = false -> dict_decoder_init_ r = false ->
   element_is_boolean r = false ->
     (FileVersion.RequiresSkippedDictionaryHeaderCheck fv = false ->
        ReadDataPage fv abort r (pg :: rest) = (missing_dictionary_header, r, rest)) /\
     (FileVersion.RequiresSkippedDictionaryHeaderCheck fv = true ->
      page_reads_cleanly r hdr pg = true ->
        ReadDataPage fv abort r (pg :: rest)
          = ReadDataPage fv abort (with_dictionary r) rest)) /\
  (slot_desc_is_null r = true -> ok (body pg) = true ->
     ReadDataPage fv abort r (pg :: rest) = ReadDataPage fv abort r rest) /\
  (FileVersion.RequiresSkippedDictionaryHeaderCheck fv = true <->
     FileVersion.application fv = "impala" /\
     ((FileVersion.major fv = 1 /\ FileVersion.minor fv = 1 /\ FileVersion.patch fv = 0)%Z \/
      (FileVersion.major fv = 1 /\ FileVersion.minor fv = 2 /\ FileVersion.patch fv = 0)%Z /\
      FileVersion.is_impala_internal fv = true)).
Proof.
  intros Hlt Hhdr Hty Hnone.
  pose proof (ReadDataPage_dictionary_step fv abort r pg rest hdr Hlt Hhdr Hty) as Hstep.
  split; [|split].
  - intros Hslot Hd Hb. rewrite Hslot in Hstep. split.
    + intros Hv. rewrite Hstep.
      now rewrite ReadDictionaryPage_missing_header.
    + intros Hv Hclean. rewrite Hstep.
      now rewrite ReadDictionaryPage_header_waived.
  - intros Hslot Hbody. rewrite Hstep, Hslot, Hbody. reflexivity.
  - apply RequiresSkippedDictionaryHeaderCheck_iff.
Qed.

(** The boundary scenario of the specification: the same page is accepted
    in a file written by "impala version 1.1.0" and rejected in one written
    by "impala version 1.3.0". *)
Lemma C4_dictionary_page_witness :
  FileVersion.FileVersion "impala version 1.3.0"
    = Some (FileVersion.mk "impala" 1 3 0 false) /\
  FileVersion.FileVersion "impala version 1.1.0"
    = Some (FileVersion.mk "impala" 1 1 0 false) /\
  ReadDataPage (FileVersion.mk "impala" 1 3 0 false) true sample_reader
      [sample_dictionary_page; sample_data_page]
    = (missing_dictionary_header, sample_reader, [sample_data_page]) /\
  ReadDataPage (FileVersion.mk "impala" 1 1 0 false) true sample_reader
      [sample_dictionary_page; sample_data_page]
    = ReadDataPage (FileVersion.mk "impala" 1 1 0 false) true
        (with_dictionary sample_reader) [sample_data_page].
Proof.
  split; [reflexivity|]. split; [reflexivity|]. split.
  - refine (proj1 (proj1 (C4_dictionary_page_without_header
             (FileVersion.mk "impala" 1 3 0 false) true sample_reader
             sample_dictionary_page [sample_data_page] _ _ eq_refl eq_refl eq_refl)
             eq_refl eq_refl eq_refl) eq_refl).
    simpl; lia.
  - refine (proj2 (proj1 (C4_dictionary_page_without_header
             (FileVersion.mk "impala" 1 1 0 false) true sample_reader
             sample_dictionary_page [sample_data_page] _ _ eq_refl eq_refl eq_refl)
             eq_refl eq_refl eq_refl) eq_refl eq_refl).
    simpl; lia.
Defined.

(** C4 as the specification words it fails for a reader without a slot:
    the dictionary page without header of a file written by "impala version
    1.3.0" is skipped and the data page behind it is read. *)
Lemma C4_counting_reader_counterexample :
  ~ (forall fv abort (r : Reader) (pg : PageRead) (rest : list PageRead)
       (hdr : PageHeader),
       (num_values_read_ r < metadata_num_values r)%Z ->
       header pg = inr hdr ->
       type hdr = DICTIONARY_PAGE ->
       dictionary_page_header hdr = None ->
       FileVersion.RequiresSkippedDictionaryHeaderCheck fv = false ->
       ok (fst (fst (ReadDataPage fv abort r (pg :: rest)))) = false).
Proof.
  intros H.
  specialize (H (FileVersion.mk "impala" 1 3 0 false) true
                sample_counting_reader sample_dictionary_page [sample_data_page]
                _ ltac:(simpl; lia) eq_refl eq_refl eq_refl eq_refl).
  vm_compute in H. discriminate H.
Qed.

End DictionaryHeaderFacts.

(** ** Row-group selection *)

Section SplitFacts.

Import Split.

Lemma int64_id (z : Z) : in_int64 z -> int64 z = z.
Proof.
  unfold in_int64, int64. intros H.
  change (2 ^ 64) with (2 * 2 ^ 63).
  assert (Hp : 0 < 2 ^ 63) by reflexivity.
  set (p := 2 ^ 63) in *. clearbody p.
  rewrite Z.mod_small; lia.
Qed.

Lemma quot2_between (x : Z) :
  (0 <= x -> 0 <= Z.quot x 2 <= x) /\ (x <= 0 -> x <= Z.quot x 2 <= 0).
Proof. Z.to_euclidean_division_equations. lia. Qed.

(** Without overflow [GetRowGroupMidOffset] is start + (end - start) / 2. *)
Lemma GetRowGroupMidOffset_formula (rg : RowGroup) (c0 : ColumnMetaData) :
  hd_error (columns rg) = Some c0 ->
  offsets_in_range rg c0 ->
  GetRowGroupMidOffset rg = Some (mid_byte_offset rg c0).
Proof.
  unfold GetRowGroupMidOffset, mid_byte_offset, offsets_in_range.
  destruct (columns rg) as [|c cols] eqn:Hcols; [discriminate|].
  cbn [hd_error]. intros [= ->] (Hs & He & Hd).
  rewrite (int64_id _ He), (int64_id _ Hd). f_equal.
  apply int64_id.
  set (st := GetColumnStartOffset c0) in *.
  set (en := GetColumnStartOffset (last (c0 :: cols) c0)
             + total_compressed_size (last (c0 :: cols) c0)) in *.
  destruct (quot2_between (en - st)) as [Hpos Hneg].
  unfold in_int64 in *.
  destruct (Z.le_ge_cases 0 (en - st)) as [H|H].
  - specialize (Hpos H). lia.
  - specialize (Hneg H). lia.
Qed.

Lemma and_then_some sel rest o :
  and_then sel rest = Some o ->
  exists o', rest = Some o' /\ status o = status o' /\
             selected o = sel ++ selected o' /\ visited o = S (visited o').
Proof.
  unfold and_then. destruct rest as [o'|]; [|discriminate].
  intros [= <-]. exists o'. auto.
Qed.

Lemma stop_some st sel o :
  stop st sel = Some o -> status o = st /\ selected o = sel /\ visited o = 1%nat.
Proof. unfold stop. intros [= <-]. auto. Qed.

Section Loop.

Variables (file_length split_offset split_length : Z) (abort_on_error : bool).
Variable run : nat -> RowGroupRun.

Local Abbreviation loop :=
  (ProcessRowGroups file_length split_offset split_length abort_on_error run).
Local Abbreviation passes := (passes_selection file_length split_offset split_length).

(** One iteration: the row group is selected exactly when it passes the
    selection, and the loop either returns or goes on with the next one. *)
Lemma ProcessRowGroups_head (i : nat) (rg : RowGroup) (rest : list RowGroup)
    (o : Outcome) :
  loop i (rg :: rest) = Some o ->
  exists sel,
    ((sel = [i] /\ passes rg) \/ (sel = [] /\ ~ passes rg)) /\
    ((selected o = sel /\ visited o = 1%nat) \/
     (exists o', loop (S i) rest = Some o' /\
                 selected o = sel ++ selected o' /\ visited o = S (visited o'))).
Proof.
  unfold passes_selection. cbn [ProcessRowGroups].
  set (next := ProcessRowGroups _ _ _ _ _ (S i) rest).
  assert (Hgo : forall sel, and_then sel next = Some o ->
            (selected o = sel /\ visited o = 1%nat) \/
            (exists o', next = Some o' /\
                        selected o = sel ++ selected o' /\ visited o = S (visited o'))).
  { intros sel H. apply and_then_some in H as (o' & Hn & _ & Hs & Hv).
    right. exists o'. auto. }
  assert (Hstop : forall st sel, stop st sel = Some o ->
            (selected o = sel /\ visited o = 1%nat) \/
            (exists o', next = Some o' /\
                        selected o = sel ++ selected o' /\ visited o = S (visited o'))).
  { intros st sel H. apply stop_some in H as (_ & Hs & Hv). left. auto. }
  destruct (num_rows rg =? 0) eqn:Hrows.
  { intros H. exists []. split; [right | now apply Hgo].
    split; [reflexivity|]. apply Z.eqb_eq in Hrows. tauto. }
  apply Z.eqb_neq in Hrows.
  destruct (ValidateColumnOffsets file_length rg) as [|code msg] eqn:Hval.
  2:{ intros H. exists []. split; [right | now apply (Hstop (Error code msg))].
      split; [reflexivity|]. intros (_ & Hbad & _). discriminate Hbad. }
  destruct (GetRowGroupMidOffset rg) as [mid|] eqn:Hmid; [|discriminate].
  destruct ((mid >=? split_offset) && (mid <? int64 (split_offset + split_length)))
    eqn:Hin; cbn [negb].
  2:{ intros H. exists []. split; [right | now apply Hgo].
      split; [reflexivity|]. intros (_ & _ & mid' & [= <-] & Hrange).
      apply andb_false_iff in Hin as [Hin|Hin].
      - rewrite Z.geb_leb in Hin. apply Z.leb_gt in Hin. lia.
      - apply Z.ltb_ge in Hin. lia. }
  assert (Hpass : num_rows rg <> 0 /\ OK = OK /\
            exists mid', Some mid = Some mid' /\
              split_offset <= mid' < int64 (split_offset + split_length)).
  { apply andb_true_iff in Hin as [Hge Hlt].
    rewrite Z.geb_leb in Hge. apply Z.leb_le in Hge. apply Z.ltb_lt in Hlt.
    repeat split; try assumption. exists mid. split; [reflexivity | lia]. }
  intros H. exists [i]. split; [left; split; [reflexivity | exact Hpass] |].
  destruct (negb (ok (init_columns (run i)))); [now apply (Hstop _ _ H)|].
  destruct (negb (stats_pass (run i))); [now apply Hgo|].
  destruct (negb (ok (query_status (run i)))); [now apply (Hstop _ _ H)|].
  destruct (negb (ok (parse_status (run i))) && abort_on_error);
    [now apply (Hstop _ _ H)|].
  destruct (reached_limit (run i)); [now apply (Hstop _ _ H)|].
  destruct (cancelled (run i)); [now apply (Hstop _ _ H)|].
  destruct (negb (filters_pass (run i))); [now apply (Hstop _ _ H)|].
  now apply Hgo.
Qed.

Lemma ProcessRowGroups_spec (rgs : list RowGroup) :
  forall (i : nat) (o : Outcome),
    loop i rgs = Some o ->
    (visited o <= length rgs)%nat /\
    (forall j, In j (selected o) -> (i <= j < i + visited o)%nat) /\
    (forall k rg, (k < visited o)%nat -> nth_error rgs k = Some rg ->
       (In (i + k)%nat (selected o) <-> passes rg)).
Proof.
  induction rgs as [|rg rest IH]; intros i o Hrun.
  - cbn in Hrun. injection Hrun as <-. cbn.
    repeat split; try lia; try contradiction.
  - apply ProcessRowGroups_head in Hrun as (sel & Hsel & Hnext).
    assert (Hsel_in : forall j, In j sel -> j = i).
    { intros j Hj. destruct Hsel as [[-> _]|[-> _]]; cbn in Hj; intuition. }
    assert (Hhead : In i sel <-> passes rg).
    { destruct Hsel as [[-> Hp]|[-> Hp]]; cbn; intuition. }
    destruct Hnext as [[Hs Hv]|(o' & Ho' & Hs & Hv)].
    + rewrite Hs, Hv. cbn [length]. split; [lia|]. split.
      * intros j Hj. apply Hsel_in in Hj. lia.
      * intros k rg' Hk Hnth. assert (k = 0)%nat as -> by lia.
        cbn in Hnth. injection Hnth as <-. now rewrite Nat.add_0_r.
    + destruct (IH (S i) o' Ho') as (IHlen & IHrange & IHsel).
      rewrite Hs, Hv. cbn [length]. split; [lia|]. split.
      * intros j Hj. apply in_app_or in Hj as [Hj|Hj].
        -- apply Hsel_in in Hj. lia.
        -- apply IHrange in Hj. lia.
      * intros k rg' Hk Hnth. destruct k as [|k].
        -- cbn in Hnth. injection Hnth as <-. rewrite Nat.add_0_r.
           rewrite in_app_iff. split.
           ++ intros [Hj|Hj]; [now apply Hhead|]. apply IHrange in Hj. lia.
           ++ intros Hp. left. now apply Hhead.
        -- cbn in Hnth. rewrite in_app_iff.
           replace (i + S k)%nat with (S i + k)%nat by lia.
           rewrite <- (IHsel k rg' ltac:(lia) Hnth). split.
           ++ intros [Hj|Hj]; [|exact Hj]. apply Hsel_in in Hj. lia.
           ++ intros Hj. now right.
Qed.

(** The loop returns a result when every row group has a column. *)
Lemma ProcessRowGroups_total (rgs : list RowGroup) :
  Forall (fun rg => columns rg <> []) rgs ->
  forall i, exists o, loop i rgs = Some o.
Proof.
  induction 1 as [|rg rest Hcols _ IH]; intros i; cbn [ProcessRowGroups].
  - eexists; reflexivity.
  - destruct (IH (S i)) as [o' Ho']. rewrite Ho'.
    destruct (num_rows rg =? 0); [eexists; reflexivity|].
    destruct (ValidateColumnOffsets file_length rg); [|eexists; reflexivity].
    unfold GetRowGroupMidOffset.
    destruct (columns rg) as [|c cols]; [contradiction|].
    repeat match goal with
           | |- exists o, (if ?b then _ else _) = Some o => destruct b
           end; eexists; reflexivity.
Qed.

(** The loop looks at every row group when none ends the scan. *)
Lemma ProcessRowGroups_visits_all (rgs : list RowGroup) :
  Forall (fun rg => num_rows rg = 0 \/ ValidateColumnOffsets file_length rg = OK) rgs ->
  (forall i, runs_to_completion abort_on_error (run i)) ->
  forall i o, loop i rgs = Some o -> visited o = length rgs.
Proof.
  intros Hval Hrun.
  induction Hval as [|rg rest Hrg _ IH]; intros i o; cbn [ProcessRowGroups].
  - intros [= <-]. reflexivity.
  - set (next := ProcessRowGroups _ _ _ _ _ (S i) rest).
    assert (Hgo : forall sel, and_then sel next = Some o ->
              visited o = length (rg :: rest)).
    { intros sel H. apply and_then_some in H as (o' & Hn & _ & _ & Hv).
      rewrite Hv. cbn [length]. f_equal. now apply (IH (S i)). }
    destruct (num_rows rg =? 0) eqn:Hrows; [apply Hgo|].
    destruct Hrg as [Hz|Hok]; [apply Z.eqb_neq in Hrows; contradiction|].
    rewrite Hok.
    destruct (GetRowGroupMidOffset rg) as [mid|]; [|discriminate].
    destruct (negb _); [apply Hgo|].
    destruct (Hrun i) as (Hinit & Hrest). rewrite Hinit. cbn [negb].
    destruct (stats_pass (run i)) eqn:Hstats; cbn [negb]; [|apply Hgo].
    destruct (Hrest eq_refl) as (Hq & Hp & Hl & Hc & Hf).
    rewrite Hq, Hl, Hc, Hf. cbn [negb].
    assert (Hpa : negb (ok (parse_status (run i))) && abort_on_error = false).
    { destruct Hp as [-> | ->]; [reflexivity | apply andb_false_r]. }
    rewrite Hpa. apply Hgo.
Qed.

End Loop.

(** C1, as the code has it.  ProcessSplit returns a result whenever every
    row group has a column chunk.  For every row group that the loop reaches,
    the row group is selected for processing if and only if it has rows, its
    column offsets are valid and its mid-byte-offset lies in
    [split_offset, split_offset + split_length); a row group whose midpoint
    lies outside the split is never selected.  The loop reaches every row
    group when the footer and the readers are fine, the offsets of the row
    groups with rows are valid and no selected row group ends the scan (error,
    limit, cancellation, partition filter).  The mid-byte-offset is
    start + (end - start) / 2, with start the dictionary page offset of
    column 0 when set and its data page offset otherwise, and end the start of
    the last column plus its total_compressed_size, as long as these stay in
    the range of int64_t. *)
Theorem C1_row_group_selection
    (footer : Status * bool) (create_readers : Status)
    (file_length split_offset split_length : Z) (abort_on_error : bool)
    (run : nat -> RowGroupRun) (row_groups : list RowGroup) :
  Forall (fun rg => columns rg <> []) row_groups ->
  exists o,
    ProcessSplit footer create_readers file_length split_offset split_length
      abort_on_error run row_groups = Some o /\
    (forall k rg, (k < visited o)%nat -> nth_error row_groups k = Some rg ->
       (In k (selected o) <->
        passes_selection file_length split_offset split_length rg)) /\
    (forall k, In k (selected o) -> (k < visited o)%nat) /\
    (fst footer = OK -> snd footer = false -> create_readers = OK ->
     Forall (fun rg => num_rows rg = 0 \/ ValidateColumnOffsets file_length rg = OK)
       row_groups ->
     (forall i, runs_to_completion abort_on_error (run i)) ->
     visited o = length row_groups) /\
    (forall rg c0, In rg row_groups -> hd_error (columns rg) = Some c0 ->
       offsets_in_range rg c0 ->
       GetRowGroupMidOffset rg = Some (mid_byte_offset rg c0)).
Proof.
  intros Hcols. unfold ProcessSplit.
  assert (Hearly : forall st,
    (fst footer = OK -> snd footer = false -> create_readers = OK -> False) ->
    exists o, Some (mkOutcome st [] 0) = Some o /\
      (forall k rg, (k < visited o)%nat -> nth_error row_groups k = Some rg ->
         (In k (selected o) <->
          passes_selection file_length split_offset split_length rg)) /\
      (forall k, In k (selected o) -> (k < visited o)%nat) /\
      (fst footer = OK -> snd footer = false -> create_readers = OK ->
       Forall (fun rg => num_rows rg = 0 \/ ValidateColumnOffsets file_length rg = OK)
         row_groups ->
       (forall i, runs_to_completion abort_on_error (run i)) ->
       visited o = length row_groups) /\
      (forall rg c0, In rg row_groups -> hd_error (columns rg) = Some c0 ->
         offsets_in_range rg c0 ->
         GetRowGroupMidOffset rg = Some (mid_byte_offset rg c0))).
  { intros st Hno. eexists. split; [reflexivity|]. cbn [selected visited].
    split; [intros k rg Hk; lia|].
    split; [intros k []|].
    split; [intros H1 H2 H3; destruct (Hno H1 H2 H3)|].
    intros rg c0 _. apply GetRowGroupMidOffset_formula. }
  destruct (ok (fst footer)) eqn:Hfoot; cbn [negb].
  2:{ apply Hearly. intros Hf _ _. rewrite Hf in Hfoot. discriminate. }
  destruct (snd footer) eqn:Heosr.
  { apply Hearly. intros _ Hf _. discriminate. }
  destruct (ok create_readers) eqn:Hcreate; cbn [negb].
  2:{ apply Hearly. intros _ _ Hc. rewrite Hc in Hcreate. discriminate. }
  destruct (ProcessRowGroups_total file_length split_offset split_length
              abort_on_error run row_groups Hcols 0%nat) as [o Ho].
  destruct (ProcessRowGroups_spec file_length split_offset split_length
              abort_on_error run row_groups 0%nat o Ho) as (_ & Hrange & Hsel).
  exists o. split; [exact Ho|]. split; [|split; [|split]].
  - intros k rg Hk Hnth. exact (Hsel k rg Hk Hnth).
  - intros k Hk. apply Hrange in Hk. lia.
  - intros _ _ _ Hval Hrun.
    exact (ProcessRowGroups_visits_all file_length split_offset split_length
             abort_on_error run row_groups Hval Hrun 0%nat o Ho).
  - intros rg c0 _. apply GetRowGroupMidOffset_formula.
Qed.

(** The boundary scenario of the specification: the split [0, 10_000_000)
    over row groups with midpoints 2_000_000, 8_000_000 and 12_000_000
    selects exactly the first two. *)
Lemma C1_row_group_selection_witness :
  exists o,
    ProcessSplit (OK, false) OK 20000000 0 10000000 true (fun _ => quiet_run)
      sample_row_groups = Some o /\
    In 0%nat (selected o) /\ In 1%nat (selected o) /\ ~ In 2%nat (selected o).
Proof.
  destruct (C1_row_group_selection (OK, false) OK 20000000 0 10000000 true
              (fun _ => quiet_run) sample_row_groups)
    as (o & Ho & Hsel & _ & Hall & _).
  { repeat constructor; discriminate. }
  assert (Hv : visited o = 3%nat).
  { apply Hall; try reflexivity.
    - repeat constructor; right; reflexivity.
    - intros i. repeat split; auto. }
  assert (Hlim : int64 (0 + 10000000) = 10000000) by reflexivity.
  exists o. split; [exact Ho|]. split; [|split].
  - apply (Hsel 0%nat (one_column_group 4 3999992 10)); [lia | reflexivity |].
    split; [discriminate|]. split; [reflexivity|].
    exists 2000000. split; [reflexivity | rewrite Hlim; lia].
  - apply (Hsel 1%nat (one_column_group 4000000 8000000 10)); [lia | reflexivity |].
    split; [discriminate|]. split; [reflexivity|].
    exists 8000000. split; [reflexivity | rewrite Hlim; lia].
  - intros Hin.
    apply (Hsel 2%nat (one_column_group 12000000 1 5)) in Hin; [| lia | reflexivity].
    destruct Hin as (_ & _ & mid & Hmid & Hrange).
    assert (Hmid' : GetRowGroupMidOffset (one_column_group 12000000 1 5)
                    = Some 12000000) by reflexivity.
    rewrite Hmid' in Hmid. injection Hmid as <-. rewrite Hlim in Hrange. lia.
Defined.

(** C1 as the specification words it fails: a row group without rows is
    skipped although its midpoint lies in the split. *)
Lemma C1_empty_row_group_counterexample :
  ~ (forall (file_length split_offset split_length : Z) (abort_on_error : bool)
       (run : nat -> RowGroupRun) (row_groups : list RowGroup) (o : Outcome)
       (k : nat) (rg : RowGroup),
       ProcessSplit (OK, false) OK file_length split_offset split_length
         abort_on_error run row_groups = Some o ->
       nth_error row_groups k = Some rg ->
       (In k (selected o) <->
        exists mid, GetRowGroupMidOffset rg = Some mid /\
                    split_offset <= mid < split_offset + split_length)).
Proof.
  intros H.
  specialize (H 20000000 0 10000000 true (fun _ => quiet_run)
                [one_column_group 4 3999992 0] (mkOutcome OK [] 1) 0%nat
                (one_column_group 4 3999992 0) eq_refl eq_refl).
  destruct H as [_ H]. apply H.
  exists 2000000. split; [reflexivity | lia].
Qed.

End SplitFacts.

(** ** Runtime filters *)

Section FilterFacts.

Import Filter.

Variable Tuple : Type.
Variable FLAGS_parquet_min_filter_reject_ratio : PrimFloat.float.

Local Abbreviation min_ratio := FLAGS_parquet_min_filter_reject_ratio.
Local Abbreviation EvalRuntimeFilter := (EvalRuntimeFilter Tuple min_ratio).
Local Abbreviation EvalRuntimeFilters := (EvalRuntimeFilters Tuple min_ratio).
Local Abbreviation EvalRows := (EvalRows Tuple min_ratio).
Local Abbreviation rejects := (rejects Tuple min_ratio).
Local Abbreviation reached := (reached Tuple min_ratio).

(** The bit test of the check is divisibility by 16384. *)
Lemma selectivity_check_due_iff (st : LocalFilterStats) :
  selectivity_check_due st = true <->
  total_possible st mod ROWS_PER_FILTER_SELECTIVITY_CHECK = 0.
Proof.
  unfold selectivity_check_due, ROWS_PER_FILTER_SELECTIVITY_CHECK.
  change (16 * 1024 - 1) with (Z.ones 14).
  rewrite Z.land_ones by lia. change (2 ^ 14) with (16 * 1024).
  apply Z.eqb_eq.
Qed.

(** A disabled filter is passed over: nothing is counted, evaluated or
    rejected. *)
Lemma EvalRuntimeFilter_disabled (ctx : FilterContext Tuple)
    (st : LocalFilterStats) (row : Tuple) :
  enabled st = false -> EvalRuntimeFilter ctx st row = Skipped st.
Proof. intros H. unfold Filter.EvalRuntimeFilter. now rewrite H. Qed.

(** The body of the loop for an enabled filter. *)
Lemma EvalRuntimeFilter_enabled (ctx : FilterContext Tuple)
    (st : LocalFilterStats) (row : Tuple) :
  enabled st = true ->
  let step := EvalRuntimeFilter ctx st row in
  let st' := stats_of step in
  total_possible st' = int64 (total_possible st + 1) /\
  (enabled st' = false <->
     total_possible st' mod ROWS_PER_FILTER_SELECTIVITY_CHECK = 0 /\
     (AlwaysTrue ctx = true \/
      PrimFloat.ltb (reject_ratio st) min_ratio = true)) /\
  (enabled st' = false ->
     step = Skipped st' /\ considered st' = considered st /\
     rejected st' = rejected st) /\
  (enabled st' = true ->
     considered st' = int64 (considered st + 1) /\
     (Eval ctx row = true -> step = Passed st' /\ rejected st' = rejected st) /\
     (Eval ctx row = false ->
        step = Rejected st' /\ rejected st' = int64 (rejected st + 1))).
Proof.
  intros Hen. cbv zeta. unfold Filter.EvalRuntimeFilter. rewrite Hen.
  cbn [negb considered rejected total_possible enabled].
  pose proof (selectivity_check_due_iff
                (mkLocalFilterStats (considered st) (rejected st)
                   (int64 (total_possible st + 1)) true)) as Hdue.
  cbn [total_possible] in Hdue.
  change (reject_ratio (mkLocalFilterStats (considered st) (rejected st)
                          (int64 (total_possible st + 1)) true))
    with (reject_ratio st).
  destruct (selectivity_check_due _) eqn:Hcheck;
    destruct (AlwaysTrue ctx) eqn:Ha;
    destruct (PrimFloat.ltb (reject_ratio st) min_ratio) eqn:Hr;
    destruct (Eval ctx row) eqn:He;
    cbn [andb orb negb stats_of considered rejected total_possible enabled];
    (split; [reflexivity|]); (split; [|split]);
    try (intros H; discriminate H);
    try (intros _; repeat split; solve [reflexivity | intros H; discriminate H]);
    try (split; [intros H; discriminate H | ]);
    try (split; [intros _ | intros _; reflexivity]);
    intuition (try congruence).
Qed.


(** The loop over the filters: the verdict is true exactly when no filter
    rejects the row, the size of [filter_stats_] stays, and the entry of
    filter [i] is the one that the loop body leaves when the loop comes to
    the filter, and is unchanged otherwise. *)
Lemma EvalRuntimeFilters_spec (ctxs : list (FilterContext Tuple)) :
  forall (stats : list LocalFilterStats) (row : Tuple),
    fst (EvalRuntimeFilters ctxs stats row) = reached ctxs stats row (length ctxs) /\
    length (snd (EvalRuntimeFilters ctxs stats row)) = length stats /\
    (forall i ctx st,
        nth_error ctxs i = Some ctx -> nth_error stats i = Some st ->
        nth_error (snd (EvalRuntimeFilters ctxs stats row)) i
        = Some (if reached ctxs stats row i
                then stats_of (EvalRuntimeFilter ctx st row) else st)).
Proof.
  induction ctxs as [|ctx ctxs IH]; intros stats row;
    cbn [Filter.EvalRuntimeFilters length].
  - cbn [fst snd Filter.reached]. split; [reflexivity|]. split; [reflexivity|].
    intros [|i] c st H; discriminate H.
  - destruct stats as [|st rest].
    + cbn [fst snd Filter.reached]. split; [reflexivity|]. split; [reflexivity|].
      intros [|i] c x _ H; discriminate H.
    + specialize (IH rest row). cbn [Filter.reached]. unfold Filter.rejects.
      destruct (Filter.EvalRuntimeFilters Tuple min_ratio ctxs rest row)
        as [verdict rest'] eqn:Hrec.
      cbn [fst snd] in IH. destruct IH as (IHv & IHlen & IHnth).
      destruct (EvalRuntimeFilter ctx st row) as [st'|st'|st'] eqn:Hstep;
        cbn [fst snd length negb andb].
      * split; [exact IHv|]. split; [now rewrite IHlen|].
        intros [|i] c x Hc Hx; cbn [nth_error] in *.
        -- injection Hc as <-. injection Hx as <-. now rewrite Hstep.
        -- cbn [Filter.reached]. unfold Filter.rejects. rewrite ?Hstep.
           cbn [negb andb]. now apply IHnth.
      * split; [exact IHv|]. split; [now rewrite IHlen|].
        intros [|i] c x Hc Hx; cbn [nth_error] in *.
        -- injection Hc as <-. injection Hx as <-. now rewrite Hstep.
        -- cbn [Filter.reached]. unfold Filter.rejects. rewrite ?Hstep.
           cbn [negb andb]. now apply IHnth.
      * split; [reflexivity|]. split; [reflexivity|].
        intros [|i] c x Hc Hx; cbn [nth_error] in *.
        -- injection Hc as <-. injection Hx as <-. now rewrite Hstep.
        -- cbn [Filter.reached]. unfold Filter.rejects. rewrite ?Hstep.
           cbn [negb andb]. exact Hx.
Qed.





End FilterFacts.


(** ** Transfer of scratch tuples *)

Section TransferFacts.

Import Filter.

Variable Tuple : Type.
Variable FLAGS_parquet_min_filter_reject_ratio : PrimFloat.float.

Local Abbreviation TransferLoop :=
  (TransferLoop Tuple FLAGS_parquet_min_filter_reject_ratio).
Local Abbreviation TransferScratchTuples :=
  (TransferScratchTuples Tuple FLAGS_parquet_min_filter_reject_ratio).

(** The loop never writes beyond [room] rows when it starts below it, and it
    passes at most the scratch tuples it is given. *)
Lemma TransferLoop_bounds (ctxs : list (FilterContext Tuple))
    (conjuncts : list (Tuple -> bool)) (room : Z) (tuples : list Tuple) :
  forall st : Transfer Tuple,
    Z.of_nat (length (output_rows Tuple st)) < room ->
    let st' := TransferLoop ctxs conjuncts room tuples st in
    Z.of_nat (length (output_rows Tuple st')) <= room /\
    (length (output_rows Tuple st) <= length (output_rows Tuple st'))%nat /\
    scratch_passed Tuple st <= scratch_passed Tuple st'
      <= scratch_passed Tuple st + Z.of_nat (length tuples).
Proof.
  induction tuples as [|t rest IH]; intros st Hroom; cbn [Filter.TransferLoop].
  - cbn [length]. lia.
  - cbv zeta.
    destruct (if negb match ctxs with [] => true | _ :: _ => false end
              then Filter.EvalRuntimeFilters Tuple
                     FLAGS_parquet_min_filter_reject_ratio ctxs
                     (stats_after Tuple st) t
              else (true, stats_after Tuple st)) as [filters_ok stats].
    assert (Hskip : forall st1 : Transfer Tuple,
              output_rows Tuple st1 = output_rows Tuple st ->
              scratch_passed Tuple st1 = scratch_passed Tuple st + 1 ->
              Z.of_nat (length (output_rows Tuple (TransferLoop ctxs conjuncts room rest st1)))
                <= room /\
              (length (output_rows Tuple st)
                 <= length (output_rows Tuple (TransferLoop ctxs conjuncts room rest st1)))%nat /\
              scratch_passed Tuple st
                <= scratch_passed Tuple (TransferLoop ctxs conjuncts room rest st1)
                <= scratch_passed Tuple st + Z.of_nat (length (t :: rest))).
    { intros st1 Hrows Hpassed.
      specialize (IH st1). rewrite Hrows, Hpassed in IH. cbv zeta in IH.
      specialize (IH Hroom). cbn [length]. lia. }
    destruct (negb filters_ok); [now apply Hskip|].
    destruct (negb match conjuncts with [] => true | _ :: _ => false end
              && negb (EvalConjuncts Tuple conjuncts t)); [now apply Hskip|].
    destruct (Z.of_nat (length (output_rows Tuple st ++ [Some t])) =? room) eqn:Hfull.
    + apply Z.eqb_eq in Hfull. cbn [output_rows scratch_passed length].
      rewrite length_app in *. cbn [length] in *. lia.
    + apply Z.eqb_neq in Hfull.
      specialize (IH (mkTransfer Tuple (output_rows Tuple st ++ [Some t])
                        (scratch_passed Tuple st + 1) stats)).
      cbv zeta in IH. cbn [output_rows scratch_passed] in IH.
      rewrite length_app in *. cbn [length] in *.
      specialize (IH ltac:(lia)). lia.
Qed.

(** C9: when the output batch is not already full, the number of rows that
    TransferScratchTuples returns for commit is at most the remaining
    capacity of the output batch, in the case of zero-byte tuples and in the
    filtering loop alike, so the batch stays within its capacity; for a
    scratch batch whose cursor is not beyond its tuples the number is not
    negative and counts the rows written. *)
Theorem C9_transfer_within_capacity (capacity num_rows : Z)
    (scratch : ScratchTupleBatch Tuple) (ctxs : list (FilterContext Tuple))
    (stats : list LocalFilterStats) (conjuncts : list (Tuple -> bool)) :
  num_rows < capacity ->
  let r := TransferScratchTuples capacity num_rows scratch ctxs stats conjuncts in
  returned r <= capacity - num_rows /\
  num_rows + returned r <= capacity /\
  (tuple_idx scratch <= num_tuples scratch ->
     0 <= returned r /\ Z.of_nat (length (written r)) = returned r /\
     tuple_idx scratch <= tuple_idx (scratch_after r) <= num_tuples scratch).
Proof.
  intros Hroom. cbv zeta. unfold Filter.TransferScratchTuples.
  destruct (tuple_byte_size scratch =? 0).
  - cbn [returned written scratch_after advance tuple_idx].
    split; [lia|]. split; [lia|]. intros Hidx.
    rewrite repeat_length. lia.
  - pose proof (TransferLoop_bounds ctxs conjuncts (capacity - num_rows)
                  (pending Tuple scratch) (mkTransfer Tuple [] 0 stats)) as H.
    cbv zeta in H. cbn [output_rows scratch_passed length] in H.
    specialize (H ltac:(lia)). destruct H as (Hle & _ & Hpassed).
    cbn [returned written scratch_after advance tuple_idx].
    split; [lia|]. split; [lia|]. intros Hidx.
    split; [lia|]. split; [reflexivity|].
    assert (Hpend : Z.of_nat (length (pending Tuple scratch))
                    <= num_tuples scratch - tuple_idx scratch).
    { unfold pending. rewrite length_firstn. lia. }
    lia.
Qed.

(** The precondition matters: on a batch that is already full the loop
    misses its end mark and keeps writing. *)
Lemma TransferScratchTuples_on_full_batch (t : Tuple) :
  returned (TransferScratchTuples 1 1 (mkScratchTupleBatch [t; t] 0 2 8) [] [] []) = 2.
Proof. reflexivity. Qed.

End TransferFacts.

(** A scratch batch of five tuples, of which the even ones survive the
    conjunct, transferred into an output batch of capacity 10 that holds 8
    rows. *)
Lemma C9_transfer_witness :
  8 < 10 /\
  let r := Filter.TransferScratchTuples nat Filter.default_min_filter_reject_ratio 10 8
             (Filter.mkScratchTupleBatch [0; 1; 2; 3; 4]%nat 0 5 8) [] []
             [fun n : nat => Nat.even n] in
  Filter.returned r <= 10 - 8 /\
  8 + Filter.returned r <= 10 /\
  (0 <= 5 ->
     0 <= Filter.returned r /\
     Z.of_nat (length (Filter.written r)) = Filter.returned r /\
     0 <= Filter.tuple_idx (Filter.scratch_after r) <= 5).
Proof.
  split; [lia|].
  apply (C9_transfer_within_capacity nat Filter.default_min_filter_reject_ratio 10 8
           (Filter.mkScratchTupleBatch [0; 1; 2; 3; 4]%nat 0 5 8) [] []
           [fun n : nat => Nat.even n]).
  lia.
Defined.

Lemma TransferScratchTuples_sample :
  let r := Filter.TransferScratchTuples nat Filter.default_min_filter_reject_ratio 10 8
             (Filter.mkScratchTupleBatch [0; 1; 2; 3; 4]%nat 0 5 8) [] []
             [fun n : nat => Nat.even n] in
  Filter.returned r = 2 /\ Filter.written r = [Some 0%nat; Some 2%nat] /\
  Filter.tuple_idx (Filter.scratch_after r) = 3.
Proof. repeat split; reflexivity. Qed.

(** ** End-of-group validation *)

Section EndOfRowGroupFacts.

Import EndOfRowGroup.

Lemma int32_fixed_nonneg (z : Z) : z = int32 z -> 0 <= z -> int32 z <> -1.
Proof. intros H Hz. rewrite <- H. lia. Qed.

(** The loop over the readers: when it returns OK, every scalar reader of
    the list has no buffered values, and with DCHECKs on every one has read
    as many values as the local [num_values_read] holds at the end. *)
Lemma ValidateScalarReaders_ok (dchecks abort_on_error : bool)
    (readers : list ColumnReader) :
  forall seen : Z,
    ValidateScalarReaders dchecks abort_on_error readers seen = Returns OK ->
    (forall r, In r readers -> IsCollectionReader r = false ->
               num_buffered_values_ r = 0) /\
    (dchecks = true ->
     (forall r, In r readers -> IsCollectionReader r = false ->
                0 <= num_values_read_ r) ->
     forall r, In r readers -> IsCollectionReader r = false ->
       (seen <> -1 -> num_values_read_ r = seen) /\
       (forall r', In r' readers -> IsCollectionReader r' = false ->
                   num_values_read_ r' = num_values_read_ r)).
Proof.
  induction readers as [|r rest IH]; intros seen Hrun.
  - split; [intros r []|]. intros _ _ r [].
  - destruct r as [m buffered read expected | m children];
      cbn [ValidateScalarReaders] in Hrun.
    + destruct (buffered =? 0) eqn:Hbuf; cbn [negb] in Hrun; [|discriminate].
      apply Z.eqb_eq in Hbuf.
      set (seen' := if seen =? -1 then int32 read else seen) in *.
      destruct (dchecks && negb (read =? seen')) eqn:Hd1; [discriminate|].
      destruct (dchecks && negb ((read =? expected) || negb abort_on_error));
        [discriminate|].
      destruct (IH seen' Hrun) as [IHbuf IHread]. split.
      * intros r [<-|Hin] Hsc; [exact Hbuf | now apply IHbuf].
      * intros -> Hnonneg.
        cbn [andb] in Hd1. apply negb_false_iff, Z.eqb_eq in Hd1.
        assert (Hread0 : 0 <= read).
        { apply (Hnonneg (ScalarReader m buffered read expected));
            [now left | reflexivity]. }
        assert (Hseen' : seen' <> -1).
        { unfold seen' in *. destruct (seen =? -1) eqn:Hs.
          - now apply int32_fixed_nonneg.
          - now apply Z.eqb_neq in Hs. }
        assert (Hseen : seen <> -1 -> read = seen).
        { intros Hs. unfold seen' in Hd1.
          apply Z.eqb_neq in Hs. now rewrite Hs in Hd1. }
        assert (Hrest : forall r', In r' rest -> IsCollectionReader r' = false ->
                                   num_values_read_ r' = read).
        { intros r' Hin Hsc.
          destruct (IHread eq_refl
                      (fun x Hx => Hnonneg x (or_intror Hx)) r' Hin Hsc) as [Hx _].
          rewrite Hd1. now apply Hx. }
        assert (Hall : forall r', In r' (ScalarReader m buffered read expected :: rest) ->
                                  IsCollectionReader r' = false ->
                                  num_values_read_ r' = read).
        { intros r' [<-|Hin] Hsc; [reflexivity | now apply Hrest]. }
        intros r Hin Hsc. split.
        -- intros Hs. rewrite (Hall r Hin Hsc). now apply Hseen.
        -- intros r' Hin' Hsc'. now rewrite (Hall r Hin Hsc), (Hall r' Hin' Hsc').
    + destruct (IH seen Hrun) as [IHbuf IHread]. split.
      * intros r [<-|Hin] Hsc; [discriminate Hsc | now apply IHbuf].
      * intros Hd Hnonneg r [<-|Hin] Hsc; [discriminate Hsc|].
        destruct (IHread Hd (fun x Hx => Hnonneg x (or_intror Hx)) r Hin Hsc)
          as [H1 H2].
        split; [exact H1|].
        intros r' [<-|Hin'] Hsc'; [discriminate Hsc' | now apply H2].
Qed.

(** What the validation at the end of [AssembleRows] enforces.  When
    AssembleRows is at the end of a row group with an OK parse status and
    leaves it OK after the validation, then: if the first top-level reader
    has max_rep_level == 0, rows_read equals the row group's num_rows
    (otherwise the status is the group row count error); every top-level
    reader that is not a collection reader has num_buffered_values == 0
    (otherwise an error status is returned); and in a build with DCHECKs
    these readers agree on num_values_read. *)
Lemma AssembleRowsEnd_enforces
    (dchecks abort_on_error continue_execution : bool)
    (column_readers : list ColumnReader) (expected_rows_in_group rows_read : Z) :
  (forall continue_execution',
     AssembleRowsEnd dchecks abort_on_error true OK continue_execution column_readers
       expected_rows_in_group rows_read = Returns (OK, continue_execution') ->
     (forall first_reader, hd_error column_readers = Some first_reader ->
        max_rep_level first_reader = 0 -> rows_read = expected_rows_in_group) /\
     (forall r, In r column_readers -> IsCollectionReader r = false ->
        num_buffered_values_ r = 0) /\
     (dchecks = true ->
      (forall r, In r column_readers -> IsCollectionReader r = false ->
         0 <= num_values_read_ r) ->
      forall a b, In a column_readers -> In b column_readers ->
        IsCollectionReader a = false -> IsCollectionReader b = false ->
        num_values_read_ a = num_values_read_ b)) /\
  (forall first_reader, hd_error column_readers = Some first_reader ->
     max_rep_level first_reader = 0 -> rows_read <> expected_rows_in_group ->
     AssembleRowsEnd dchecks abort_on_error true OK continue_execution column_readers
       expected_rows_in_group rows_read
     = Returns (Error PARQUET_GROUP_ROW_COUNT_ERROR EmptyString, false)).
Proof.
  unfold AssembleRowsEnd, ValidateEndOfRowGroup. cbn [andb ok negb].
  destruct column_readers as [|r0 rest] eqn:Hreaders.
  { split; [destruct dchecks; discriminate | discriminate]. }
  rewrite andb_false_r. split.
  - intros continue_execution'.
    destruct ((max_rep_level r0 =? 0) && negb (rows_read =? expected_rows_in_group))
      eqn:Hrows; [discriminate|].
    destruct (ValidateScalarReaders dchecks abort_on_error (r0 :: rest) (-1))
      as [st| |] eqn:Hloop; try discriminate.
    intros [= -> _].
    destruct (ValidateScalarReaders_ok _ _ _ _ Hloop) as [Hbuf Hread].
    split; [|split].
    + intros first_reader [= <-] Hrep. rewrite Hrep in Hrows. cbn in Hrows.
      apply negb_false_iff, Z.eqb_eq in Hrows. exact Hrows.
    + exact Hbuf.
    + intros Hd Hnonneg a b Ha Hb Hsa Hsb.
      destruct (Hread Hd Hnonneg a Ha Hsa) as [_ Hall]. symmetry. now apply Hall.
  - intros first_reader [= <-] Hrep Hne.
    rewrite Hrep. apply Z.eqb_neq in Hne. rewrite Hne. cbn.
    now rewrite andb_false_r.
Qed.

(** C5, at the input on which the code departs from it.  A row group of 9
    rows has two top-level scalar columns whose metadata announce 9 values
    each; the column chunk of the first holds one data page of 7 values, the
    one of the second a data page of 9.  With abort_on_error off both columns
    are read through with an OK status, and at the end of the row group both
    readers have no buffered values and rows_read is 9.  In a build without
    DCHECKs the validation returns OK: the row group counts as processed to
    completion although the two readers disagree on num_values_read (7 and
    9).  The agreement is what the validation itself asserts with DCHECK_EQ:
    in a build with DCHECKs the same call stops at that assertion. *)
Theorem C5_readers_out_of_step (file_version : FileVersion.t) :
  fst (read_through file_version false (fresh_reader 9) (one_data_page 7)) = OK /\
  fst (read_through file_version false (fresh_reader 9) (one_data_page 9)) = OK /\
  out_of_step_readers file_version = [ScalarReader 0 0 7 9; ScalarReader 0 0 9 9] /\
  AssembleRowsEnd false false true OK true (out_of_step_readers file_version) 9 9
    = Returns (OK, true) /\
  map num_values_read_ (out_of_step_readers file_version) = [7; 9] /\
  AssembleRowsEnd true false true OK true (out_of_step_readers file_version) 9 9
    = DcheckFailed.
Proof. repeat split; reflexivity. Qed.

End EndOfRowGroupFacts.

(** ** Level decoding *)

Section LevelFacts.

Import Level.

(** *** The bit reader only moves forward *)

Lemma bits_from_nonneg (r : BitReader) (n : nat) : forall p, 0 <= bits_from r p n.
Proof.
  induction n as [|n IH]; intros p; cbn [bits_from]; [lia|].
  specialize (IH (p + 1)). unfold bit_at.
  destruct (Z.testbit _ _); cbn [Z.b2z]; lia.
Qed.

Lemma GetValue_some (num_bits : Z) (r r' : BitReader) (v : Z) :
  GetValue num_bits r = Some (v, r') ->
  max_bytes r' = max_bytes r /\ bit_pos r' = bit_pos r + num_bits /\
  bit_pos r' <= 8 * max_bytes r /\ 0 <= v.
Proof.
  unfold GetValue.
  destruct (bit_pos r + num_bits >? max_bytes r * 8) eqn:H; [discriminate|].
  intros [= <- <-]. cbn [max_bytes bit_pos at_bit].
  rewrite Z.gtb_ltb in H. apply Z.ltb_ge in H.
  split; [reflexivity|]. split; [reflexivity|]. split; [lia|].
  apply bits_from_nonneg.
Qed.

Lemma vlq_count (bytes : list Z) :
  forall shift v count v' count',
    vlq bytes shift v count = Some (v', count') ->
    count < count' <= count + Z.of_nat (length bytes).
Proof.
  induction bytes as [|b rest IH]; intros shift v count v' count'; cbn [vlq length];
    [discriminate|].
  destruct (Z.land b 128 =? 0).
  - intros [= <- <-]. lia.
  - intros H. apply IH in H. lia.
Qed.

Lemma GetVlqInt_some (r r' : BitReader) (v : Z) :
  GetVlqInt r = Some (v, r') ->
  max_bytes r' = max_bytes r /\ bit_pos r < bit_pos r' <= 8 * max_bytes r.
Proof.
  unfold GetVlqInt.
  set (byte_offset := (bit_pos r + 7) / 8).
  destruct (vlq (aligned_bytes r byte_offset) 0 0 0) as [[v0 count]|] eqn:Hv;
    [|discriminate].
  intros Heq.
  assert (Hr : r' = at_bit r (8 * (byte_offset + count))) by congruence.
  rewrite Hr. unfold at_bit. cbn [max_bytes bit_pos].
  apply vlq_count in Hv. unfold aligned_bytes in Hv.
  rewrite length_map, length_seq in Hv.
  assert (Hbo : bit_pos r <= 8 * byte_offset < bit_pos r + 8).
  { unfold byte_offset.
    pose proof (Z.div_mod (bit_pos r + 7) 8 ltac:(lia)).
    pose proof (Z.mod_pos_bound (bit_pos r + 7) 8 ltac:(lia)). lia. }
  split; [reflexivity | lia].
Qed.

Lemma GetAligned_some (num_bytes : Z) (r r' : BitReader) (v : Z) :
  0 <= num_bytes ->
  GetAligned num_bytes r = Some (v, r') ->
  max_bytes r' = max_bytes r /\ bit_pos r <= bit_pos r' <= 8 * max_bytes r /\ 0 <= v.
Proof.
  unfold GetAligned. intros Hn.
  set (byte_offset := (bit_pos r + 7) / 8).
  destruct (byte_offset + num_bytes >? max_bytes r) eqn:H; [discriminate|].
  intros Heq.
  assert (Hr : r' = at_bit r (8 * (byte_offset + num_bytes))) by congruence.
  assert (Hv : v = bits_from r (8 * byte_offset) (Z.to_nat (8 * num_bytes)))
    by congruence.
  rewrite Hr, Hv. unfold at_bit. cbn [max_bytes bit_pos].
  rewrite Z.gtb_ltb in H. apply Z.ltb_ge in H.
  assert (Hbo : bit_pos r <= 8 * byte_offset).
  { unfold byte_offset.
    pose proof (Z.div_mod (bit_pos r + 7) 8 ltac:(lia)).
    pose proof (Z.mod_pos_bound (bit_pos r + 7) 8 ltac:(lia)). lia. }
  split; [reflexivity|]. split; [lia|]. apply bits_from_nonneg.
Qed.

Lemma uint32_nonneg (z : Z) : 0 <= uint32 z.
Proof. unfold uint32. apply Z.mod_pos_bound. reflexivity. Qed.

Lemma uint8_range (z : Z) : 0 <= uint8 z < 256.
Proof. unfold uint8. apply Z.mod_pos_bound. reflexivity. Qed.

Lemma uint8_le (z : Z) : 0 <= z -> uint8 z <= z.
Proof. intros H. unfold uint8. apply Z.mod_le; [exact H | reflexivity]. Qed.

(** A header that is read moves the reader forward and starts a run that is
    not empty. *)
Lemma NextCounts_some (d d' : RleDecoder) :
  0 <= bit_width_ d -> 0 <= repeat_count_ d -> 0 <= current_value_ d ->
  NextCounts d = Some d' ->
  bit_width_ d' = bit_width_ d /\
  max_bytes (bit_reader_ d') = max_bytes (bit_reader_ d) /\
  bit_pos (bit_reader_ d) < bit_pos (bit_reader_ d')
    <= 8 * max_bytes (bit_reader_ d) /\
  0 <= repeat_count_ d' /\ 0 <= current_value_ d'.
Proof.
  intros Hbw Hrc Hcv. unfold NextCounts.
  destruct (GetVlqInt (bit_reader_ d)) as [[indicator r]|] eqn:Hvlq; [|discriminate].
  apply GetVlqInt_some in Hvlq as (Hmax & Hpos).
  destruct (negb (Z.land indicator 1 =? 0)).
  - destruct (uint32 (Z.shiftr indicator 1 * 8) =? 0); [discriminate|].
    intros [= <-].
    cbn [bit_width_ bit_reader_ repeat_count_ current_value_].
    repeat split; try lia.
  - destruct (GetAligned ((bit_width_ d + 7) / 8) r) as [[value r']|] eqn:Hal;
      [|discriminate].
    apply GetAligned_some in Hal as (Hmax' & Hpos' & Hv);
      [|apply Z.div_pos; lia].
    destruct (uint32 (Z.shiftr indicator 1) =? 0); [discriminate|].
    intros [= <-].
    cbn [bit_width_ bit_reader_ repeat_count_ current_value_].
    pose proof (uint32_nonneg (Z.shiftr indicator 1)).
    repeat split; try lia.
Qed.

(** *** Stores into the cache *)

Lemma store_other (cache : list Z) (i v j : Z) :
  0 <= i -> 0 <= j -> j <> i ->
  nth (Z.to_nat j) (store cache i v) 0 = nth (Z.to_nat j) cache 0.
Proof.
  intros Hi Hj Hne. unfold store.
  destruct ((0 <=? i) && (i <? Z.of_nat (length cache))) eqn:Hin; [|reflexivity].
  apply andb_true_iff in Hin as [_ Hlt]. apply Z.ltb_lt in Hlt.
  set (i' := Z.to_nat i). set (j' := Z.to_nat j).
  assert (Hi' : (i' < length cache)%nat) by (unfold i'; lia).
  assert (Hne' : j' <> i') by (unfold i', j'; lia).
  destruct (Nat.lt_ge_cases j' i') as [Hlt'|Hge'].
  - rewrite app_nth1 by (rewrite length_firstn; lia).
    rewrite nth_firstn. destruct (Nat.ltb_spec j' i'); [reflexivity | lia].
  - rewrite app_nth2 by (rewrite length_firstn; lia).
    rewrite length_firstn, Nat.min_l by lia.
    destruct (j' - i')%nat as [|k] eqn:Hk; [lia|].
    cbn [app nth]. rewrite nth_skipn. f_equal. lia.
Qed.

Lemma store_same (cache : list Z) (i v : Z) :
  0 <= i ->
  nth (Z.to_nat i) (store cache i v) 0 = uint8 v \/
  nth (Z.to_nat i) (store cache i v) 0 = 0.
Proof.
  intros Hi. unfold store.
  destruct ((0 <=? i) && (i <? Z.of_nat (length cache))) eqn:Hin.
  - left. apply andb_true_iff in Hin as [_ Hlt]. apply Z.ltb_lt in Hlt.
    rewrite app_nth2 by (rewrite length_firstn; lia).
    rewrite length_firstn, Nat.min_l by lia.
    rewrite Nat.sub_diag. reflexivity.
  - right. apply nth_overflow.
    apply andb_false_iff in Hin as [Hin|Hin].
    + apply Z.leb_gt in Hin. lia.
    + apply Z.ltb_ge in Hin. lia.
Qed.

Lemma level_at_store_other (d : LevelDecoder) (i v j : Z) :
  0 <= i -> 0 <= j -> j <> i ->
  level_at (store_level d i v) j = level_at d j.
Proof.
  intros Hi Hj Hne. unfold level_at, store_level, with_cache.
  cbn [cached_levels_].
  destruct (cached_levels_ d) as [cache|]; cbn [option_map]; [|reflexivity].
  now apply store_other.
Qed.

Lemma level_at_store_same (d : LevelDecoder) (i v : Z) :
  0 <= i ->
  level_at (store_level d i v) i = uint8 v \/ level_at (store_level d i v) i = 0.
Proof.
  intros Hi. unfold level_at, store_level, with_cache. cbn [cached_levels_].
  destruct (cached_levels_ d) as [cache|]; cbn [option_map]; [|now right].
  now apply store_same.
Qed.

(** What a store leaves as it is. *)
Lemma store_level_fields (d : LevelDecoder) (i v : Z) :
  rle (store_level d i v) = rle d /\
  max_level_ (store_level d i v) = max_level_ d /\
  encoding_ (store_level d i v) = encoding_ d /\
  num_cached_levels_ (store_level d i v) = num_cached_levels_ d /\
  cached_level_idx_ (store_level d i v) = cached_level_idx_ d /\
  decoding_error_code_ (store_level d i v) = decoding_error_code_ d.
Proof. repeat split. Qed.

Lemma level_at_store_nonneg (d : LevelDecoder) (i v : Z) :
  0 <= i -> (forall j, 0 <= level_at d j) ->
  forall j, 0 <= level_at (store_level d i v) j.
Proof.
  intros Hi Hd j.
  destruct (Z.lt_ge_cases j 0) as [Hneg|Hj].
  - replace (level_at (store_level d i v) j)
      with (level_at (store_level d i v) 0).
    + destruct (Z.eq_dec 0 i) as [<-|Hne].
      * destruct (level_at_store_same d 0 v ltac:(lia)) as [-> | ->];
          [apply uint8_range | lia].
      * rewrite level_at_store_other by lia. apply Hd.
    + unfold level_at. destruct (cached_levels_ _); [|reflexivity].
      now replace (Z.to_nat j) with (Z.to_nat 0) by lia.
  - destruct (Z.eq_dec j i) as [->|Hne].
    + destruct (level_at_store_same d i v Hi) as [-> | ->];
        [apply uint8_range | lia].
    + rewrite level_at_store_other by lia. apply Hd.
Qed.

(** *** The loops of FillCache *)

Lemma same_stream_refl (d : LevelDecoder) : same_stream d d.
Proof. repeat split. Qed.

Lemma same_stream_trans (d1 d2 d3 : LevelDecoder) :
  same_stream d1 d2 -> same_stream d2 d3 -> same_stream d1 d3.
Proof.
  unfold same_stream. intros (A1 & A2 & A3 & A4 & A5) (B1 & B2 & B3 & B4 & B5).
  repeat split; congruence.
Qed.

(** [memset] of a level within range. *)
Lemma memset_levels_filling (v : Z) (k : nat) :
  forall (d : LevelDecoder) (n : Z),
    filling d n ->
    (k <> 0%nat -> uint8 v <= max_level_ d) ->
    let d' := memset_levels d n v k in
    filling d' (n + Z.of_nat k) /\ rle d' = rle d /\ same_stream d d' /\
    num_cached_levels_ d' = num_cached_levels_ d /\
    cached_level_idx_ d' = cached_level_idx_ d.
Proof.
  induction k as [|k IH]; intros d n Hfill Hv; cbn [memset_levels].
  - cbn [Z.of_nat]. rewrite Z.add_0_r. split; [exact Hfill|].
    split; [reflexivity|]. split; [apply same_stream_refl|]. split; reflexivity.
  - specialize (Hv ltac:(discriminate)).
    destruct Hfill as (Hn & Hmax & Hbw & Hpos & Hrc & Hcv & Hnn & Hrun & Hrange).
    assert (Hfill1 : filling (store_level d n v) (n + 1)).
    { unfold filling. cbn [store_level with_cache rle max_level_].
      repeat split; try assumption; try lia.
      - now apply level_at_store_nonneg.
      - destruct (Z.eq_dec i n) as [->|Hne].
        + destruct (level_at_store_same d n v Hn) as [-> | ->];
            [apply uint8_range | lia].
        + rewrite level_at_store_other by lia. apply Hrange. lia.
      - change (max_level_ (store_level d n v)) with (max_level_ d).
        destruct (Z.eq_dec i n) as [->|Hne].
        + destruct (level_at_store_same d n v Hn) as [-> | ->]; lia.
        + rewrite level_at_store_other by lia. apply Hrange. lia. }
    destruct (IH (store_level d n v) (n + 1) Hfill1 (fun _ => Hv))
      as (Hf & Hrle & Hsame & Hnum & Hidx).
    replace (n + Z.of_nat (S k)) with (n + 1 + Z.of_nat k) by lia.
    split; [exact Hf|]. split; [exact Hrle|]. split; [|split; assumption].
    eapply same_stream_trans; [|exact Hsame]. repeat split.
Qed.

Lemma level_at_with_reader (d : LevelDecoder) (r : BitReader) (i : Z) :
  level_at (with_reader d r) i = level_at d i.
Proof. reflexivity. Qed.

(** The loop that reads single levels: what it stores is within range when
    it does not return false, and the reader does not move back. *)
Lemma ReadLevels_filling (num_bits : Z) (count : nat) :
  0 <= num_bits ->
  forall (d : LevelDecoder) (n : Z),
    filling d n ->
    let '(valid, n', d') := ReadLevels num_bits count n d in
    same_stream d d' /\
    repeat_count_ (rle d') = repeat_count_ (rle d) /\
    literal_count_ (rle d') = literal_count_ (rle d) /\
    current_value_ (rle d') = current_value_ (rle d) /\
    num_cached_levels_ d' = num_cached_levels_ d /\
    cached_level_idx_ d' = cached_level_idx_ d /\
    bits_left d' <= bits_left d /\
    (valid = true -> filling d' n' /\ n' = n + Z.of_nat count).
Proof.
  intros Hbits. induction count as [|count IH]; intros d n Hfill;
    cbn [ReadLevels].
  - cbn [Z.of_nat]. rewrite Z.add_0_r. split; [apply same_stream_refl|].
    do 5 (split; [reflexivity|]). split; [lia|].
    intros _. split; [exact Hfill | reflexivity].
  - destruct (GetValue num_bits (bit_reader_ (rle d))) as [[v r]|] eqn:Hget.
    2:{ split; [apply same_stream_refl|].
        do 5 (split; [reflexivity|]). split; [lia | discriminate]. }
    apply GetValue_some in Hget as (Hmaxb & Hposr & Hle & Hv).
    destruct Hfill as (Hn & Hmax & Hbw & Hpos & Hrc & Hcv & Hnn & Hrun & Hrange).
    set (d1 := store_level (with_reader d r) n v).
    assert (Hleft : bits_left d1 <= bits_left d).
    { unfold bits_left, d1. cbn [store_level with_cache with_reader with_rle rle
                                  bit_reader_]. lia. }
    assert (Hsame1 : same_stream d d1).
    { unfold same_stream, d1.
      cbn [store_level with_cache with_reader with_rle rle bit_reader_ max_level_
           encoding_ bit_width_ decoding_error_code_].
      repeat split; try reflexivity. exact Hmaxb. }
    destruct (level_at d1 n >? max_level_ d1) eqn:Hcheck.
    { split; [exact Hsame1|].
      do 5 (split; [reflexivity|]). split; [exact Hleft | discriminate]. }
    rewrite Z.gtb_ltb in Hcheck. apply Z.ltb_ge in Hcheck.
    assert (Hfill1 : filling d1 (n + 1)).
    { unfold filling.
      assert (Hnn1 : forall j, 0 <= level_at d1 j).
      { unfold d1. apply level_at_store_nonneg; [exact Hn|].
        intros j. rewrite level_at_with_reader. apply Hnn. }
      unfold d1 at 2 3 4 5 6 7 8.
      cbn [store_level with_cache with_reader with_rle rle bit_reader_ max_level_
           bit_width_ bit_pos repeat_count_ current_value_].
      repeat split; try assumption; try lia.
      - apply Hnn1.
      - change (max_level_ d1) with (max_level_ d) in *.
        destruct (Z.eq_dec i n) as [->|Hne]; [exact Hcheck|].
        unfold d1. rewrite level_at_store_other by lia.
        rewrite level_at_with_reader. apply Hrange. lia. }
    specialize (IH d1 (n + 1) Hfill1).
    destruct (ReadLevels num_bits count (n + 1) d1) as [[valid n'] d'].
    destruct IH as (Hs & H1 & H2 & H3 & H4 & H5 & H6 & H7).
    split; [eapply same_stream_trans; eassumption|].
    split; [exact H1|]. split; [exact H2|]. split; [exact H3|].
    split; [exact H4|]. split; [exact H5|]. split; [lia|].
    intros Hvalid. destruct (H7 Hvalid) as [Hf ->]. split; [exact Hf | lia].
Qed.

(** [filling] looks at the maximum level, the RLE counters and the cached
    levels only. *)
Lemma filling_update (d d' : LevelDecoder) (n : Z) :
  filling d n ->
  max_level_ d' = max_level_ d ->
  (forall i, level_at d' i = level_at d i) ->
  0 <= bit_width_ (rle d') ->
  0 <= bit_pos (bit_reader_ (rle d')) ->
  0 <= repeat_count_ (rle d') ->
  0 <= current_value_ (rle d') ->
  (0 < repeat_count_ (rle d') -> current_value_ (rle d') <= max_level_ d') ->
  filling d' n.
Proof.
  intros (Hn & Hmax & _ & _ & _ & _ & Hnn & _ & Hrange) Hm Hl Hbw Hpos Hrc Hcv Hrun.
  unfold filling. rewrite Hm.
  split; [exact Hn|]. split; [exact Hmax|]. split; [exact Hbw|].
  split; [exact Hpos|]. split; [exact Hrc|]. split; [exact Hcv|].
  split; [intros i; rewrite Hl; apply Hnn|].
  split; [now rewrite <- Hm|].
  intros i Hi. unfold levels_in_range in Hrange. rewrite Hl, Hm. now apply Hrange.
Qed.

Lemma filling_fewer (d : LevelDecoder) (n m : Z) :
  filling d n -> 0 <= m <= n -> filling d m.
Proof.
  intros (Hn & Hmax & Hbw & Hpos & Hrc & Hcv & Hnn & Hrun & Hrange) Hm.
  unfold filling. repeat (split; [assumption || lia|]).
  intros i Hi. apply Hrange. lia.
Qed.

(** The RLE loop of [FillCache]: it comes to an end within the rounds it is
    given, and when it returns true the whole batch is within range. *)
Lemma FillCacheRle_spec (batch_size : Z) (fuel : nat) :
  forall (d : LevelDecoder) (n : Z),
    filling d n ->
    (Z.max 0 (bits_left d) < Z.of_nat fuel ->
     FillCacheRle fuel batch_size n d <> None) /\
    (forall d', FillCacheRle fuel batch_size n d = Some (true, d') ->
       filling d' batch_size /\ num_cached_levels_ d' = batch_size /\
       cached_level_idx_ d' = cached_level_idx_ d /\ same_stream d d').
Proof.
  induction fuel as [|fuel IH]; intros d n Hfill.
  { split; [cbn [Z.of_nat]; lia | discriminate]. }
  cbn [FillCacheRle].
  set (k := Z.min (repeat_count_ (rle d)) (uint32 (batch_size - n))).
  pose proof (uint32_nonneg (batch_size - n)) as Hu.
  pose proof Hfill as (Hn & Hmax & Hbw & Hpos & Hrc & Hcv & Hnn & Hrun & Hrange).
  assert (Hk : 0 <= k <= repeat_count_ (rle d)) by (unfold k; lia).
  (* the repeated values *)
  destruct (memset_levels_filling (current_value_ (rle d)) (Z.to_nat k) d n Hfill)
    as (Hfill1 & Hrle1 & Hsame1 & Hnum1 & Hidx1).
  { intros Hk0. pose proof (uint8_le (current_value_ (rle d)) Hcv). 
    assert (0 < repeat_count_ (rle d)) by lia. specialize (Hrun ltac:(lia)). lia. }
  rewrite Z2Nat.id in Hfill1 by lia.
  set (d1 := memset_levels d n (current_value_ (rle d)) (Z.to_nat k)) in *.
  set (d2 := with_counts d1 (repeat_count_ (rle d1) - k) (literal_count_ (rle d1))).
  assert (Hfill2 : filling d2 (n + k)).
  { apply (filling_update d1); try assumption; try reflexivity;
      unfold d2; cbn [with_counts with_rle rle bit_width_ bit_reader_ repeat_count_
                      current_value_ max_level_]; rewrite ?Hrle1;
      try assumption; try lia.
    - destruct Hsame1 as (Hm & _). rewrite Hm. intros Hpos'. apply Hrun. lia. }
  assert (Hleft2 : bits_left d2 = bits_left d).
  { unfold bits_left, d2. cbn [with_counts with_rle rle bit_reader_].
    now rewrite Hrle1. }
  assert (Hsame2 : same_stream d d2).
  { eapply same_stream_trans; [exact Hsame1|]. repeat split. }
  set (nl := Z.min (literal_count_ (rle d2)) (uint32 (batch_size - (n + k)))).
  set (count := Z.to_nat (Z.min (uint32 (n + k + literal_count_ (rle d2)))
                            (uint32 batch_size) - (n + k))).
  (* the literal values *)
  pose proof (ReadLevels_filling (bit_width_ (rle d2)) count
                ltac:(destruct Hfill2 as (_ & _ & H & _); exact H)
                d2 (n + k) Hfill2) as Hread.
  destruct (ReadLevels (bit_width_ (rle d2)) count (n + k) d2) as [[valid n3] d3].
  destruct Hread as (Hsame3 & Hrc3 & Hlc3 & Hcv3 & Hnum3 & Hidx3 & Hleft3 & Hvalid).
  destruct valid; cbn [negb]; [|split; [discriminate | discriminate]].
  destruct (Hvalid eq_refl) as (Hfill3 & Hn3).
  set (d4 := with_counts d3 (repeat_count_ (rle d3)) (literal_count_ (rle d3) - nl)).
  assert (Hfill4 : filling d4 n3).
  { pose proof Hfill3 as (_ & _ & ? & ? & ? & ? & _ & ? & _).
    apply (filling_update d3); try assumption; reflexivity. }
  assert (Hleft4 : bits_left d4 <= bits_left d).
  { unfold bits_left in *. unfold d4.
    cbn [with_counts with_rle rle bit_reader_]. lia. }
  assert (Hsame4 : same_stream d d4).
  { eapply same_stream_trans; [exact Hsame2|].
    eapply same_stream_trans; [exact Hsame3|]. repeat split. }
  assert (Hidx4 : cached_level_idx_ d4 = cached_level_idx_ d).
  { unfold d4. cbn [with_counts with_rle cached_level_idx_].
    rewrite Hidx3. unfold d2. cbn [with_counts with_rle cached_level_idx_].
    exact Hidx1. }
  destruct (n3 =? batch_size) eqn:Hdone.
  { apply Z.eqb_eq in Hdone. split; [discriminate|].
    intros d' [= <-]. subst n3. rewrite <- Hdone.
    split; [|split; [reflexivity | split; [exact Hidx4|]]].
    - apply (filling_update d4); try assumption; try reflexivity;
        destruct Hfill4 as (_ & _ & ? & ? & ? & ? & _ & ? & _); assumption.
    - eapply same_stream_trans; [exact Hsame4|]. repeat split. }
  destruct (NextCounts (rle d4)) as [r|] eqn:Hnext;
    [|split; [discriminate | discriminate]].
  pose proof Hfill4 as (_ & _ & Hbw4 & Hpos4 & Hrc4 & Hcv4 & _ & _ & _).
  destruct (NextCounts_some (rle d4) r Hbw4 Hrc4 Hcv4 Hnext)
    as (Hbw5 & Hmax5 & Hpos5 & Hrc5 & Hcv5).
  set (d5 := with_rle d4 r).
  destruct ((repeat_count_ r >? 0) && (current_value_ r >? max_level_ d5)) eqn:Hchk;
    [split; [discriminate | discriminate]|].
  assert (Hfill5 : filling d5 n3).
  { apply (filling_update d4); try assumption; try reflexivity;
      unfold d5; cbn [with_rle rle max_level_]; try lia.
    intros Hpos'. apply andb_false_iff in Hchk as [Hchk|Hchk].
    - rewrite Z.gtb_ltb in Hchk. apply Z.ltb_ge in Hchk. lia.
    - rewrite Z.gtb_ltb in Hchk. apply Z.ltb_ge in Hchk. exact Hchk. }
  assert (Hleft5 : 0 <= bits_left d5 < bits_left d).
  { unfold bits_left in *. unfold d5. cbn [with_rle rle]. lia. }
  destruct (IH d5 n3 Hfill5) as (IHsome & IHtrue).
  split.
  - intros Hfuel. apply IHsome. lia.
  - intros d' Hrun'. destruct (IHtrue d' Hrun') as (Hf & Hnum & Hidx & Hsame).
    split; [exact Hf|]. split; [exact Hnum|]. split.
    + rewrite Hidx. exact Hidx4.
    + eapply same_stream_trans; [exact Hsame4|].
      eapply same_stream_trans; [|exact Hsame].
      unfold same_stream, d5.
      cbn [with_rle rle max_level_ encoding_ decoding_error_code_].
      repeat split; assumption.
Qed.

(** *** The decoder between calls *)

Lemma new_decoder_well_formed (is_def : bool) : well_formed (new_decoder is_def).
Proof.
  unfold well_formed, filling, levels_in_range, new_decoder, level_at.
  cbn. repeat split; try lia; intros; lia.
Qed.

Lemma level_at_zeros (n : nat) (i : Z) : nth (Z.to_nat i) (repeat 0 n) 0 = 0.
Proof.
  destruct (Nat.lt_ge_cases (Z.to_nat i) n) as [H|H].
  - apply nth_repeat_lt. exact H.
  - apply nth_overflow. rewrite repeat_length. exact H.
Qed.

(** [Init] leaves a decoder that is well formed, with an empty cache
    window, when it starts from a new decoder or from a well-formed one of
    the same maximum level. *)
Lemma Init_well_formed (encoding : Encoding) (allocated : bool)
    (cache_size max_level num_buffered_values : Z) (data data' : list Z)
    (d d' : LevelDecoder) :
  0 <= max_level ->
  well_formed d ->
  (max_level_ d = max_level \/ exists is_def, d = new_decoder is_def) ->
  Init encoding allocated cache_size max_level num_buffered_values data d
    = (OK, d', data') ->
  well_formed d' /\ max_level_ d' = max_level /\
  num_cached_levels_ d' = 0 /\ cached_level_idx_ d' = 0.
Proof.
  intros Hmax [Hfill Hzero] Hprev.
  destruct Hfill as (_ & _ & Hbw & Hpos & Hrc & Hcv & Hnn & Hrun & _).
  set (cache' := match cached_levels_ d with
                 | Some c => Some c
                 | None => Some (repeat 0 (Z.to_nat cache_size))
                 end).
  (* the levels in the cache after InitCache *)
  assert (Hcache : forall i,
            0 <= match cache' with Some c => nth (Z.to_nat i) c 0 | None => 0 end /\
            (max_level = 0 ->
             match cache' with Some c => nth (Z.to_nat i) c 0 | None => 0 end = 0)).
  { intros i. unfold cache'. unfold level_at in Hnn, Hzero.
    destruct (cached_levels_ d) as [c|] eqn:Hc.
    - split; [apply (Hnn i)|]. intros Hm.
      destruct Hprev as [Hp|[b ->]]; [|discriminate]. apply Hzero. congruence.
    - rewrite level_at_zeros. split; [lia | reflexivity]. }
  assert (Hwf : forall (r : RleDecoder) num idx enc csz nbv code,
            0 <= bit_width_ r -> 0 <= bit_pos (bit_reader_ r) ->
            0 <= repeat_count_ r -> 0 <= current_value_ r ->
            (0 < repeat_count_ r -> current_value_ r <= max_level) ->
            well_formed (mkLevelDecoder r cache' num idx enc max_level csz nbv code)).
  { intros r num idx enc csz nbv code H1 H2 H3 H4 H5.
    unfold well_formed, filling, levels_in_range, level_at.
    cbn [rle max_level_ cached_levels_].
    split; [|intros Hm i; now apply (Hcache i)].
    repeat (split; [assumption || lia|]).
    split; [intros i; apply (Hcache i)|].
    split; [exact H5|]. intros i Hi. lia. }
  assert (Hrun' : 0 < repeat_count_ (rle d) -> current_value_ (rle d) <= max_level).
  { intros Hp. destruct Hprev as [<-|[b ->]]; [now apply Hrun|].
    cbn in Hp. lia. }
  unfold Init, InitCache.
  cbn [with_cursor cached_levels_ rle num_cached_levels_ cached_level_idx_ encoding_
       max_level_ cache_size_ num_buffered_values_ decoding_error_code_ with_cache].
  destruct (cached_levels_ d) as [c|] eqn:Hc.
  - (* the cache is there already *)
    cbn [ok negb].
    destruct (max_level =? 0).
    { intros [= <- _]. cbn [max_level_ num_cached_levels_ cached_level_idx_].
      split; [|auto]. now apply Hwf. }
    destruct encoding; try discriminate.
    + destruct (read_int32 data) as [[num_bytes rest]|]; [|discriminate].
      destruct (num_bytes <? 0); [discriminate|].
      intros [= <- _]. cbn [with_rle max_level_ num_cached_levels_ cached_level_idx_].
      split; [|auto]. apply Hwf; cbn; try lia. apply Z.log2_up_nonneg.
    + intros [= <- _]. cbn [with_rle max_level_ num_cached_levels_ cached_level_idx_].
      split; [|auto]. apply Hwf; cbn [bit_width_ bit_reader_ bit_pos repeat_count_
                                       current_value_]; try assumption; lia.
  - destruct allocated; cbn [ok negb]; [|discriminate].
    destruct (max_level =? 0).
    { intros [= <- _]. cbn [max_level_ num_cached_levels_ cached_level_idx_].
      split; [|auto]. now apply Hwf. }
    destruct encoding; try discriminate.
    + destruct (read_int32 data) as [[num_bytes rest]|]; [|discriminate].
      destruct (num_bytes <? 0); [discriminate|].
      intros [= <- _]. cbn [with_rle max_level_ num_cached_levels_ cached_level_idx_].
      split; [|auto]. apply Hwf; cbn; try lia. apply Z.log2_up_nonneg.
    + intros [= <- _]. cbn [with_rle max_level_ num_cached_levels_ cached_level_idx_].
      split; [|auto]. apply Hwf; cbn [bit_width_ bit_reader_ bit_pos repeat_count_
                                       current_value_]; try assumption; lia.
Qed.

Lemma with_cursor_filling (d : LevelDecoder) (n num idx : Z) :
  filling d n -> filling (with_cursor d num idx) n.
Proof.
  intros H. pose proof H as (_ & _ & ? & ? & ? & ? & _ & ? & _).
  apply (filling_update d); try assumption; reflexivity.
Qed.

(** The cache path.  On a well-formed decoder [CacheNextBatch] returns (the
    loop of [FillCache] comes to an end), and when its status is OK the
    decoder is well formed again and the [batch_size] levels of the new cache
    window lie between 0 and [max_level_]. *)
Lemma CacheNextBatch_levels_in_range (batch_size : Z) (d : LevelDecoder) :
  well_formed d -> 0 <= batch_size ->
  exists status d',
    CacheNextBatch batch_size d = Some (status, d') /\
    (status = OK ->
       well_formed d' /\ max_level_ d' = max_level_ d /\
       num_cached_levels_ d' = batch_size /\ cached_level_idx_ d' = 0 /\
       levels_in_range d' batch_size).
Proof.
  intros [Hfill Hzero] Hbatch. unfold CacheNextBatch.
  set (d0 := with_cursor d (num_cached_levels_ d) 0).
  assert (Hfill0 : filling d0 0) by now apply with_cursor_filling.
  change (max_level_ d0) with (max_level_ d).
  destruct (max_level_ d >? 0) eqn:Hlevels.
  2:{ (* no levels to read *)
      eexists _, _. split; [reflexivity|]. intros _.
      rewrite Z.gtb_ltb in Hlevels. apply Z.ltb_ge in Hlevels.
      destruct Hfill as (_ & Hmax & _).
      assert (Hm : max_level_ d = 0) by lia.
      split; [|split; [reflexivity | split; [reflexivity | split; [reflexivity|]]]].
      - split; [now apply with_cursor_filling | exact Hzero].
      - intros i _. change (level_at (with_cursor d0 batch_size 0) i)
                      with (level_at d i).
        change (max_level_ (with_cursor d0 batch_size 0)) with (max_level_ d).
        rewrite (Hzero Hm i). lia. }
  rewrite Z.gtb_ltb in Hlevels. apply Z.ltb_lt in Hlevels.
  assert (Hdone : forall d',
            filling d' batch_size -> same_stream d0 d' ->
            num_cached_levels_ d' = batch_size ->
            cached_level_idx_ d' = cached_level_idx_ d0 ->
            well_formed d' /\ max_level_ d' = max_level_ d /\
            num_cached_levels_ d' = batch_size /\ cached_level_idx_ d' = 0 /\
            levels_in_range d' batch_size).
  { intros d' Hf (Hm & _) Hnum Hidx.
    change (max_level_ d0) with (max_level_ d) in Hm.
    split; [split; [apply (filling_fewer d' batch_size 0 Hf); lia|]|].
    - intros Hz. lia.
    - split; [exact Hm|]. split; [exact Hnum|]. split; [exact Hidx|].
      apply Hf. }
  unfold FillCache.
  destruct (encoding_ d0) eqn:Henc.
  3:{ (* RLE *)
    destruct (FillCacheRle_spec batch_size (rounds d0) d0 0 Hfill0) as (Hsome & Htrue).
    destruct (FillCacheRle (rounds d0) batch_size 0 d0) as [[[|] d']|] eqn:Hrun.
    + exists OK, d'. split; [reflexivity|]. intros _.
      destruct (Htrue d' eq_refl) as (Hf & Hnum & Hidx & Hsame).
      now apply Hdone.
    + eexists _, _. split; [reflexivity | discriminate].
    + exfalso. apply Hsome; [|reflexivity].
      unfold rounds, bits_left.
      destruct Hfill0 as (_ & _ & _ & Hpos & _). lia. }
  (* any other encoding runs the bit-packed loop *)
  all: pose proof (ReadLevels_filling 1 (Z.to_nat batch_size) ltac:(lia) d0 0 Hfill0)
         as Hread;
       destruct (ReadLevels 1 (Z.to_nat batch_size) 0 d0) as [[valid n'] d'];
       destruct Hread as (Hsame & _ & _ & _ & Hnum & Hidx & _ & Hvalid);
       destruct valid; cbn [negb];
       [ destruct (Hvalid eq_refl) as (Hf & Hn');
         rewrite Z.add_0_l, Z2Nat.id in Hn' by lia; subst n';
         eexists _, _; (split; [reflexivity|]); intros _;
         apply Hdone; try reflexivity;
         [ now apply with_cursor_filling
         | eapply same_stream_trans; [exact Hsame|]; repeat split
         | cbn [with_cursor cached_level_idx_]; exact Hidx ]
       | eexists _, _; split; [reflexivity | discriminate] ].
Qed.

(** A level taken from the cache window is within range. *)
Lemma CacheGetNext_in_range (d : LevelDecoder) :
  levels_in_range d (num_cached_levels_ d) ->
  0 <= cached_level_idx_ d ->
  CacheHasNext d = true ->
  0 <= fst (CacheGetNext d) <= max_level_ d /\
  levels_in_range (snd (CacheGetNext d)) (num_cached_levels_ (snd (CacheGetNext d))) /\
  max_level_ (snd (CacheGetNext d)) = max_level_ d.
Proof.
  intros Hrange Hidx Hnext. unfold CacheHasNext in Hnext. apply Z.ltb_lt in Hnext.
  unfold CacheGetNext. cbn [fst snd with_cursor num_cached_levels_ max_level_].
  split; [apply Hrange; lia|]. split; [exact Hrange | reflexivity].
Qed.

(** C3, at the input on which the code departs from it.  The definition
    levels of a column with maximum level 2 arrive RLE encoded as a repeated
    run of the value 3.  [Init] accepts the data; [ReadLevel] then hands the
    level 3 to its caller, although 3 exceeds the maximum level and decoding
    ought to fail; on the same decoder [CacheNextBatch] does fail, with the
    definition level error. *)
Theorem C3_ReadLevel_exceeds_max_level :
  let '(status, d, _) := Init RLE true 4 2 1 sample_level_data (new_decoder true) in
  status = OK /\ max_level_ d = 2 /\
  fst (ReadLevel d) = 3 /\
  exists d', CacheNextBatch 1 d = Some (Error PARQUET_DEF_LEVEL_ERROR EmptyString, d').
Proof.
  cbv zeta. vm_compute.
  split; [reflexivity|]. split; [reflexivity|]. split; [reflexivity|].
  eexists. reflexivity.
Qed.

(** [ReadLevel] passes on what the RLE decoder yields, whatever [max_level_]
    is. *)
Lemma ReadLevel_passes_on (d : LevelDecoder) (level : Z) (r : RleDecoder) :
  encoding_ d = RLE -> Get (rle d) = Some (level, r) ->
  ReadLevel d = (level, with_rle d r).
Proof. intros Henc Hget. unfold ReadLevel. now rewrite Henc, Hget. Qed.

(** On level data that ends too early (one byte that announces a literal
    run of eight levels) [ReadLevel] yields INVALID_LEVEL. *)
Lemma ReadLevel_underflow :
  let '(status, d, _) := Init RLE true 4 2 1 [1; 0; 0; 0; 3] (new_decoder true) in
  status = OK /\ fst (ReadLevel d) = INVALID_LEVEL.
Proof. vm_compute. split; reflexivity. Qed.

End LevelFacts.

(** ** Schema resolution *)

Section SchemaFacts.

Import Schema.

Variable col_descs : list (string * ColumnType).
Variable num_partition_keys : Z.
Variable resolve_by_name : bool.
Variable schema_ : SchemaNode.
Variable IMPALA_TO_PARQUET_TYPES : PrimitiveType -> ParquetType.
Variable ARRAY_POS : Z.
Variable MAP_KEY : Z.

Local Abbreviation ResolvePathFrom :=
  (ResolvePathFrom col_descs num_partition_keys resolve_by_name
     IMPALA_TO_PARQUET_TYPES ARRAY_POS MAP_KEY).
Local Abbreviation ResolvePathHelper :=
  (ResolvePathHelper col_descs num_partition_keys resolve_by_name schema_
     IMPALA_TO_PARQUET_TYPES ARRAY_POS MAP_KEY).
Local Abbreviation ResolvePath :=
  (ResolvePath col_descs num_partition_keys resolve_by_name schema_
     IMPALA_TO_PARQUET_TYPES ARRAY_POS MAP_KEY).

(** A resolution under one convention reports a missing field only with an
    OK status and without a node (the DCHECKs of [ResolvePath]). *)
Lemma ResolvePathFrom_missing_is_ok (array_encoding : ArrayEncoding)
    (rest : list Z) :
  forall (first : bool) (node_ : SchemaNode) (col_type : option ColumnType)
         (r : Resolution),
    ResolvePathFrom array_encoding rest first node_ col_type = Some r ->
    missing_field r = true -> status r = OK /\ node r = None.
Proof.
  induction rest as [|table_idx rest IH]; intros first node_ col_type r;
    cbn [Schema.ResolvePathFrom].
  - intros [= <-]. discriminate.
  - lazymatch goal with
    | |- match ?x with _ => _ end = _ -> _ => destruct x as [[n|]|]
    end; [| |discriminate].
    2:{ intros [= <-] _. auto. }
    lazymatch goal with
    | |- match ?x with _ => _ end = _ -> _ => destruct x as [t|]
    end; [|discriminate].
    destruct (is_type TYPE_ARRAY t).
    { destruct (ResolveArray ARRAY_POS array_encoding (hd_error rest) n)
        as [[[|code msg] [n'|]] [|]]; try (intros [= <-]; discriminate).
      apply IH. }
    destruct (is_type TYPE_MAP t).
    { destruct (ResolveMap n) as [[|code msg] [n'|]];
        try (intros [= <-]; discriminate).
      apply IH. }
    destruct (is_type TYPE_STRUCT t); [apply IH|].
    destruct (ValidateScalarNode IMPALA_TO_PARQUET_TYPES n t);
      [apply IH | intros [= <-]; discriminate].
Qed.

Lemma ResolvePathHelper_missing_is_ok (array_encoding : ArrayEncoding)
    (path : list Z) (r : Resolution) :
  ResolvePathHelper array_encoding path = Some r ->
  missing_field r = true -> status r = OK /\ node r = None.
Proof. apply ResolvePathFrom_missing_is_ok. Qed.

(** A convention that neither resolves the path nor reports a missing field
    has failed with an error. *)
Lemma unresolved_is_error (array_encoding : ArrayEncoding) (path : list Z)
    (r : Resolution) :
  ResolvePathHelper array_encoding path = Some r ->
  resolved r = false -> missing_field r = false -> ok (status r) = false.
Proof.
  intros _ Hres Hmiss. unfold resolved in Hres. rewrite Hmiss in Hres.
  now rewrite andb_true_r in Hres.
Qed.

(** C6: ResolvePath tries the two-level, the three-level and the one-level
    convention in this order and returns the node (and the position flag) of
    the first that resolves the path without reporting a missing field; when
    none does but at least one reports a missing field it returns OK with
    missing_field set and no node; when all three fail with an error it
    returns the status of the three-level convention and no node. *)
Theorem C6_resolve_path_order (path : list Z) (two three one : Resolution) :
  ResolvePathHelper TWO_LEVEL path = Some two ->
  ResolvePathHelper THREE_LEVEL path = Some three ->
  ResolvePathHelper ONE_LEVEL path = Some one ->
  exists r,
    ResolvePath path = Some r /\
    (resolved two = true ->
       r = mkResolution OK (node two) (pos_field two) false) /\
    (resolved two = false -> resolved three = true ->
       r = mkResolution OK (node three) (pos_field three) false) /\
    (resolved two = false -> resolved three = false -> resolved one = true ->
       r = mkResolution OK (node one) (pos_field one) false) /\
    (resolved two = false -> resolved three = false -> resolved one = false ->
       (missing_field two = true \/ missing_field three = true \/
        missing_field one = true ->
          status r = OK /\ node r = None /\ missing_field r = true) /\
       (ok (status two) = false -> ok (status three) = false ->
        ok (status one) = false ->
          status r = status three /\ node r = None /\ missing_field r = false)).
Proof.
  intros H2 H3 H1. unfold Schema.ResolvePath. rewrite H2.
  destruct (resolved two) eqn:R2.
  { eexists. split; [reflexivity|]. repeat split; intros; congruence. }
  rewrite H3. destruct (resolved three) eqn:R3.
  { eexists. split; [reflexivity|]. repeat split; intros; congruence. }
  rewrite H1. destruct (resolved one) eqn:R1.
  { eexists. split; [reflexivity|]. repeat split; intros; congruence. }
  destruct (missing_field one || missing_field two || missing_field three) eqn:Hm.
  - eexists. split; [reflexivity|].
    split; [discriminate|]. split; [discriminate|]. split; [discriminate|].
    intros _ _ _. split; [intros _; auto|].
    intros E2 E3 E1. exfalso.
    apply orb_true_iff in Hm as [Hm|Hm]; [apply orb_true_iff in Hm as [Hm|Hm]|].
    + destruct (ResolvePathHelper_missing_is_ok _ _ _ H1 Hm) as [Hok _].
      rewrite Hok in E1. discriminate.
    + destruct (ResolvePathHelper_missing_is_ok _ _ _ H2 Hm) as [Hok _].
      rewrite Hok in E2. discriminate.
    + destruct (ResolvePathHelper_missing_is_ok _ _ _ H3 Hm) as [Hok _].
      rewrite Hok in E3. discriminate.
  - eexists. split; [reflexivity|].
    split; [discriminate|]. split; [discriminate|]. split; [discriminate|].
    intros _ _ _. apply orb_false_iff in Hm as [Hm M3].
    apply orb_false_iff in Hm as [M1 M2]. split.
    + intros [H|[H|H]]; congruence.
    + intros _ _ _. auto.
Qed.

End SchemaFacts.

(** The column [tags ARRAY<INT>] of the sample table, stored in the
    three-level encoding, with 1 for [ARRAY_POS] and 0 for [MAP_KEY]: the
    two-level convention fails, the three-level convention resolves the
    item. *)
Lemma C6_resolve_path_witness :
  Schema.ResolvePath Schema.sample_col_descs 0 false Schema.sample_schema
    Schema.sample_parquet_type 1 0 [1; 0]
  = Some (Schema.mkResolution OK (Some Schema.sample_item) false false).
Proof.
  destruct (C6_resolve_path_order Schema.sample_col_descs 0 false Schema.sample_schema
              Schema.sample_parquet_type 1 0 [1; 0] _ _ _ eq_refl eq_refl eq_refl)
    as (r & Hr & _ & Hthree & _).
  rewrite Hr. f_equal. apply Hthree; reflexivity.
Defined.

(** ** MinMaxVal comparisons *)

Section MinMaxCompareFacts.

Import MinMaxValue MinMaxCompare.

Variable numtype : Type.
Variable lt : numtype -> numtype -> bool.
Variable le : numtype -> numtype -> bool.

(** [<=] is a total preorder and [<] its strict part, as for the integer
    types. *)
Hypothesis le_refl : forall a, le a a = true.
Hypothesis le_trans : forall a b c, le a b = true -> le b c = true -> le a c = true.
Hypothesis le_total : forall a b, le a b = true \/ le b a = true.
Hypothesis lt_not_le : forall a b, lt a b = negb (le b a).

Local Abbreviation within := (within le).
Local Abbreviation compare_ranges := (compare_ranges numtype lt le).
Local Abbreviation compare_range_value := (compare_range_value numtype lt le).
Local Abbreviation compare_values := (compare_values numtype lt le).

Lemma lt_true (a b : numtype) : lt a b = true <-> le b a = false.
Proof. rewrite lt_not_le. apply negb_true_iff. Qed.

Lemma le_false_le (a b : numtype) : le a b = false -> le b a = true.
Proof. intros H. destruct (le_total a b) as [H'|H']; congruence. Qed.

Lemma lt_le_trans (a b c : numtype) :
  lt a b = true -> le b c = true -> lt a c = true.
Proof.
  rewrite !lt_true. intros Hab Hbc.
  destruct (le c a) eqn:Hca; [|reflexivity].
  rewrite (le_trans b c a Hbc Hca) in Hab. discriminate.
Qed.

Lemma le_lt_trans (a b c : numtype) :
  le a b = true -> lt b c = true -> lt a c = true.
Proof.
  rewrite !lt_true. intros Hab Hbc.
  destruct (le c a) eqn:Hca; [|reflexivity].
  rewrite (le_trans c a b Hca Hab) in Hbc. discriminate.
Qed.

(** X1: a comparison of two ranges that are not empty holds exactly when
    it holds of some value of the first and some value of the second range,
    for [==], [>], [>=], [<] and [<=]; [!=] is the negation of [==] and holds
    exactly when every value of the first range differs from every value of
    the second. *)
Theorem MinMaxVal_compare_ranges (a b : MinMaxVal numtype) :
  le (min a) (max a) = true -> le (min b) (max b) = true ->
  (forall op, op <> NE ->
     (compare_ranges op a b = true <->
      exists x y, within x a /\ within y b /\ compare_values op x y = true)) /\
  compare_ranges NE a b = negb (compare_ranges EQ a b) /\
  (compare_ranges NE a b = true <->
   forall x y, within x a -> within y b -> compare_values NE x y = true).
Proof.
  intros Ha Hb.
  assert (Heq : compare_ranges EQ a b = true <->
                exists x y, within x a /\ within y b /\ compare_values EQ x y = true).
  { cbn. unfold op_eq, ge. rewrite andb_true_iff. split.
    - intros [H1 H2].
      destruct (le_total (min a) (min b)) as [Hm|Hm].
      + exists (min b), (min b). unfold MinMaxCompare.within.
        rewrite !le_refl. repeat split; auto.
      + exists (min a), (min a). unfold MinMaxCompare.within.
        rewrite !le_refl. repeat split; auto.
    - intros (x & y & [Hx1 Hx2] & [Hy1 Hy2] & Hxy).
      apply andb_true_iff in Hxy as [Hxy Hyx]. split.
      + apply (le_trans _ y); [assumption|]. now apply (le_trans _ x).
      + apply (le_trans _ x); [assumption|]. now apply (le_trans _ y). }
  assert (Hne : compare_ranges NE a b = negb (compare_ranges EQ a b)).
  { cbn. unfold op_ne, op_eq, gt, ge. rewrite !lt_not_le, negb_andb.
    reflexivity. }
  split; [|split; [exact Hne|]].
  - intros op Hop. destruct op; try contradiction; try exact Heq; cbn.
    + (* > *) unfold op_gt, gt. split.
      * intros H. exists (max a), (min b). unfold MinMaxCompare.within.
        rewrite !le_refl. repeat split; auto.
      * intros (x & y & [Hx1 Hx2] & [Hy1 Hy2] & Hxy).
        apply (lt_le_trans _ x); [|assumption]. now apply (le_lt_trans _ y).
    + (* >= *) unfold op_ge, ge. split.
      * intros H. exists (max a), (min b). unfold MinMaxCompare.within.
        rewrite !le_refl. repeat split; auto.
      * intros (x & y & [Hx1 Hx2] & [Hy1 Hy2] & Hxy).
        apply (le_trans _ x); [|assumption]. now apply (le_trans _ y).
    + (* < *) unfold op_lt. split.
      * intros H. exists (min a), (max b). unfold MinMaxCompare.within.
        rewrite !le_refl. repeat split; auto.
      * intros (x & y & [Hx1 Hx2] & [Hy1 Hy2] & Hxy).
        apply (le_lt_trans _ x); [assumption|]. now apply (lt_le_trans _ y).
    + (* <= *) unfold op_le. split.
      * intros H. exists (min a), (max b). unfold MinMaxCompare.within.
        rewrite !le_refl. repeat split; auto.
      * intros (x & y & [Hx1 Hx2] & [Hy1 Hy2] & Hxy).
        apply (le_trans _ x); [assumption|]. now apply (le_trans _ y).
  - rewrite Hne, negb_true_iff. split.
    + intros Hno x y Hx Hy. cbn. apply negb_true_iff.
      destruct (le x y && le y x) eqn:Hxy; [|reflexivity].
      assert (Hex : compare_ranges EQ a b = true)
        by (apply Heq; exists x, y; auto).
      congruence.
    + intros Hall. destruct (compare_ranges EQ a b) eqn:Hc; [|reflexivity].
      destruct (proj1 Heq eq_refl) as (x & y & Hx & Hy & Hxy).
      specialize (Hall x y Hx Hy). cbn in Hall, Hxy.
      rewrite Hxy in Hall. discriminate.
Qed.

(** X2: for [==], [>], [>=], [<] and [<=], comparing a range with a
    value gives what comparing it with the range that holds just this value
    gives, at every numtype.  For [!=] this holds at the types whose [<] is
    the negation of the reversed [<=], which are the integer types; at double
    it fails for a NaN: the range [6, 12] is [!=] NaN, and it is not [!=] the
    range that holds just NaN. *)
Theorem MinMaxVal_compare_value_as_range (a : MinMaxVal numtype) (v : numtype) :
  (forall op, op <> NE ->
     compare_range_value op a v = compare_ranges op a (construct v v)) /\
  ((forall x y, lt x y = negb (le y x)) ->
     compare_range_value NE a v = compare_ranges NE a (construct v v)) /\
  (let six := Filter.double_of_int64 6 in
   let twelve := Filter.double_of_int64 12 in
   MinMaxCompare.compare_range_value PrimFloat.float PrimFloat.ltb PrimFloat.leb NE
     (construct six twelve) PrimFloat.nan = true /\
   MinMaxCompare.compare_ranges PrimFloat.float PrimFloat.ltb PrimFloat.leb NE
     (construct six twelve) (construct PrimFloat.nan PrimFloat.nan) = false).
Proof.
  split; [|split; [|split; reflexivity]].
  - intros op Hop. destruct op; try contradiction; cbn;
      unfold op_eq_val, op_eq, op_gt_val, op_gt, op_ge_val, op_ge, op_lt_val,
             op_lt, op_le_val, op_le, gt, ge;
      cbn; try reflexivity.
    apply andb_comm.
  - intros Hlt. cbn. unfold op_ne_val, op_eq_val, op_ne, gt, ge. cbn.
    rewrite !Hlt, negb_andb. apply orb_comm.
Qed.

End MinMaxCompareFacts.

(** The ranges [6, 12] and [7, 13] of the unit test compare equal: they
    share the value 7. *)
Lemma MinMaxVal_compare_ranges_witness :
  MinMaxCompare.compare_ranges Z Z.ltb Z.leb MinMaxCompare.EQ
    (MinMaxValue.construct 6 12) (MinMaxValue.construct 7 13) = true.
Proof.
  assert (Hrefl : forall a, (a <=? a) = true) by (intros; apply Z.leb_refl).
  assert (Htrans : forall a b c, (a <=? b) = true -> (b <=? c) = true ->
                                 (a <=? c) = true)
    by (intros a b c; rewrite !Z.leb_le; lia).
  assert (Htotal : forall a b, (a <=? b) = true \/ (b <=? a) = true)
    by (intros a b; rewrite !Z.leb_le; lia).
  assert (Hlt : forall a b, (a <? b) = negb (b <=? a))
    by (intros a b; apply Z.ltb_antisym).
  destruct (MinMaxVal_compare_ranges Z Z.ltb Z.leb Hrefl Htrans Htotal Hlt
              (MinMaxValue.construct 6 12) (MinMaxValue.construct 7 13)
              eq_refl eq_refl) as [Hsome _].
  apply (Hsome MinMaxCompare.EQ); [discriminate|].
  exists 7, 7. repeat split.
Defined.

(** At the integers the comparison of the range [6, 12] with the value 5
    by [!=] is the comparison with the range [5, 5]. *)
Lemma MinMaxVal_compare_value_as_range_witness :
  MinMaxCompare.compare_range_value Z Z.ltb Z.leb MinMaxCompare.NE
    (MinMaxValue.construct 6 12) 5
  = MinMaxCompare.compare_ranges Z Z.ltb Z.leb MinMaxCompare.NE
      (MinMaxValue.construct 6 12) (MinMaxValue.construct 5 5).
Proof.
  apply (proj1 (proj2 (MinMaxVal_compare_value_as_range Z Z.ltb Z.leb
                         (MinMaxValue.construct 6 12) 5))).
  intros a b. apply Z.ltb_antisym.
Defined.

(** ** Operators *)

Section OperatorsFacts.

Import MinMaxValue MinMaxCompare Operators.

Lemma fits_true (w z : Z) :
  fits w z = true <-> - 2 ^ (w - 1) <= z < 2 ^ (w - 1).
Proof. unfold fits. rewrite andb_true_iff, Z.leb_le, Z.ltb_lt. tauto. Qed.

Lemma convert_fits (w z : Z) : 0 < w -> fits w z = true -> convert w z = z.
Proof.
  intros Hw Hz. apply fits_true in Hz. unfold convert.
  replace (2 ^ w) with (2 * 2 ^ (w - 1)).
  - rewrite Z.mod_small; lia.
  - rewrite <- Z.pow_succ_r by lia. f_equal. lia.
Qed.

Lemma quot_sign (a b : Z) : b <> 0 -> 0 <= (a ÷ b) * (a * b).
Proof.
  intros Hb.
  destruct (Z.lt_trichotomy a 0) as [Ha|[->|Ha]];
  destruct (Z.lt_trichotomy b 0) as [Hb'|[Hb'|Hb']]; try lia.
  - pose proof (Z.quot_opp_opp a b Hb).
    assert (0 <= (-a) ÷ (-b)) by (apply Z.quot_pos; lia). nia.
  - pose proof (Z.quot_opp_l a b Hb).
    assert (0 <= (-a) ÷ b) by (apply Z.quot_pos; lia). nia.
  - pose proof (Z.quot_opp_r a b Hb).
    assert (0 <= a ÷ (-b)) by (apply Z.quot_pos; lia). nia.
  - assert (0 <= a ÷ b) by (apply Z.quot_pos; lia). nia.
Qed.

Lemma quot_rem_bounds (a b : Z) :
  b <> 0 ->
  a = b * (a ÷ b) + Z.rem a b /\
  Z.abs (a ÷ b) <= Z.abs a /\
  Z.abs (Z.rem a b) < Z.abs b /\
  Z.abs (b * (a ÷ b)) <= Z.abs a /\
  0 <= a * (b * (a ÷ b)) /\
  (Z.abs (a ÷ b) = Z.abs a -> Z.abs b = 1 \/ a = 0).
Proof.
  intros Hb.
  pose proof (quot_sign a b Hb) as Hq.
  assert (Habs : Z.abs (a ÷ b) = Z.abs a ÷ Z.abs b) by (symmetry; now apply Z.quot_abs).
  assert (Hmul : 0 <= Z.abs b * (Z.abs a ÷ Z.abs b) <= Z.abs a)
    by (apply Z.mul_quot_le; lia).
  split; [apply Z.quot_rem'|].
  split; [rewrite Habs; nia|].
  split; [now apply Z.rem_bound_abs|].
  split; [rewrite Z.abs_mul, Habs; lia|].
  split; [nia|].
  rewrite Habs. intros Heq. nia.
Qed.

Lemma int_bounds (t : IntType) :
  0 < 2 ^ (bits t - 1) <= 2 ^ (promoted t - 1) /\
  2 ^ bits t = 2 * 2 ^ (bits t - 1) /\
  (t = TinyIntVal \/ t = SmallIntVal -> 2 ^ (bits t - 1) < 2 ^ (promoted t - 1)) /\
  (t = TinyIntVal \/ t = SmallIntVal \/ t = IntVal \/ t = BigIntVal).
Proof. destruct t; cbn [bits promoted]; repeat split; try lia; auto; intros [|]; discriminate. Qed.

Lemma wrap_small (W x : Z) :
  0 < W -> - W <= x < W -> (x + W) mod (2 * W) - W = x.
Proof. intros HW Hx. rewrite Z.mod_small; lia. Qed.

Lemma wrap_top (W : Z) : 0 < W -> (W + W) mod (2 * W) - W = - W.
Proof.
  intros HW. replace (W + W) with (2 * W) by lia.
  rewrite Z.mod_same by lia. lia.
Qed.

(** X3: integer division and remainder of the same operands
    compose to the dividend.  For values a and b of an integer type, b not
    0, and not the least value divided by -1 at INT or BIGINT (where the
    division of C++ is undefined), Int_divide gives a quotient q and Mod a
    remainder r that are not NULL, and Add(Multiply(q, b), r) is a again,
    also where the quotient wraps around at TINYINT and SMALLINT. *)
Theorem Int_divide_Mod_compose (t : IntType) (a b : Z) :
  fits (bits t) a = true -> fits (bits t) b = true -> b <> 0 ->
  (t = IntVal \/ t = BigIntVal -> ~ (a = - 2 ^ (bits t - 1) /\ b = -1)) ->
  exists q r p,
    Int_divide t (Val a) (Val b) = Some (Val q) /\
    Mod t (Val a) (Val b) = Some (Val r) /\
    Multiply t (Val q) (Val b) = Some (Val p) /\
    Add t (Val p) (Val r) = Some (Val a).
Proof.
  intros Ha Hb Hb0 Hmin.
  apply fits_true in Ha, Hb.
  destruct (quot_rem_bounds a b Hb0) as (Hqr & Hq & Hr & Hbq & Hs & Hone).
  destruct (int_bounds t) as (HW & H2W & Hnarrow & Ht).
  unfold Int_divide, Mod, Multiply, Add, BINARY_OP_CHECK_ZERO_FN, BINARY_OP_FN, arith.
  apply Z.eqb_neq in Hb0 as Hb0'. rewrite Hb0'. clear Hb0'.
  unfold convert, fits. rewrite H2W.
  set (W := 2 ^ (bits t - 1)) in *. set (PW := 2 ^ (promoted t - 1)) in *.
  set (q0 := a ÷ b) in *. set (r0 := Z.rem a b) in *.
  clearbody W PW q0 r0.
  assert (Hm : - W <= b * q0 < W) by nia.
  assert (Hr0 : - W <= r0 < W) by lia.
  assert (Htop : q0 = W -> a = - W /\ b = -1 /\ r0 = 0 /\ W < PW).
  { intros ->.
    assert (a = - W) by lia.
    assert (Z.abs b = 1) by lia.
    assert (b = -1) by nia.
    repeat split; try lia.
    apply Hnarrow. destruct Ht as [|[|[|]]]; auto; exfalso; apply Hmin; auto. }
  assert (Hq0 : - PW <= q0 < PW).
  { destruct (Z.eq_dec q0 W) as [Heq|Hne]; [|lia].
    destruct (Htop Heq) as (_ & _ & _ & ?). lia. }
  replace ((- PW <=? q0) && (q0 <? PW)) with true by (symmetry; apply andb_true_iff; lia).
  cbn [option_map].
  rewrite (wrap_small W r0) by lia.
  destruct (Z.eq_dec q0 W) as [Heq|Hne].
  - destruct (Htop Heq) as (-> & -> & -> & HWP). subst q0.
    rewrite wrap_top by lia.
    eexists _, _, _. split; [reflexivity|]. split; [reflexivity|].
    replace (- W * -1) with W by lia.
    replace ((- PW <=? W) && (W <? PW)) with true by (symmetry; apply andb_true_iff; lia).
    cbn [option_map]. rewrite wrap_top by lia.
    split; [reflexivity|].
    replace ((- PW <=? - W + 0) && (- W + 0 <? PW)) with true
      by (symmetry; apply andb_true_iff; lia).
    cbn [option_map]. rewrite Z.add_0_r, wrap_small by lia. reflexivity.
  - rewrite (wrap_small W q0) by lia.
    eexists _, _, _. split; [reflexivity|]. split; [reflexivity|].
    replace (q0 * b) with (b * q0) by lia.
    replace ((- PW <=? b * q0) && (b * q0 <? PW)) with true
      by (symmetry; apply andb_true_iff; lia).
    cbn [option_map]. rewrite (wrap_small W (b * q0)) by lia.
    split; [reflexivity|].
    rewrite <- Hqr.
    replace ((- PW <=? a) && (a <? PW)) with true by (symmetry; apply andb_true_iff; lia).
    cbn [option_map]. rewrite wrap_small by lia. reflexivity.
Qed.

Lemma Val_inj {A} (a b : A) : Val a = Val b <-> a = b.
Proof. split; [now intros [= ->] | now intros ->]. Qed.

(** X4: the predicates on a range of column statistics and a
    value.  For a range that is not empty, each of Eq, Gt, Ge, Lt and Le
    returns true exactly when the predicate of the same name on plain values
    returns true for some value of the range, with the range as the first
    or as the second argument; Ne returns true exactly when the plain Ne
    returns true for every value of the range. *)
Theorem MinMax_predicates_by_range (mm : MinMaxVal Z) (v : Z) :
  min mm <= max mm ->
  (forall NAME, NAME <> NE ->
     (BINARY_MINMAX_PREDICATE_NUMERIC_FN NAME (Val mm) (Val v) = Val true <->
      exists x, min mm <= x <= max mm /\
                BINARY_PREDICATE_NUMERIC_FN NAME (Val x) (Val v) = Val true) /\
     (BINARY_MINMAX_REVERSE_PREDICATE_NUMERIC_FN NAME (Val v) (Val mm) = Val true <->
      exists x, min mm <= x <= max mm /\
                BINARY_PREDICATE_NUMERIC_FN NAME (Val v) (Val x) = Val true)) /\
  (BINARY_MINMAX_PREDICATE_NUMERIC_FN NE (Val mm) (Val v) = Val true <->
   forall x, min mm <= x <= max mm ->
             BINARY_PREDICATE_NUMERIC_FN NE (Val x) (Val v) = Val true) /\
  (BINARY_MINMAX_REVERSE_PREDICATE_NUMERIC_FN NE (Val v) (Val mm) = Val true <->
   forall x, min mm <= x <= max mm ->
             BINARY_PREDICATE_NUMERIC_FN NE (Val v) (Val x) = Val true).
Proof.
  intros Hmm.
  unfold BINARY_MINMAX_PREDICATE_NUMERIC_FN, BINARY_MINMAX_REVERSE_PREDICATE_NUMERIC_FN,
    BINARY_PREDICATE_NUMERIC_FN, BINARY_PREDICATE_FN.
  split; [|split].
  - intros NAME HN. destruct NAME; try contradiction; cbn -[Z.leb Z.ltb Z.eqb Z.gtb Z.geb];
      unfold op_eq_val, op_gt_val, op_ge_val, op_lt_val, op_le_val, gt, ge;
      rewrite !Val_inj;
      (split; (split; [intros H | intros (x & Hx & H); rewrite Val_inj in H])).
    all: try (exists v; rewrite Val_inj; lia).
    all: try (exists (min mm); rewrite Val_inj; lia).
    all: try (exists (max mm); rewrite Val_inj; lia).
    all: lia.
  - cbn -[Z.leb Z.ltb Z.eqb]. unfold op_ne_val, op_eq_val, ge. rewrite Val_inj. split.
    + intros H x Hx. rewrite Val_inj. lia.
    + intros H. destruct ((min mm <=? v) && (v <=? max mm)) eqn:E; [|reflexivity].
      specialize (H v). rewrite Val_inj in H. lia.
  - cbn -[Z.leb Z.ltb Z.eqb]. unfold op_ne_val, op_eq_val, ge. rewrite Val_inj. split.
    + intros H x Hx. rewrite Val_inj. lia.
    + intros H. destruct ((min mm <=? v) && (v <=? max mm)) eqn:E; [|reflexivity].
      specialize (H v). rewrite Val_inj in H. lia.
Qed.

(** X5: at every numeric type, whose != is the negation of its
    ==, DistinctFrom and NotDistinct never return NULL and are the negation
    of one another; NotDistinct returns true exactly when both arguments are
    NULL or both are not NULL and their values compare ==; Eq is NULL exactly
    when an argument is NULL and agrees with NotDistinct otherwise.  At the
    integer types NotDistinct is therefore true exactly when the two
    arguments are the same, while at DoubleVal NotDistinct(NaN, NaN) is
    false and DistinctFrom(NaN, NaN) is true. *)
Theorem NullSafe_distinction :
  (forall (A : Type) (eq ne : A -> A -> bool) (v1 v2 : AnyVal A),
      (forall a b, ne a b = negb (eq a b)) ->
      exists b,
        NotDistinct eq v1 v2 = Val b /\ DistinctFrom ne v1 v2 = Val (negb b) /\
        (b = true <->
           (v1 = null /\ v2 = null) \/
           (exists x y, v1 = Val x /\ v2 = Val y /\ eq x y = true)) /\
        (BINARY_PREDICATE_FN eq v1 v2 = null <-> v1 = null \/ v2 = null) /\
        (forall e, BINARY_PREDICATE_FN eq v1 v2 = Val e -> e = b)) /\
  (forall v1 v2 : AnyVal Z,
      NotDistinct (numeric_op EQ) v1 v2 = Val true <-> v1 = v2) /\
  NotDistinct double_eq (Val PrimFloat.nan) (Val PrimFloat.nan) = Val false /\
  DistinctFrom double_ne (Val PrimFloat.nan) (Val PrimFloat.nan) = Val true.
Proof.
  split; [|split; [|split; reflexivity]].
  - intros A eq ne v1 v2 Hne. destruct v1 as [|x], v2 as [|y]; cbn.
    + exists true. split; [reflexivity|]. split; [reflexivity|].
      split; [split; auto|]. split; [split; auto | discriminate].
    + exists false. split; [reflexivity|]. split; [reflexivity|].
      split; [|split; [split; auto | discriminate]].
      split; [discriminate|]. intros [[_ H]|(a & b & H & _)]; discriminate H.
    + exists false. split; [reflexivity|]. split; [reflexivity|].
      split; [|split; [split; auto | discriminate]].
      split; [discriminate|]. intros [[H _]|(a & b & _ & H & _)]; discriminate H.
    + exists (eq x y). split; [reflexivity|]. split; [now rewrite Hne|].
      split; [|split].
      * split.
        -- intros H. right. exists x, y. auto.
        -- intros [[H _]|(a & b & [= <-] & [= <-] & H)]; [discriminate H | exact H].
      * split; [discriminate | intros [H|H]; discriminate H].
      * now intros e [= <-].
  - intros v1 v2. destruct v1 as [|x], v2 as [|y]; cbn -[Z.eqb].
    + split; reflexivity.
    + split; discriminate.
    + split; discriminate.
    + split.
      * intros [= H]. apply Z.eqb_eq in H. now subst.
      * intros [= ->]. now rewrite Z.eqb_refl.
Qed.

(** X6: Factorial is 1 up to 0, satisfies n! = n * (n-1)! from
    1 to 20 with results that fit BIGINT, and returns NULL with an error
    above 20; 21 * 20! does not fit BIGINT, and the factorial of NULL is
    NULL without an error. *)
Theorem Factorial_recurrence (n : Z) :
  Factorial null = (null, None) /\
  (n <= 0 -> Factorial (Val n) = (Val 1, None)) /\
  (0 < n <= 20 ->
     exists f, Factorial (Val (n - 1)) = (Val f, None) /\
               Factorial (Val n) = (Val (n * f), None) /\
               fits 64 (n * f) = true) /\
  (20 < n -> exists msg, Factorial (Val n) = (null, Some msg)) /\
  fits 64 (21 * ComputeFactorial 20) = false.
Proof.
  split; [reflexivity|]. split; [|split; [|split]].
  - intros Hn. destruct (Z.eq_dec n 0) as [->|Hn0]; [reflexivity|].
    unfold Factorial, ComputeFactorial, FACTORIAL_MAX.
    destruct (Z.gtb_spec n 20); [lia|].
    destruct (Z.ltb_spec n 0); [reflexivity | lia].
  - intros Hn. replace n with (Z.of_nat (Z.to_nat n)) by lia.
    assert (Hk : (0 < Z.to_nat n <= 20)%nat) by lia. revert Hk.
    generalize (Z.to_nat n). intros k Hk.
    destruct k as [|k]; [lia|].
    do 20 (destruct k as [|k];
           [eexists; split; [vm_compute; reflexivity|];
            split; vm_compute; reflexivity|]).
    lia.
  - intros Hn. unfold Factorial, ComputeFactorial, FACTORIAL_MAX.
    destruct (Z.gtb_spec n 20); [|lia].
    cbn. eexists. reflexivity.
  - vm_compute. reflexivity.
Qed.

End OperatorsFacts.

(** -128 / -1 at TINYINT: the quotient wraps around to -128, and
    -128 * -1 + 0 wraps around to -128 again. *)
Lemma Int_divide_Mod_compose_witness :
  exists q r p,
    Operators.Int_divide Operators.TinyIntVal (Operators.Val (-128)) (Operators.Val (-1))
      = Some (Operators.Val q) /\
    Operators.Mod Operators.TinyIntVal (Operators.Val (-128)) (Operators.Val (-1))
      = Some (Operators.Val r) /\
    Operators.Multiply Operators.TinyIntVal (Operators.Val q) (Operators.Val (-1))
      = Some (Operators.Val p) /\
    Operators.Add Operators.TinyIntVal (Operators.Val p) (Operators.Val r)
      = Some (Operators.Val (-128)).
Proof.
  apply (Int_divide_Mod_compose Operators.TinyIntVal (-128) (-1));
    [reflexivity | reflexivity | discriminate | intros [H|H]; discriminate H].
Defined.

(** The range [6, 12] and the value 7 of the unit test: the range is
    greater than 7, because 12 is. *)
Lemma MinMax_predicates_by_range_witness :
  Operators.BINARY_MINMAX_PREDICATE_NUMERIC_FN MinMaxCompare.GT
    (Operators.Val (MinMaxValue.construct 6 12)) (Operators.Val 7)
  = Operators.Val true.
Proof.
  destruct (MinMax_predicates_by_range (MinMaxValue.construct 6 12) 7) as [H _];
    [cbn; lia|].
  apply (proj1 (H MinMaxCompare.GT ltac:(discriminate))).
  exists 12. split; [cbn; lia | reflexivity].
Defined.

(** 5! = 5 * 4! = 120. *)
Lemma Factorial_recurrence_witness :
  Operators.Factorial (Operators.Val 5) = (Operators.Val 120, None).
Proof.
  destruct (Factorial_recurrence 5) as (_ & _ & H & _).
  destruct (H ltac:(lia)) as (f & H4 & H5 & _).
  change (Operators.Factorial (Operators.Val (5 - 1)))
    with (Operators.Val 24, @None string) in H4.
  injection H4 as <-. exact H5.
Defined.

(** At DoubleVal a NaN is distinct from itself, and 1.0 is not. *)
Lemma NullSafe_distinction_witness :
  Operators.NotDistinct Operators.double_eq
    (Operators.Val PrimFloat.nan) (Operators.Val PrimFloat.nan)
    = Operators.Val false /\
  Operators.DistinctFrom Operators.double_ne
    (Operators.Val PrimFloat.nan) (Operators.Val PrimFloat.nan)
    = Operators.Val true /\
  Operators.NotDistinct Operators.double_eq
    (Operators.Val PrimFloat.one) (Operators.Val PrimFloat.one)
    = Operators.Val true.
Proof.
  destruct NullSafe_distinction as [Hgen _].
  destruct (Hgen PrimFloat.float Operators.double_eq Operators.double_ne
              (Operators.Val PrimFloat.nan) (Operators.Val PrimFloat.nan)
              (fun a b => eq_refl)) as (b & Hnot & Hdist & _).
  assert (Hb : b = false) by (cbn in Hnot; now injection Hnot as <-).
  subst b. split; [exact Hnot|]. split; [exact Hdist | reflexivity].
Defined.

(** ** Footer ranges *)

Section InitialRangesFacts.

Import InitialRanges.

(** [FindFooterSplit] finds the first split that ends at the end of the
    file. *)
Lemma FindFooterSplit_from_spec (file_length : Z) (splits : list ScanRange) :
  forall i : nat,
    match FindFooterSplit_from i file_length splits with
    | Some k =>
        (i <= k < i + length splits)%nat /\
        (exists split, nth_error splits (k - i) = Some split /\
                       int64 (offset split + len split) = file_length) /\
        (forall j split, (j < k - i)%nat -> nth_error splits j = Some split ->
                         int64 (offset split + len split) <> file_length)
    | None =>
        forall split, In split splits ->
                      int64 (offset split + len split) <> file_length
    end.
Proof.
  induction splits as [|s rest IH]; intros i; cbn [FindFooterSplit_from].
  - intros split [].
  - destruct (int64 (offset s + len s) =? file_length) eqn:E.
    + apply Z.eqb_eq in E. cbn [length]. split; [lia|]. split.
      * exists s. rewrite Nat.sub_diag. auto.
      * intros j split Hj. lia.
    + apply Z.eqb_neq in E. specialize (IH (S i)).
      destruct (FindFooterSplit_from (S i) file_length rest) as [k|].
      * destruct IH as (Hk & (split & Hnth & Hend) & Hfirst). cbn [length].
        split; [lia|]. split.
        -- exists split. replace (k - i)%nat with (S (k - S i)) by lia. auto.
        -- intros j split' Hj Hnth'. destruct j as [|j].
           ++ injection Hnth' as <-. exact E.
           ++ apply (Hfirst j); [lia | exact Hnth'].
      * intros split [<-|Hin]; [exact E | now apply IH].
Qed.

(** X7: FindFooterSplit returns the first split of the file that
    ends at the end of the file, and NULL exactly when no split does. *)
Theorem FindFooterSplit_first (file : HdfsFileDesc) :
  match FindFooterSplit file with
  | Some k =>
      (exists split, nth_error (splits file) k = Some split /\
                     int64 (offset split + len split) = file_length file) /\
      (forall j split, (j < k)%nat -> nth_error (splits file) j = Some split ->
                       int64 (offset split + len split) <> file_length file)
  | None =>
      forall split, In split (splits file) ->
                    int64 (offset split + len split) <> file_length file
  end.
Proof.
  pose proof (FindFooterSplit_from_spec (file_length file) (splits file) 0) as H.
  fold (FindFooterSplit file) in H.
  destruct (FindFooterSplit file) as [k|]; [|exact H].
  rewrite Nat.sub_0_r in H. destruct H as (_ & Hk & Hfirst). split; assumption.
Qed.

Lemma IssueFileRanges_spec (zero_slot_scan : bool) (i : nat) (file : HdfsFileDesc)
    (footer_split : option nat) (splits : list ScanRange) :
  12 <= file_length file < 2 ^ 63 ->
  forall j : nat,
    let '(ranges, completed) :=
      IssueFileRanges zero_slot_scan i file footer_split j splits in
    (length ranges + completed = length splits)%nat /\
    Forall (fun fr => file_idx fr = i /\
                      (j <= split_idx fr < j + length splits)%nat /\
                      at_end_of file fr) ranges /\
    (zero_slot_scan = false ->
       completed = 0%nat /\ map split_idx ranges = seq j (length splits)) /\
    (zero_slot_scan = true ->
       map split_idx ranges =
       match footer_split with
       | Some k => if (j <=? k)%nat && (k <? j + length splits)%nat then [k] else []
       | None => []
       end).
Proof.
  intros Hlen. induction splits as [|s rest IH]; intros j; cbn [IssueFileRanges].
  - cbv beta iota. cbn [length map].
    split; [reflexivity|]. split; [constructor|]. split; [split; reflexivity|].
    intros _.
    destruct footer_split as [k|]; [|reflexivity].
    destruct (Nat.leb_spec j k), (Nat.ltb_spec k (j + 0)); cbn [andb];
      try reflexivity; lia.
  - specialize (IH (S j)).
    destruct (IssueFileRanges zero_slot_scan i file footer_split (S j) rest)
      as [ranges completed].
    destruct IH as (Hcount & Hall & Hnz & Hz).
    assert (Hfr : forall d c e,
              at_end_of file
                (mkFooterRange i j (Z.min FOOTER_SIZE (file_length file))
                   (int64 (file_length file - Z.min FOOTER_SIZE (file_length file)))
                   d c e)).
    { intros d c e. unfold at_end_of, FOOTER_SIZE. cbn [range_len range_offset].
      unfold int64. change (2 ^ 64) with (2 * 2 ^ 63).
      set (p := 2 ^ 63) in *. clearbody p.
      rewrite Z.mod_small by lia. lia. }
    assert (Hall' : Forall (fun fr => file_idx fr = i /\
                      (j <= split_idx fr < j + length (s :: rest))%nat /\
                      at_end_of file fr) ranges).
    { eapply Forall_impl; [|exact Hall]. cbn [length]. intros fr (H1 & H2 & H3).
      split; [exact H1|]. split; [lia | exact H3]. }
    destruct (negb zero_slot_scan ||
              match footer_split with Some k => (k =? j)%nat | None => false end)
      eqn:Hissue.
    + cbn [length]. split; [lia|]. split; [|split].
      * constructor; [|exact Hall'].
        destruct footer_split as [k|]; cbn [file_idx split_idx];
          (split; [reflexivity|]); (split; [lia|]); apply Hfr.
      * intros Hf. destruct (Hnz Hf) as [-> Hseq].
        split; [reflexivity|]. cbn [map split_idx seq].
        destruct footer_split as [k|]; cbn [split_idx]; now rewrite Hseq.
      * intros ->. cbn [negb orb] in Hissue.
        destruct footer_split as [k|]; [|discriminate].
        apply Nat.eqb_eq in Hissue. subst k.
        cbn [map split_idx]. rewrite (Hz eq_refl).
        replace ((S j <=? j)%nat) with false by (symmetry; apply Nat.leb_gt; lia).
        replace ((j <=? j)%nat) with true by (symmetry; apply Nat.leb_le; lia).
        replace ((j <? j + S (length rest))%nat) with true
          by (symmetry; apply Nat.ltb_lt; lia).
        reflexivity.
    + apply orb_false_iff in Hissue as [Hz' Hk].
      apply negb_false_iff in Hz'. subst zero_slot_scan.
      cbn [length]. split; [lia|]. split; [exact Hall'|]. split; [discriminate|].
      intros _. rewrite (Hz eq_refl).
      destruct footer_split as [k|]; [|reflexivity].
      apply Nat.eqb_neq in Hk.
      destruct (Nat.leb_spec (S j) k), (Nat.leb_spec j k),
        (Nat.ltb_spec k (S j + length rest)), (Nat.ltb_spec k (j + S (length rest)));
        cbn [andb]; try reflexivity; lia.
Qed.

Lemma issued_for_file (i : nat) (ranges : list FooterRange) :
  Forall (fun fr => file_idx fr = i) ranges ->
  issued_for ranges = map (pair i) (map split_idx ranges).
Proof.
  induction 1 as [|fr ranges Hfr _ IH]; [reflexivity|].
  unfold issued_for in *. cbn [map]. now rewrite IH, Hfr.
Qed.

Lemma IssueRanges_from_spec (zero_slot_scan : bool) (add_status : Status)
    (files : list HdfsFileDesc) :
  Forall (fun file => file_length file < 2 ^ 63) files ->
  forall (i : nat) (acc : list FooterRange) (done : nat),
    let r := IssueRanges_from zero_slot_scan add_status i files acc done in
    (added r = None <-> exists file, In file files /\ file_length file < 12) /\
    (added r = None -> ok (status r) = false) /\
    (forall ranges, added r = Some ranges ->
       status r = add_status /\
       exists new,
         ranges = acc ++ new /\
         Forall (fun fr =>
                   (i <= file_idx fr)%nat /\
                   exists file split,
                     nth_error files (file_idx fr - i) = Some file /\
                     nth_error (splits file) (split_idx fr) = Some split /\
                     at_end_of file fr) new /\
         (length new + completed r = done + length (flat_map splits files))%nat /\
         (zero_slot_scan = false -> completed r = done) /\
         issued_for new =
           if zero_slot_scan then footer_splits i files else all_splits i files).
Proof.
  induction 1 as [|file rest Hfile Hrest IH]; intros i acc done;
    cbn [IssueRanges_from].
  - cbn [added status completed]. split; [|split].
    + split; [discriminate | intros (f & [] & _)].
    + discriminate.
    + intros ranges [= <-]. split; [reflexivity|]. exists [].
      rewrite app_nil_r. cbn. repeat split; auto.
      destruct zero_slot_scan; reflexivity.
  - destruct (Z.ltb_spec (file_length file) 12) as [Hshort|Hlong].
    + cbn [added status completed ok]. split; [|split].
      * split; [|reflexivity]. intros _. exists file. split; [now left | exact Hshort].
      * reflexivity.
      * discriminate.
    + pose proof (IssueFileRanges_spec zero_slot_scan i file (FindFooterSplit file)
                    (splits file) (conj Hlong Hfile) 0%nat) as Hone.
      pose proof (FindFooterSplit_from_spec (file_length file) (splits file) 0) as Hfind.
      fold (FindFooterSplit file) in Hfind.
      destruct (IssueFileRanges zero_slot_scan i file (FindFooterSplit file) 0
                  (splits file)) as [ranges completed].
      destruct Hone as (Hcount & Hall & Hnz & Hz).
      specialize (IH (S i) (acc ++ ranges) (done + completed)%nat).
      cbv zeta in IH. destruct IH as (Hnone & Herr & Hsome).
      split; [|split].
      * rewrite Hnone. split.
        -- intros (f & Hin & Hf). exists f. split; [now right | exact Hf].
        -- intros (f & [<-|Hin] & Hf); [lia|]. now exists f.
      * exact Herr.
      * intros all Hadded.
        destruct (Hsome all Hadded) as (Hst & new & -> & Hnew & Hlen & Hzero & Hfor).
        split; [exact Hst|]. exists (ranges ++ new).
        split; [now rewrite app_assoc|].
        split; [|split; [|split]].
        -- apply Forall_app. split.
           ++ eapply Forall_impl; [|exact Hall].
              intros fr (Hi & Hj & Hat). split; [lia|].
              destruct (nth_error (splits file) (split_idx fr)) as [split|] eqn:Hnth.
              ** exists file, split. rewrite Hi, Nat.sub_diag. auto.
              ** apply nth_error_None in Hnth. lia.
           ++ eapply Forall_impl; [|exact Hnew].
              intros fr (Hi & f & split & Hf & Hs & Hat). split; [lia|].
              exists f, split.
              replace (file_idx fr - i)%nat with (S (file_idx fr - S i)) by lia.
              auto.
        -- cbn [flat_map]. rewrite !length_app. lia.
        -- intros Hf. destruct (Hnz Hf) as [-> _]. rewrite (Hzero Hf). lia.
        -- unfold issued_for in *. rewrite map_app. fold (issued_for ranges).
           rewrite Hfor.
           rewrite (issued_for_file i ranges)
             by (eapply Forall_impl; [|exact Hall]; now intros fr (? & _)).
           destruct zero_slot_scan.
           ++ rewrite (Hz eq_refl). cbn [footer_splits].
              destruct (FindFooterSplit file) as [k|]; [|reflexivity].
              destruct Hfind as (Hk & _).
              replace ((0 <=? k)%nat) with true by (symmetry; apply Nat.leb_le; lia).
              replace ((k <? 0 + length (splits file))%nat) with true
                by (symmetry; apply Nat.ltb_lt; lia).
              reflexivity.
           ++ destruct (Hnz eq_refl) as [_ ->]. reflexivity.
Qed.

(** X8: IssueInitialRanges adds no range at all when a file is shorter
    than 12 bytes, and returns an error then.  Otherwise it returns the
    status of AddDiskIoRanges; every footer range it adds covers the last
    min(100 KiB, file_length) bytes of its file, which are at least 12; a
    scan with materialized slots gets one footer range for every split, a
    scan without gets one for the split that ends at the end of the file,
    if the file has such a split, and every other split is marked
    complete. *)
Theorem IssueInitialRanges_footer_ranges (zero_slot_scan : bool)
    (add_status : Status) (files : list HdfsFileDesc) :
  Forall (fun file => file_length file < 2 ^ 63) files ->
  let r := IssueInitialRanges zero_slot_scan add_status files in
  (added r = None <-> exists file, In file files /\ file_length file < 12) /\
  (added r = None -> ok (status r) = false) /\
  (forall ranges, added r = Some ranges ->
     status r = add_status /\
     Forall (fun fr =>
               exists file split,
                 nth_error files (file_idx fr) = Some file /\
                 nth_error (splits file) (split_idx fr) = Some split /\
                 range_len fr = Z.min FOOTER_SIZE (file_length file) /\
                 12 <= range_len fr /\ 0 <= range_offset fr /\
                 range_offset fr + range_len fr = file_length file) ranges /\
     (length ranges + completed r = length (flat_map splits files))%nat /\
     issued_for ranges =
       if zero_slot_scan then footer_splits 0 files else all_splits 0 files).
Proof.
  intros Hfiles.
  destruct (IssueRanges_from_spec zero_slot_scan add_status files Hfiles 0 [] 0)
    as (Hnone & Herr & Hsome).
  cbv zeta. split; [exact Hnone|]. split; [exact Herr|].
  intros ranges Hadded.
  destruct (Hsome ranges Hadded) as (Hst & new & -> & Hnew & Hlen & _ & Hfor).
  cbn [app] in *. split; [exact Hst|]. split; [|split].
  - eapply Forall_impl; [|exact Hnew].
    intros fr (_ & f & split & Hf & Hs & Hat). exists f, split.
    rewrite Nat.sub_0_r in Hf. split; [exact Hf|]. split; [exact Hs | exact Hat].
  - exact Hlen.
  - exact Hfor.
Qed.

End InitialRangesFacts.

(** A scan without materialized slots over the two sample files: one
    footer range per file, for the split at its end, and one split marked
    complete. *)
Lemma IssueInitialRanges_footer_ranges_witness :
  let r := InitialRanges.IssueInitialRanges true OK InitialRanges.sample_files in
  InitialRanges.status r = OK /\
  option_map InitialRanges.issued_for (InitialRanges.added r)
    = Some [(0%nat, 1%nat); (1%nat, 0%nat)] /\
  InitialRanges.completed r = 1%nat.
Proof.
  assert (Hfiles : Forall (fun file => InitialRanges.file_length file < 2 ^ 63)
                     InitialRanges.sample_files)
    by (repeat constructor).
  destruct (IssueInitialRanges_footer_ranges true OK InitialRanges.sample_files Hfiles)
    as (_ & _ & Hsome).
  cbv zeta.
  destruct (InitialRanges.added
              (InitialRanges.IssueInitialRanges true OK InitialRanges.sample_files))
    as [ranges|] eqn:Hadded; [|discriminate Hadded].
  destruct (Hsome ranges eq_refl) as (Hst & _ & Hlen & Hfor).
  split; [exact Hst|]. split; [cbn [option_map]; now rewrite Hfor|].
  apply (f_equal (@length _)) in Hfor. unfold InitialRanges.issued_for in Hfor.
  rewrite length_map in Hfor. rewrite Hfor in Hlen.
  change (2 + InitialRanges.completed
                (InitialRanges.IssueInitialRanges true OK InitialRanges.sample_files)
          = 3)%nat in Hlen.
  lia.
Defined.

(** ** The schema tree *)

Section SchemaTreeFacts.

Import SchemaTree.

Lemma filter_flat_map {A B : Type} (f : B -> bool) (g : A -> list B) (l : list A) :
  filter f (flat_map g l) = flat_map (fun x => filter f (g x)) l.
Proof.
  induction l as [|x l IH]; [reflexivity|].
  cbn [flat_map]. now rewrite filter_app, IH.
Qed.

Lemma firstn_snoc_nth_error {A : Type} (l : list A) :
  forall (n : nat) (x : A),
    nth_error l n = Some x -> firstn (S n) l = firstn n l ++ [x].
Proof.
  induction l as [|y l IH]; intros [|n] x; cbn [nth_error]; try discriminate.
  - now intros [= ->].
  - intros H. cbn [firstn app]. f_equal. now apply IH.
Qed.

Lemma leaves_node (e : SchemaElement) (c : list SchemaNode) (i d r a : Z) :
  leaves (mkSchemaNode e c i d r a)
  = (if is_leaf (mkSchemaNode e c i d r a) then [mkSchemaNode e c i d r a] else [])
      ++ flat_map leaves c.
Proof.
  unfold leaves at 1. cbn [nodes filter].
  rewrite filter_flat_map. fold leaves.
  destruct (is_leaf (mkSchemaNode e c i d r a)); reflexivity.
Qed.

Lemma CreateChildren_built (schema : list SchemaElement)
    (build : Z -> Z -> option (Result (SchemaNode * Z * Z))) :
  (forall idx col node idx' col',
      build idx col = Some (Built (node, idx', col')) ->
      built_from schema idx col node idx' col') ->
  forall (n : nat) (idx col : Z) (cs : list SchemaNode) (idx' col' : Z),
    CreateChildren build n idx col = Some (Built (cs, idx', col')) ->
    length cs = n /\ children_built_from schema idx col cs idx' col'.
Proof.
  intros Hbuild. induction n as [|n IH]; intros idx col cs idx' col';
    cbn [CreateChildren].
  - intros [= <- <- <-]. split; [reflexivity|].
    unfold children_built_from. cbn [flat_map length].
    rewrite app_nil_r.
    split; [lia|]. split; [auto|]. split; [lia|]. split; [reflexivity|].
    split; [lia|]. split; [intros [|k] leaf; discriminate | constructor].
  - destruct (build idx col) as [[[[child idx1] col1]|s|]|] eqn:Hb; try discriminate.
    destruct (CreateChildren build n idx1 col1) as [[[[rest idx2] col2]|s|]|] eqn:Hr;
      try discriminate.
    intros [= <- <- <-].
    destruct (Hbuild _ _ _ _ _ Hb) as (H0 & Hle & Hidx & Hpre & Hcol & Hleaf & Hall).
    destruct (IH _ _ _ _ _ Hr) as (Hlen & Hle' & Hbound & Hidx' & Hpre' & Hcol' & Hleaf' & Hall').
    split; [cbn [length]; now rewrite Hlen|].
    unfold children_built_from. cbn [flat_map]. rewrite !length_app.
    split; [lia|]. split.
    { intros _. left. destruct Hbound as [Hb'| ->]; [lia | lia |].
      cbn [flat_map length] in Hidx'. lia. }
    split; [lia|]. split; [now rewrite Hpre', Hpre, app_assoc|].
    split; [lia|]. split; [|now apply Forall_app].
    intros k leaf Hnth.
    destruct (Nat.lt_ge_cases k (length (leaves child))) as [Hk|Hk].
    + rewrite nth_error_app1 in Hnth by exact Hk. now apply Hleaf.
    + rewrite nth_error_app2 in Hnth by exact Hk.
      rewrite (Hleaf' _ _ Hnth). lia.
Qed.

Lemma CreateSchemaTree_at_built (schema : list SchemaElement) :
  forall (fuel : nat) (d r a idx col : Z) (node : SchemaNode) (idx' col' : Z),
    CreateSchemaTree_at fuel schema d r a idx col = Some (Built (node, idx', col')) ->
    built_from schema idx col node idx' col'.
Proof.
  induction fuel as [|fuel IH]; intros d r a idx col node idx' col';
    cbn [CreateSchemaTree_at]; [discriminate|].
  destruct ((idx <? 0) || (idx >=? Z.of_nat (length schema))) eqn:Hrange;
    [discriminate|].
  apply orb_false_iff in Hrange as [Hneg Hsize].
  apply Z.ltb_ge in Hneg. rewrite Z.geb_leb in Hsize. apply Z.leb_gt in Hsize.
  destruct (nth_error schema (Z.to_nat idx)) as [e|] eqn:Hnth; [|discriminate].
  set (levels := match repetition_type e with
                 | Schema.OPTIONAL => (d + 1, r, a)
                 | Schema.REPEATED => (d + 1, r + 1, d + 1)
                 | Schema.REQUIRED => (d, r, a)
                 end).
  destruct levels as [[d' r'] a'].
  destruct (num_children e <? 0) eqn:Hnc; [discriminate|].
  apply Z.ltb_ge in Hnc.
  destruct (CreateChildren (CreateSchemaTree_at fuel schema d' r' a')
              (Z.to_nat (num_children e)) (idx + 1)
              (if num_children e =? 0 then col + 1 else col))
    as [[[[cs idx1] col1]|s|]|] eqn:Hcs; try discriminate.
  intros [= <- <- <-].
  destruct (CreateChildren_built schema _ (IH d' r' a') _ _ _ _ _ _ Hcs)
    as (Hlen & Hle & Hbound & Hidx & Hpre & Hcol & Hleaf & Hall).
  assert (Hleafb : is_leaf (mkSchemaNode e cs (if num_children e =? 0 then col else -1)
                              d' r' a)
                   = (num_children e =? 0)).
  { unfold is_leaf. cbn [children]. destruct cs as [|c cs].
    - cbn [length] in Hlen. symmetry. apply Z.eqb_eq. lia.
    - cbn [length] in Hlen. symmetry. apply Z.eqb_neq. lia. }
  unfold built_from. rewrite leaves_node, Hleafb. cbn [flatten length].
  split; [exact Hneg|]. split.
  { destruct Hbound as [Hb| ->]; [lia | exact Hb |].
    cbn [flat_map length] in Hidx. lia. }
  split; [lia|]. split.
  { rewrite Hpre. replace (Z.to_nat (idx + 1)) with (S (Z.to_nat idx)) by lia.
    rewrite (firstn_snoc_nth_error _ _ _ Hnth).
    now rewrite <- app_assoc. }
  split.
  { rewrite length_app. destruct (num_children e =? 0); cbn [length]; lia. }
  split.
  { intros k leaf. destruct (num_children e =? 0).
    - destruct k as [|k]; cbn [app nth_error].
      + intros [= <-]. cbn [col_idx]. lia.
      + intros Hk. rewrite (Hleaf _ _ Hk). lia.
    - cbn [app]. intros Hk. rewrite (Hleaf _ _ Hk). lia. }
  cbn [nodes]. constructor; [|exact Hall].
  cbn [element children col_idx]. split; [lia|].
  rewrite Hleafb. intros ->. reflexivity.
Qed.

(** *** The calls return *)

Lemma CreateChildren_returns (schema : list SchemaElement) (fuel : nat)
    (build : Z -> Z -> option (Result (SchemaNode * Z * Z))) :
  (forall idx col node idx' col',
      build idx col = Some (Built (node, idx', col')) ->
      built_from schema idx col node idx' col') ->
  (forall idx col, Z.max 0 (Z.of_nat (length schema) - idx) < Z.of_nat fuel ->
                   exists res, build idx col = Some res) ->
  forall (n : nat) (idx col : Z),
    Z.max 0 (Z.of_nat (length schema) - idx) < Z.of_nat fuel ->
    exists res, CreateChildren build n idx col = Some res.
Proof.
  intros Hbuilt Hret. induction n as [|n IH]; intros idx col Hfuel;
    cbn [CreateChildren]; [eexists; reflexivity|].
  destruct (Hret idx col Hfuel) as [[[[child idx1] col1]|st|] Hb]; rewrite Hb;
    try (eexists; reflexivity).
  destruct (Hbuilt _ _ _ _ _ Hb) as (H0 & _ & Hidx & _).
  destruct (IH idx1 col1) as [res Hres]; [lia|]. rewrite Hres.
  destruct res as [[[rest idx2] col2]|st|]; eexists; reflexivity.
Qed.

Lemma CreateSchemaTree_at_returns (schema : list SchemaElement) :
  forall (fuel : nat) (d r a idx col : Z),
    Z.max 0 (Z.of_nat (length schema) - idx) < Z.of_nat fuel ->
    exists res, CreateSchemaTree_at fuel schema d r a idx col = Some res.
Proof.
  induction fuel as [|fuel IH]; intros d r a idx col Hfuel; [lia|].
  cbn [CreateSchemaTree_at].
  destruct ((idx <? 0) || (idx >=? Z.of_nat (length schema))) eqn:Hrange;
    [eexists; reflexivity|].
  apply orb_false_iff in Hrange as [Hneg Hsize].
  apply Z.ltb_ge in Hneg. rewrite Z.geb_leb in Hsize. apply Z.leb_gt in Hsize.
  destruct (nth_error schema (Z.to_nat idx)) as [e|]; [|eexists; reflexivity].
  destruct (match repetition_type e with
            | Schema.OPTIONAL => (d + 1, r, a)
            | Schema.REPEATED => (d + 1, r + 1, d + 1)
            | Schema.REQUIRED => (d, r, a)
            end) as [[d' r'] a'].
  destruct (num_children e <? 0); [eexists; reflexivity|].
  destruct (CreateChildren_returns schema fuel
              (CreateSchemaTree_at fuel schema d' r' a')
              (CreateSchemaTree_at_built schema fuel d' r' a')
              (IH d' r' a')
              (Z.to_nat (num_children e)) (idx + 1)
              (if num_children e =? 0 then col + 1 else col)) as [res Hres]; [lia|].
  rewrite Hres. destruct res as [[[cs idx1] col1]|st|]; eexists; reflexivity.
Qed.

(** *** More fuel gives the same result *)

Lemma CreateChildren_ext
    (build1 build2 : Z -> Z -> option (Result (SchemaNode * Z * Z))) :
  (forall idx col res, build1 idx col = Some res -> build2 idx col = Some res) ->
  forall (n : nat) (idx col : Z) (res : Result (list SchemaNode * Z * Z)),
    CreateChildren build1 n idx col = Some res ->
    CreateChildren build2 n idx col = Some res.
Proof.
  intros Hext. induction n as [|n IH]; intros idx col res; cbn [CreateChildren];
    [auto|].
  destruct (build1 idx col) as [[[[child idx1] col1]|st|]|] eqn:Hb; try discriminate;
    rewrite (Hext _ _ _ Hb); auto.
  destruct (CreateChildren build1 n idx1 col1) as [res1|] eqn:Hr.
  - rewrite (IH _ _ _ Hr). auto.
  - discriminate.
Qed.

Lemma CreateSchemaTree_at_more_fuel (schema : list SchemaElement) :
  forall (fuel fuel' : nat) (d r a idx col : Z) (res : Result (SchemaNode * Z * Z)),
    (fuel <= fuel')%nat ->
    CreateSchemaTree_at fuel schema d r a idx col = Some res ->
    CreateSchemaTree_at fuel' schema d r a idx col = Some res.
Proof.
  induction fuel as [|fuel IH]; intros fuel' d r a idx col res Hle;
    [discriminate|].
  destruct fuel' as [|fuel']; [lia|]. cbn [CreateSchemaTree_at].
  destruct (if (idx <? 0) || (idx >=? Z.of_nat (length schema))
            then None else nth_error schema (Z.to_nat idx)) as [e|]; [|auto].
  destruct (match repetition_type e with
            | Schema.OPTIONAL => (d + 1, r, a)
            | Schema.REPEATED => (d + 1, r + 1, d + 1)
            | Schema.REQUIRED => (d, r, a)
            end) as [[d' r'] a'].
  destruct (num_children e <? 0); [auto|].
  destruct (CreateChildren (CreateSchemaTree_at fuel schema d' r' a')
              (Z.to_nat (num_children e)) (idx + 1)
              (if num_children e =? 0 then col + 1 else col)) as [res1|] eqn:Hcs;
    [|discriminate].
  rewrite (CreateChildren_ext _ (CreateSchemaTree_at fuel' schema d' r' a')
             (fun i c x => IH fuel' d' r' a' i c x ltac:(lia)) _ _ _ _ Hcs).
  auto.
Qed.

(** *** The result depends on the elements taken only *)

Lemma firstn_app_split {A : Type} (x y : list A) :
  forall (m : nat) (l : list A),
    firstn (length x + m) l = x ++ y ->
    firstn (length x) l = x /\ firstn m (skipn (length x) l) = y.
Proof.
  induction x as [|a x IH]; intros m l; cbn [length app Nat.add].
  - intros H. split; [reflexivity | exact H].
  - destruct l as [|b l]; cbn [firstn skipn]; [discriminate|].
    intros [= -> H]. destruct (IH m l H) as [H1 H2]. split; [now f_equal | exact H2].
Qed.

Lemma CreateChildren_local (schema2 : list SchemaElement)
    (build1 build2 : Z -> Z -> option (Result (SchemaNode * Z * Z))) :
  (forall idx col node idx' col',
      build1 idx col = Some (Built (node, idx', col')) ->
      forall j, 0 <= j ->
        firstn (length (flatten node)) (skipn (Z.to_nat j) schema2) = flatten node ->
        build2 j col
        = Some (Built (node, j + Z.of_nat (length (flatten node)), col'))) ->
  forall (n : nat) (idx col : Z) (cs : list SchemaNode) (idx' col' : Z),
    CreateChildren build1 n idx col = Some (Built (cs, idx', col')) ->
    forall j, 0 <= j ->
      firstn (length (flat_map flatten cs)) (skipn (Z.to_nat j) schema2)
        = flat_map flatten cs ->
      CreateChildren build2 n j col
      = Some (Built (cs, j + Z.of_nat (length (flat_map flatten cs)), col')).
Proof.
  intros Hlocal. induction n as [|n IH]; intros idx col cs idx' col';
    cbn [CreateChildren].
  - intros [= <- <- <-] j Hj _. cbn [flat_map length]. now rewrite Z.add_0_r.
  - destruct (build1 idx col) as [[[[child idx1] col1]|st|]|] eqn:Hb; try discriminate.
    destruct (CreateChildren build1 n idx1 col1) as [[[[rest idx2] col2]|st|]|] eqn:Hr;
      try discriminate.
    intros [= <- <- <-] j Hj. cbn [flat_map]. rewrite length_app. intros Hpre.
    apply firstn_app_split in Hpre as [Hpre1 Hpre2].
    rewrite (Hlocal _ _ _ _ _ Hb j Hj Hpre1).
    rewrite skipn_skipn in Hpre2.
    rewrite (IH _ _ _ _ _ Hr (j + Z.of_nat (length (flatten child)))); [f_equal; f_equal; f_equal; f_equal; lia | lia |].
    replace (Z.to_nat (j + Z.of_nat (length (flatten child))))
      with (length (flatten child) + Z.to_nat j)%nat by lia.
    exact Hpre2.
Qed.

Lemma CreateSchemaTree_at_local (schema schema2 : list SchemaElement) :
  forall (fuel : nat) (d r a idx col : Z) (node : SchemaNode) (idx' col' : Z),
    CreateSchemaTree_at fuel schema d r a idx col = Some (Built (node, idx', col')) ->
    forall j, 0 <= j ->
      firstn (length (flatten node)) (skipn (Z.to_nat j) schema2) = flatten node ->
      CreateSchemaTree_at fuel schema2 d r a j col
      = Some (Built (node, j + Z.of_nat (length (flatten node)), col')).
Proof.
  induction fuel as [|fuel IH]; intros d r a idx col node idx' col';
    cbn [CreateSchemaTree_at]; [discriminate|].
  destruct (if (idx <? 0) || (idx >=? Z.of_nat (length schema))
            then None else nth_error schema (Z.to_nat idx)) as [e|]; [|discriminate].
  destruct (match repetition_type e with
            | Schema.OPTIONAL => (d + 1, r, a)
            | Schema.REPEATED => (d + 1, r + 1, d + 1)
            | Schema.REQUIRED => (d, r, a)
            end) as [[d' r'] a'] eqn:Hlevels.
  destruct (num_children e <? 0) eqn:Hnc; [discriminate|].
  destruct (CreateChildren (CreateSchemaTree_at fuel schema d' r' a')
              (Z.to_nat (num_children e)) (idx + 1)
              (if num_children e =? 0 then col + 1 else col))
    as [[[[cs idx1] col1]|s|]|] eqn:Hcs; try discriminate.
  intros [= <- <- <-] j Hj. cbn [flatten length]. intros Hpre.
  destruct (skipn (Z.to_nat j) schema2) as [|e2 rest2] eqn:Hskip;
    [discriminate|].
  cbn [firstn] in Hpre. injection Hpre as -> Hpre.
  assert (Hnth : nth_error schema2 (Z.to_nat j) = Some e).
  { rewrite <- (Nat.add_0_r (Z.to_nat j)), <- nth_error_skipn, Hskip. reflexivity. }
  assert (Hlt : (Z.to_nat j < length schema2)%nat)
    by (apply nth_error_Some; rewrite Hnth; discriminate).
  replace ((j <? 0) || (j >=? Z.of_nat (length schema2))) with false.
  2:{ symmetry. apply orb_false_iff. split; [apply Z.ltb_ge; lia|].
      rewrite Z.geb_leb. apply Z.leb_gt. lia. }
  rewrite Hnth, Hlevels, Hnc.
  assert (Hrest : rest2 = skipn (Z.to_nat (j + 1)) schema2).
  { replace (Z.to_nat (j + 1)) with (1 + Z.to_nat j)%nat by lia.
    rewrite <- skipn_skipn, Hskip. reflexivity. }
  rewrite (CreateChildren_local schema2 _ (CreateSchemaTree_at fuel schema2 d' r' a')
             (IH d' r' a') _ _ _ _ _ _ Hcs (j + 1)); [|lia|now rewrite <- Hrest].
  f_equal. f_equal. f_equal. f_equal. lia.
Qed.

(** *** Levels *)

Lemma CreateChildren_levels
    (build : Z -> Z -> option (Result (SchemaNode * Z * Z))) (d r a : Z) :
  (forall idx col node idx' col',
      build idx col = Some (Built (node, idx', col')) ->
      def_level_of_immediate_repeated_ancestor node = a /\
      max_def_level node = d + def_step (element node) /\
      max_rep_level node = r + rep_step (element node) /\
      Forall levels_ok (nodes node)) ->
  forall (n : nat) (idx col : Z) (cs : list SchemaNode) (idx' col' : Z),
    CreateChildren build n idx col = Some (Built (cs, idx', col')) ->
    Forall (fun c => def_level_of_immediate_repeated_ancestor c = a /\
                     max_def_level c = d + def_step (element c) /\
                     max_rep_level c = r + rep_step (element c)) cs /\
    Forall levels_ok (flat_map nodes cs).
Proof.
  intros Hbuild. induction n as [|n IH]; intros idx col cs idx' col';
    cbn [CreateChildren].
  - intros [= <- <- <-]. split; constructor.
  - destruct (build idx col) as [[[[child idx1] col1]|st|]|] eqn:Hb; try discriminate.
    destruct (CreateChildren build n idx1 col1) as [[[[rest idx2] col2]|st|]|] eqn:Hr;
      try discriminate.
    intros [= <- <- <-].
    destruct (Hbuild _ _ _ _ _ Hb) as (H1 & H2 & H3 & H4).
    destruct (IH _ _ _ _ _ Hr) as (H5 & H6).
    split; [constructor; auto|]. cbn [flat_map]. now apply Forall_app.
Qed.

Lemma CreateSchemaTree_at_levels (schema : list SchemaElement) :
  forall (fuel : nat) (d r a idx col : Z) (node : SchemaNode) (idx' col' : Z),
    0 <= a <= d -> 0 <= r <= d ->
    CreateSchemaTree_at fuel schema d r a idx col = Some (Built (node, idx', col')) ->
    def_level_of_immediate_repeated_ancestor node = a /\
    max_def_level node = d + def_step (element node) /\
    max_rep_level node = r + rep_step (element node) /\
    Forall levels_ok (nodes node).
Proof.
  induction fuel as [|fuel IH]; intros d r a idx col node idx' col' Ha Hr;
    cbn [CreateSchemaTree_at]; [discriminate|].
  destruct (if (idx <? 0) || (idx >=? Z.of_nat (length schema))
            then None else nth_error schema (Z.to_nat idx)) as [e|]; [|discriminate].
  destruct (match repetition_type e with
            | Schema.OPTIONAL => (d + 1, r, a)
            | Schema.REPEATED => (d + 1, r + 1, d + 1)
            | Schema.REQUIRED => (d, r, a)
            end) as [[d' r'] a'] eqn:Hlevels.
  assert (Hd' : d' = d + def_step e /\ r' = r + rep_step e /\
                a' = (if match repetition_type e with
                         | Schema.REPEATED => true | _ => false end
                      then d' else a)).
  { unfold def_step, rep_step.
    destruct (repetition_type e); injection Hlevels as <- <- <-;
      repeat split; lia. }
  destruct Hd' as (Hd' & Hr' & Ha').
  assert (Hstep : 0 <= def_step e <= 1 /\ 0 <= rep_step e <= def_step e).
  { unfold def_step, rep_step. destruct (repetition_type e); lia. }
  destruct (num_children e <? 0); [discriminate|].
  destruct (CreateChildren (CreateSchemaTree_at fuel schema d' r' a')
              (Z.to_nat (num_children e)) (idx + 1)
              (if num_children e =? 0 then col + 1 else col))
    as [[[[cs idx1] col1]|s|]|] eqn:Hcs; try discriminate.
  intros [= <- <- <-].
  assert (Ha2 : 0 <= a' <= d') by (destruct (repetition_type e); lia).
  destruct (CreateChildren_levels _ d' r' a'
              (fun i c n i' c' => IH d' r' a' i c n i' c' Ha2 ltac:(lia))
              _ _ _ _ _ _ Hcs) as (Hkids & Hall).
  cbn [def_level_of_immediate_repeated_ancestor max_def_level max_rep_level element].
  split; [reflexivity|]. split; [exact Hd'|]. split; [exact Hr'|].
  cbn [nodes]. constructor; [|exact Hall].
  unfold levels_ok.
  cbn [def_level_of_immediate_repeated_ancestor max_def_level max_rep_level children].
  split; [lia|]. split; [lia|].
  eapply Forall_impl; [|exact Hkids].
  intros c (Hc1 & Hc2 & Hc3). unfold edge_levels, is_repeated.
  cbn [def_level_of_immediate_repeated_ancestor max_def_level max_rep_level element].
  rewrite Hc1, Hc2, Hc3. auto.
Qed.

Lemma CreateSchemaTree_built (schema : list SchemaElement) (root : SchemaNode) :
  CreateSchemaTree schema = Some (Built root) ->
  exists idx' col',
    CreateSchemaTree_at (S (length schema)) schema 0 0 0 0 0
    = Some (Built (root, idx', col')).
Proof.
  unfold CreateSchemaTree.
  destruct (CreateSchemaTree_at (S (length schema)) schema 0 0 0 0 0)
    as [[[[node idx'] col']|st|]|]; try discriminate.
  intros [= ->]. eauto.
Qed.

(** X9: CreateSchemaTree always returns.  A tree that it
    builds consists of the leading elements of the flattened schema in
    depth-first order, every node has as many children as its element
    announces, what follows these elements is ignored, and rebuilding the
    tree from its own flattening gives the same tree again.  An empty
    schema is reported as corrupt. *)
Theorem CreateSchemaTree_round_trip (schema : list SchemaElement) :
  (exists res, CreateSchemaTree schema = Some res) /\
  CreateSchemaTree [] = Some (Failed corrupt_schema) /\
  (forall root,
      CreateSchemaTree schema = Some (Built root) ->
      (exists rest, schema = flatten root ++ rest) /\
      Forall (fun m => num_children (element m) = Z.of_nat (length (children m)))
        (nodes root) /\
      (forall post, CreateSchemaTree (flatten root ++ post) = Some (Built root))).
Proof.
  split; [|split; [reflexivity|]].
  - unfold CreateSchemaTree.
    destruct (CreateSchemaTree_at_returns schema (S (length schema)) 0 0 0 0 0)
      as [res Hres]; [lia|].
    rewrite Hres. destruct res as [[[node idx'] col']|st|]; eexists; reflexivity.
  - intros root Hroot.
    destruct (CreateSchemaTree_built schema root Hroot) as (idx' & col' & Hat).
    destruct (CreateSchemaTree_at_built schema _ _ _ _ _ _ _ _ _ Hat)
      as (_ & _ & _ & Hpre & _ & _ & Hall).
    split; [|split].
    + exists (skipn (Z.to_nat idx') schema).
      rewrite <- (firstn_skipn (Z.to_nat idx') schema) at 1.
      now rewrite Hpre.
    + eapply Forall_impl; [|exact Hall]. now intros m [H _].
    + intros post. unfold CreateSchemaTree.
      set (schema2 := flatten root ++ post).
      assert (Hlocal : CreateSchemaTree_at (S (length schema)) schema2 0 0 0 0 0
                       = Some (Built (root, 0 + Z.of_nat (length (flatten root)), col'))).
      { apply (CreateSchemaTree_at_local schema schema2 _ _ _ _ _ _ _ _ _ Hat 0);
          [lia|].
        unfold schema2. cbn [Z.to_nat skipn].
        rewrite firstn_app, Nat.sub_diag, firstn_all. cbn [firstn].
        apply app_nil_r. }
      destruct (CreateSchemaTree_at_returns schema2 (S (length schema2)) 0 0 0 0 0)
        as [res Hres]; [lia|].
      destruct (Nat.le_ge_cases (S (length schema)) (S (length schema2))) as [Hle|Hle].
      * rewrite (CreateSchemaTree_at_more_fuel schema2 _ _ _ _ _ _ _ _ Hle Hlocal).
        reflexivity.
      * pose proof (CreateSchemaTree_at_more_fuel schema2 _ _ _ _ _ _ _ _ Hle Hres)
          as Hsame.
        rewrite Hlocal in Hsame. injection Hsame as <-. rewrite Hres. reflexivity.
Qed.

(** X10: in a tree that CreateSchemaTree builds the leaves are
    numbered in depth-first order from 0 on: the k-th leaf has col_idx k,
    which is the position of its column chunk in every row group; a node
    with children has col_idx -1. *)
Theorem CreateSchemaTree_col_idx (schema : list SchemaElement) (root : SchemaNode) :
  CreateSchemaTree schema = Some (Built root) ->
  (forall k leaf, nth_error (leaves root) k = Some leaf -> col_idx leaf = Z.of_nat k) /\
  Forall (fun m => is_leaf m = false -> col_idx m = -1) (nodes root).
Proof.
  intros Hroot.
  destruct (CreateSchemaTree_built schema root Hroot) as (idx' & col' & Hat).
  destruct (CreateSchemaTree_at_built schema _ _ _ _ _ _ _ _ _ Hat)
    as (_ & _ & _ & _ & _ & Hleaf & Hall).
  split.
  - intros k leaf Hk. rewrite (Hleaf k leaf Hk). lia.
  - eapply Forall_impl; [|exact Hall]. now intros m [_ H].
Qed.

(** X11: the levels in a tree that CreateSchemaTree builds.  The
    root has def_level_of_immediate_repeated_ancestor 0.  For every node,
    0 <= def_level_of_immediate_repeated_ancestor <= max_def_level and
    0 <= max_rep_level <= max_def_level.  For every child c of a node m:
    max_rep_level(c) is max_rep_level(m), or one more exactly when c is
    REPEATED; max_def_level(c) is max_def_level(m), or one more exactly when
    c is not REQUIRED; and the definition level of the immediate repeated
    ancestor of c is max_def_level(m) when m is REPEATED and the one of m
    otherwise. *)
Theorem CreateSchemaTree_levels (schema : list SchemaElement) (root : SchemaNode) :
  CreateSchemaTree schema = Some (Built root) ->
  def_level_of_immediate_repeated_ancestor root = 0 /\
  max_def_level root = def_step (element root) /\
  max_rep_level root = rep_step (element root) /\
  Forall
    (fun m =>
       0 <= def_level_of_immediate_repeated_ancestor m <= max_def_level m /\
       0 <= max_rep_level m <= max_def_level m /\
       forall c, In c (children m) ->
         max_rep_level m <= max_rep_level c <= max_rep_level m + 1 /\
         (max_rep_level c = max_rep_level m <-> is_repeated c = false) /\
         max_def_level m <= max_def_level c <= max_def_level m + 1 /\
         (max_def_level c = max_def_level m <->
          repetition_type (element c) = Schema.REQUIRED) /\
         def_level_of_immediate_repeated_ancestor c
           = (if is_repeated m then max_def_level m
              else def_level_of_immediate_repeated_ancestor m))
    (nodes root).
Proof.
  intros Hroot.
  destruct (CreateSchemaTree_built schema root Hroot) as (idx' & col' & Hat).
  destruct (CreateSchemaTree_at_levels schema _ 0 0 0 _ _ _ _ _
              ltac:(lia) ltac:(lia) Hat) as (H1 & H2 & H3 & Hall).
  split; [exact H1|]. split; [lia|]. split; [lia|].
  eapply Forall_impl; [|exact Hall].
  intros m (Hb1 & Hb2 & Hkids). split; [exact Hb1|]. split; [exact Hb2|].
  intros c Hc. rewrite Forall_forall in Hkids.
  destruct (Hkids c Hc) as (Ha & Hd & Hr).
  split; [|split; [|split; [|split; [|exact Ha]]]];
    unfold is_repeated, def_step, rep_step in *;
    destruct (repetition_type (element c)); try lia;
    split; intros; try lia; try discriminate; try reflexivity.
Qed.

End SchemaTreeFacts.

(** The sample schema [(id INT, tags ARRAY<INT>)]: the tree is built, its
    two leaves [id] and [element] are the columns 0 and 1, and [element] has
    the levels (3, 1) with the repeated ancestor at definition level 2. *)
Lemma CreateSchemaTree_round_trip_witness :
  exists root,
    SchemaTree.CreateSchemaTree SchemaTree.sample_flat_schema
      = Some (SchemaTree.Built root) /\
    SchemaTree.CreateSchemaTree (SchemaTree.flatten root)
      = Some (SchemaTree.Built root).
Proof.
  destruct (CreateSchemaTree_round_trip SchemaTree.sample_flat_schema)
    as ([res Hres] & _ & Hbuilt).
  destruct res as [root|st|]; [|discriminate Hres|discriminate Hres].
  exists root. split; [exact Hres|].
  destruct (Hbuilt root Hres) as (_ & _ & Hagain).
  rewrite <- (app_nil_r (SchemaTree.flatten root)). apply Hagain.
Defined.

Lemma CreateSchemaTree_col_idx_witness :
  exists root,
    SchemaTree.CreateSchemaTree SchemaTree.sample_flat_schema
      = Some (SchemaTree.Built root) /\
    map SchemaTree.col_idx (SchemaTree.leaves root) = [0; 1] /\
    forall k leaf, nth_error (SchemaTree.leaves root) k = Some leaf ->
                   SchemaTree.col_idx leaf = Z.of_nat k.
Proof.
  eexists. split; [reflexivity|]. split; [reflexivity|].
  apply (CreateSchemaTree_col_idx SchemaTree.sample_flat_schema). reflexivity.
Defined.

Lemma CreateSchemaTree_levels_witness :
  exists root,
    SchemaTree.CreateSchemaTree SchemaTree.sample_flat_schema
      = Some (SchemaTree.Built root) /\
    map (fun m => (SchemaTree.max_def_level m, SchemaTree.max_rep_level m,
                   SchemaTree.def_level_of_immediate_repeated_ancestor m))
        (SchemaTree.nodes root)
      = [(0, 0, 0); (1, 0, 0); (1, 0, 0); (2, 1, 0); (3, 1, 2)] /\
    SchemaTree.def_level_of_immediate_repeated_ancestor root = 0.
Proof.
  eexists. split; [reflexivity|]. split; [reflexivity|].
  apply (CreateSchemaTree_levels SchemaTree.sample_flat_schema). reflexivity.
Defined.

(** ** The level cache *)

Section LevelCacheFacts.

Import Level LevelCache.

(** What holds of a decoder between the calls of a cache run. *)
Lemma cache_run_invariant (max_level : Z) (d : LevelDecoder) :
  0 <= max_level ->
  cache_run max_level d ->
  well_formed d /\ max_level_ d = max_level /\
  0 <= cached_level_idx_ d /\
  levels_in_range d (num_cached_levels_ d).
Proof.
  intros Hmax Hrun.
  induction Hrun as [b enc al cs nbv data data' d Hinit
                    | d0 enc al nbv data data' d Hrun IH Hinit
                    | d0 n d Hrun IH Hn Hbatch
                    | d0 Hrun IH Hnext].
  - destruct (Init_well_formed enc al cs max_level nbv data data' _ d Hmax
                (new_decoder_well_formed b) (or_intror (ex_intro _ b eq_refl)) Hinit)
      as (Hwf & Hm & Hnum & Hidx).
    split; [exact Hwf|]. split; [exact Hm|]. split; [lia|].
    rewrite Hnum. intros i Hi. lia.
  - destruct IH as (Hwf0 & Hm0 & _).
    destruct (Init_well_formed enc al _ max_level nbv data data' d0 d Hmax
                Hwf0 (or_introl Hm0) Hinit) as (Hwf & Hm & Hnum & Hidx).
    split; [exact Hwf|]. split; [exact Hm|]. split; [lia|].
    rewrite Hnum. intros i Hi. lia.
  - destruct IH as (Hwf0 & Hm0 & _).
    destruct (CacheNextBatch_levels_in_range n d0 Hwf0 (proj1 Hn))
      as (status & d' & Heq & Hok).
    rewrite Hbatch in Heq. injection Heq as <- <-.
    destruct (Hok eq_refl) as (Hwf & Hm & Hnum & Hidx & Hrange).
    split; [exact Hwf|]. split; [congruence|]. split; [lia|].
    rewrite Hnum. exact Hrange.
  - destruct IH as (Hwf0 & Hm0 & Hidx0 & Hrange0).
    destruct (CacheGetNext_in_range d0 Hrange0 Hidx0 Hnext) as (_ & Hrange & Hm).
    split; [|split; [congruence|split; [|exact Hrange]]].
    + destruct Hwf0 as [Hfill Hzero]. unfold CacheGetNext. cbn [snd].
      split; [now apply with_cursor_filling|]. exact Hzero.
    + unfold CacheGetNext. cbn [snd with_cursor cached_level_idx_]. lia.
Qed.

Lemma CacheGetNexts_in_range (n : nat) :
  forall d : LevelDecoder,
    levels_in_range d (num_cached_levels_ d) ->
    0 <= cached_level_idx_ d ->
    cached_level_idx_ d + Z.of_nat n <= num_cached_levels_ d ->
    length (fst (CacheGetNexts n d)) = n /\
    Forall (fun level => 0 <= level <= max_level_ d) (fst (CacheGetNexts n d)) /\
    cached_level_idx_ (snd (CacheGetNexts n d)) = cached_level_idx_ d + Z.of_nat n /\
    num_cached_levels_ (snd (CacheGetNexts n d)) = num_cached_levels_ d.
Proof.
  induction n as [|n IH]; intros d Hrange Hidx Hlen; cbn [CacheGetNexts].
  - cbn [fst snd length]. split; [reflexivity|]. split; [constructor|]. lia.
  - assert (Hnext : CacheHasNext d = true) by (apply Z.ltb_lt; lia).
    destruct (CacheGetNext_in_range d Hrange Hidx Hnext) as (Hlevel & Hrange' & Hm).
    destruct (CacheGetNext d) as [level d1] eqn:Hget. cbn [fst snd] in *.
    assert (Hd1 : cached_level_idx_ d1 = cached_level_idx_ d + 1 /\
                  num_cached_levels_ d1 = num_cached_levels_ d).
    { unfold CacheGetNext in Hget. injection Hget as _ <-. split; reflexivity. }
    destruct Hd1 as [Hi1 Hn1].
    specialize (IH d1 Hrange' ltac:(lia) ltac:(lia)).
    destruct (CacheGetNexts n d1) as [levels d2]. cbn [fst snd] in *.
    destruct IH as (IH1 & IH2 & IH3 & IH4).
    split; [cbn [length]; now rewrite IH1|].
    split; [constructor; [exact Hlevel | now rewrite <- Hm]|].
    lia.
Qed.

(** X12: the level cache checks the levels.  In any state that a
    decoder of a column with maximum level max_level reaches through Init,
    CacheNextBatch with status OK and CacheGetNext, CacheNextBatch for
    batch_size levels (at most the cache size) returns, with status OK or
    with the decoding error, and with status OK exactly batch_size levels
    are cached and each of them, as CacheGetNext hands them out one after
    the other, lies between 0 and max_level; then CacheHasNext is false. *)
Theorem LevelDecoder_cache_in_range (max_level : Z) (d : LevelDecoder)
    (batch_size : Z) :
  0 <= max_level ->
  cache_run max_level d ->
  0 <= batch_size <= cache_size_ d ->
  exists status d',
    CacheNextBatch batch_size d = Some (status, d') /\
    (status = OK \/ status = Error (decoding_error_code_ d') EmptyString) /\
    (status = OK ->
     let '(levels, d'') := CacheGetNexts (Z.to_nat batch_size) d' in
     Z.of_nat (length levels) = batch_size /\
     Forall (fun level => 0 <= level <= max_level) levels /\
     CacheHasNext d'' = false).
Proof.
  intros Hmax Hrun Hn.
  destruct (cache_run_invariant max_level d Hmax Hrun) as (Hwf & Hm & _).
  destruct (CacheNextBatch_levels_in_range batch_size d Hwf (proj1 Hn))
    as (status & d' & Heq & Hok).
  exists status, d'. split; [exact Heq|]. split.
  - unfold CacheNextBatch in Heq.
    destruct (max_level_ (with_cursor d (num_cached_levels_ d) 0) >? 0).
    + destruct (FillCache batch_size (with_cursor d (num_cached_levels_ d) 0))
        as [[[|] d1]|]; [| |discriminate]; injection Heq as <- <-; auto.
    + injection Heq as <- <-. now left.
  - intros Hst. destruct (Hok Hst) as (_ & Hm' & Hnum & Hidx & Hrange).
    rewrite <- Hnum in Hrange.
    destruct (CacheGetNexts_in_range (Z.to_nat batch_size) d' Hrange ltac:(lia)
                ltac:(lia)) as (H1 & H2 & H3 & H4).
    destruct (CacheGetNexts (Z.to_nat batch_size) d') as [levels d''].
    cbn [fst snd] in *.
    split; [lia|]. split.
    + eapply Forall_impl; [|exact H2]. intros l Hl. cbv beta in Hl. lia.
    + unfold CacheHasNext. apply Z.ltb_ge. lia.
Qed.

End LevelCacheFacts.

(** Definition levels of a column with maximum level 2, RLE encoded as a
    repeated run of three times the level 1: a batch of three levels gives
    [1; 1; 1]. *)
Lemma LevelDecoder_cache_in_range_witness :
  let d0 := snd (fst (Level.Init RLE true 4 2 3 [2; 0; 0; 0; 6; 1]
                        (Level.new_decoder true))) in
  match Level.CacheNextBatch 3 d0 with
  | Some (OK, d) => fst (LevelCache.CacheGetNexts 3 d) = [1; 1; 1]
  | _ => False
  end /\
  exists status d,
    Level.CacheNextBatch 3 d0 = Some (status, d) /\
    (status = OK ->
     let '(levels, d') := LevelCache.CacheGetNexts (Z.to_nat 3) d in
     Z.of_nat (length levels) = 3 /\
     Forall (fun level => 0 <= level <= 2) levels /\
     Level.CacheHasNext d' = false).
Proof.
  cbv zeta. split; [vm_compute; reflexivity|].
  assert (Hrun : LevelCache.cache_run 2
                   (snd (fst (Level.Init RLE true 4 2 3 [2; 0; 0; 0; 6; 1]
                                (Level.new_decoder true))))).
  { apply (LevelCache.run_Init 2 true RLE true 4 3 [2; 0; 0; 0; 6; 1] []).
    vm_compute. reflexivity. }
  destruct (LevelDecoder_cache_in_range 2 _ 3 ltac:(lia) Hrun
              ltac:(vm_compute; split; discriminate))
    as (status & d & Heq & _ & Hok).
  exists status, d. split; [exact Heq | exact Hok].
Defined.

(** ** Every row group belongs to one split *)

Section SplitTilingFacts.

Import Split SplitTiling.

Lemma tiles_bounds (splits : list (Z * Z)) :
  forall from to : Z,
    tiles from splits to ->
    from <= to /\
    forall k off len, nth_error splits k = Some (off, len) ->
                      from <= off /\ 0 <= len /\ off + len <= to.
Proof.
  induction splits as [|[off0 len0] rest IH]; intros from to; cbn [tiles].
  - intros ->. split; [lia|]. intros [|k] off len H; discriminate H.
  - intros (-> & Hlen & Hrest). destruct (IH _ _ Hrest) as [Hle Hall].
    split; [lia|]. intros [|k] off len; cbn [nth_error].
    + intros [= <- <-]. lia.
    + intros H. specialize (Hall k off len H). lia.
Qed.

Lemma tiles_cover (splits : list (Z * Z)) :
  forall from to x : Z,
    tiles from splits to -> from <= x < to ->
    exists k off len, nth_error splits k = Some (off, len) /\ off <= x < off + len.
Proof.
  induction splits as [|[off0 len0] rest IH]; intros from to x; cbn [tiles].
  - intros ->. lia.
  - intros (-> & Hlen & Hrest) Hx.
    destruct (Z.lt_ge_cases x (from + len0)) as [Hin|Hout].
    + exists 0%nat, from, len0. split; [reflexivity | lia].
    + destruct (IH _ _ x Hrest ltac:(lia)) as (k & off & len & Hk & Hr).
      exists (S k), off, len. split; [exact Hk | exact Hr].
Qed.

Lemma tiles_unique (splits : list (Z * Z)) :
  forall (from to x : Z) (k k' : nat) (off len off' len' : Z),
    tiles from splits to ->
    nth_error splits k = Some (off, len) -> off <= x < off + len ->
    nth_error splits k' = Some (off', len') -> off' <= x < off' + len' ->
    k = k'.
Proof.
  induction splits as [|[off0 len0] rest IH];
    intros from to x k k' off len off' len'; cbn [tiles].
  - intros _ H. destruct k; discriminate H.
  - intros (-> & Hlen & Hrest) Hk Hx Hk' Hx'.
    destruct (tiles_bounds _ _ _ Hrest) as [_ Hb].
    destruct k as [|k], k' as [|k']; cbn [nth_error] in Hk, Hk'.
    + reflexivity.
    + injection Hk as <- <-. specialize (Hb k' off' len' Hk'). lia.
    + injection Hk' as <- <-. specialize (Hb k off len Hk). lia.
    + f_equal. exact (IH _ _ x k k' off len off' len' Hrest Hk Hx Hk' Hx').
Qed.

(** What [ValidateColumnOffsets] has checked of each column when it returns
    OK. *)
Lemma ValidateColumnOffsets_from_ok (file_length : Z) (cols : list ColumnMetaData) :
  ValidateColumnOffsets_from file_length cols = OK ->
  forall c, In c cols ->
    0 < int64 (GetColumnStartOffset c + total_compressed_size c) <= file_length.
Proof.
  induction cols as [|col cols IH]; intros Hok c; [intros []|].
  cbn [ValidateColumnOffsets_from] in Hok.
  assert (Hcol : 0 < int64 (GetColumnStartOffset col + total_compressed_size col)
                   <= file_length /\
                 ValidateColumnOffsets_from file_length cols = OK).
  { unfold GetColumnStartOffset.
    destruct (dictionary_page_offset col) as [d|].
    - destruct (d >=? data_page_offset col); [discriminate Hok|].
      destruct (Z.leb_spec (int64 (d + total_compressed_size col)) 0);
        [discriminate Hok|].
      destruct (Z.gtb_spec (int64 (d + total_compressed_size col)) file_length);
        [discriminate Hok|].
      cbn [orb] in Hok. split; [lia | exact Hok].
    - destruct (Z.leb_spec (int64 (data_page_offset col + total_compressed_size col)) 0);
        [discriminate Hok|].
      destruct (Z.gtb_spec (int64 (data_page_offset col + total_compressed_size col))
                  file_length); [discriminate Hok|].
      cbn [orb] in Hok. split; [lia | exact Hok]. }
  destruct Hcol as [Hcol Hrest].
  intros [<-|Hin]; [exact Hcol | now apply IH].
Qed.

(** The middle of a row group that [ValidateColumnOffsets] accepts lies in
    the file, when the row group starts at a position that is not negative
    and takes at least one byte. *)
Lemma GetRowGroupMidOffset_in_file (file_length : Z) (rg : RowGroup)
    (c0 : ColumnMetaData) :
  ValidateColumnOffsets file_length rg = OK ->
  hd_error (columns rg) = Some c0 ->
  offsets_in_range rg c0 ->
  0 <= GetColumnStartOffset c0 ->
  GetColumnStartOffset c0
    < GetColumnStartOffset (last (columns rg) c0)
      + total_compressed_size (last (columns rg) c0) ->
  GetRowGroupMidOffset rg = Some (mid_byte_offset rg c0) /\
  0 <= mid_byte_offset rg c0 < file_length.
Proof.
  intros Hok Hhd Hrange Hstart Hlen.
  split; [now apply GetRowGroupMidOffset_formula|].
  assert (Hin : In (last (columns rg) c0) (columns rg)).
  { destruct (columns rg) as [|c cols] eqn:Hcols; [discriminate Hhd|].
    destruct (exists_last (l := c :: cols) ltac:(discriminate)) as (l' & x & Hl).
    rewrite Hl, last_last. apply in_or_app. right. now left. }
  pose proof (ValidateColumnOffsets_from_ok file_length (columns rg) Hok _ Hin) as Hend.
  destruct Hrange as (_ & Hend64 & _). cbv zeta in Hend64.
  rewrite (int64_id _ Hend64) in Hend.
  unfold mid_byte_offset.
  set (st := GetColumnStartOffset c0) in *.
  set (en := GetColumnStartOffset (last (columns rg) c0)
             + total_compressed_size (last (columns rg) c0)) in *.
  pose proof (Z.quot_lt (en - st) 2 ltac:(lia) ltac:(lia)) as Hq.
  pose proof (Z.quot_pos (en - st) 2 ltac:(lia) ltac:(lia)) as Hq0.
  lia.
Qed.

(** X13: when the splits of a file follow one another from 0 to the
    end of the file, every row group with rows that ValidateColumnOffsets
    accepts, that starts at a position that is not negative and takes at
    least one byte, is selected by the scanner of exactly one split (given
    that no scanner ends early: footer and readers are fine, the offsets of
    the other row groups are valid, and no row group ends a scan). *)
Theorem row_group_in_exactly_one_split (file_length : Z) (splits : list (Z * Z))
    (abort_on_error : bool) (run : nat -> nat -> RowGroupRun)
    (row_groups : list RowGroup) (j : nat) (rg : RowGroup) (c0 : ColumnMetaData) :
  tiles 0 splits file_length ->
  file_length < 2 ^ 63 ->
  Forall (fun rg => columns rg <> []) row_groups ->
  Forall (fun rg => num_rows rg = 0 \/ ValidateColumnOffsets file_length rg = OK)
    row_groups ->
  (forall k i, runs_to_completion abort_on_error (run k i)) ->
  nth_error row_groups j = Some rg ->
  num_rows rg <> 0 ->
  hd_error (columns rg) = Some c0 ->
  offsets_in_range rg c0 ->
  0 <= GetColumnStartOffset c0 ->
  GetColumnStartOffset c0
    < GetColumnStartOffset (last (columns rg) c0)
      + total_compressed_size (last (columns rg) c0) ->
  exists k,
    (exists off len o,
        nth_error splits k = Some (off, len) /\
        ProcessSplit (OK, false) OK file_length off len abort_on_error (run k)
          row_groups = Some o /\
        In j (selected o)) /\
    (forall k' off' len' o',
        nth_error splits k' = Some (off', len') ->
        ProcessSplit (OK, false) OK file_length off' len' abort_on_error (run k')
          row_groups = Some o' ->
        In j (selected o') -> k' = k).
Proof.
  intros Htiles Hfile Hcols Hvalid Hruns Hj Hrows Hhd Hrange Hstart Hlen.
  assert (Hok : ValidateColumnOffsets file_length rg = OK).
  { rewrite Forall_forall in Hvalid.
    destruct (Hvalid rg (nth_error_In _ _ Hj)) as [H|H]; [contradiction | exact H]. }
  destruct (GetRowGroupMidOffset_in_file file_length rg c0 Hok Hhd Hrange Hstart Hlen)
    as [Hmid Hin].
  set (mid := mid_byte_offset rg c0) in *.
  destruct (tiles_bounds _ _ _ Htiles) as [_ Hbounds].
  assert (Hend : forall k off len, nth_error splits k = Some (off, len) ->
                                   int64 (off + len) = off + len).
  { intros k off len Hk. specialize (Hbounds k off len Hk).
    apply int64_id. unfold in_int64. lia. }
  assert (Hsel : forall k off len o,
            nth_error splits k = Some (off, len) ->
            ProcessSplit (OK, false) OK file_length off len abort_on_error (run k)
              row_groups = Some o ->
            (In j (selected o) <-> off <= mid < off + len)).
  { intros k off len o Hk Ho. unfold ProcessSplit in Ho. cbn [fst snd ok negb] in Ho.
    pose proof (ProcessRowGroups_visits_all file_length off len abort_on_error (run k)
                  row_groups Hvalid (Hruns k) 0%nat o Ho) as Hall.
    destruct (ProcessRowGroups_spec file_length off len abort_on_error (run k)
                row_groups 0%nat o Ho) as (_ & _ & Hiff).
    assert (Hjlt : (j < visited o)%nat).
    { rewrite Hall. apply nth_error_Some. congruence. }
    rewrite (Hiff j rg Hjlt Hj : In (0 + j)%nat (selected o) <-> _).
    unfold passes_selection. rewrite (Hend k off len Hk). split.
    - intros (_ & _ & m & Hm & Hr). rewrite Hmid in Hm. injection Hm as <-. exact Hr.
    - intros Hr. split; [exact Hrows|]. split; [exact Hok|].
      exists mid. split; [exact Hmid | exact Hr]. }
  destruct (tiles_cover _ _ _ mid Htiles Hin) as (k & off & len & Hk & Hr).
  exists k. split.
  - destruct (ProcessRowGroups_total file_length off len abort_on_error (run k)
                row_groups Hcols 0%nat) as [o Ho].
    exists off, len, o. split; [exact Hk|]. split; [exact Ho|].
    apply (Hsel k off len o Hk Ho). exact Hr.
  - intros k' off' len' o' Hk' Ho' Hin'.
    apply (Hsel k' off' len' o' Hk' Ho') in Hin'.
    exact (tiles_unique _ _ _ mid k' k off' len' off len Htiles Hk' Hin' Hk Hr).
Qed.

End SplitTilingFacts.

(** A file of 12_000_001 bytes in the splits [0, 5_000_000), [5_000_000,
    10_000_000) and [10_000_000, 12_000_001): the second of the sample row
    groups, whose middle is at 8_000_000, belongs to the second split. *)
Lemma row_group_in_exactly_one_split_witness :
  exists k,
    (exists off len o,
        nth_error [(0, 5000000); (5000000, 5000000); (10000000, 2000001)] k
          = Some (off, len) /\
        Split.ProcessSplit (OK, false) OK 12000001 off len true
          (fun _ => Split.quiet_run) Split.sample_row_groups = Some o /\
        In 1%nat (Split.selected o)) /\
    (forall k' off' len' o',
        nth_error [(0, 5000000); (5000000, 5000000); (10000000, 2000001)] k'
          = Some (off', len') ->
        Split.ProcessSplit (OK, false) OK 12000001 off' len' true
          (fun _ => Split.quiet_run) Split.sample_row_groups = Some o' ->
        In 1%nat (Split.selected o') -> k' = k).
Proof.
  apply (row_group_in_exactly_one_split 12000001
           [(0, 5000000); (5000000, 5000000); (10000000, 2000001)] true
           (fun _ _ => Split.quiet_run) Split.sample_row_groups 1%nat
           (Split.one_column_group 4000000 8000000 10)
           (Split.mkColumnMetaData 4000000 None 8000000)).
  - cbn. repeat split; lia.
  - reflexivity.
  - repeat constructor; discriminate.
  - repeat constructor; right; reflexivity.
  - intros k i. unfold Split.runs_to_completion, Split.quiet_run. cbn. auto 10.
  - reflexivity.
  - cbn. lia.
  - reflexivity.
  - unfold Split.offsets_in_range, in_int64. cbn. lia.
  - cbn. lia.
  - cbn. lia.
Defined.

(** ** The counters of the runtime filters *)

Section FilterCountersFacts.

Import Filter FilterCounters.

Variable Tuple : Type.
Variable FLAGS_parquet_min_filter_reject_ratio : PrimFloat.float.

Local Abbreviation min_ratio := FLAGS_parquet_min_filter_reject_ratio.
Local Abbreviation EvalRuntimeFilter := (EvalRuntimeFilter Tuple min_ratio).
Local Abbreviation EvalRuntimeFilters := (EvalRuntimeFilters Tuple min_ratio).
Local Abbreviation EvalRows := (EvalRows Tuple min_ratio).

Lemma grown_refl (st : LocalFilterStats) : grown 0 st st.
Proof. unfold grown. repeat split; auto; lia. Qed.

Lemma grown_more (n m : Z) (st st' : LocalFilterStats) :
  n <= m -> grown n st st' -> grown m st st'.
Proof. unfold grown. intros Hnm (H1 & H2 & H3 & H4). repeat split; auto; lia. Qed.

Lemma grown_trans (n m : Z) (a b c : LocalFilterStats) :
  grown n a b -> grown m b c -> grown (n + m) a c.
Proof.
  unfold grown. intros (H1 & H2 & H3 & H4) (K1 & K2 & K3 & K4).
  repeat split; auto; lia.
Qed.

Lemma counters_ok_less (n m : Z) (st : LocalFilterStats) :
  m <= n -> counters_ok n st -> counters_ok m st.
Proof. unfold counters_ok. intros Hmn (H1 & H2 & H3). repeat split; lia. Qed.

(** The body of the loop keeps the counters in order. *)
Lemma EvalRuntimeFilter_counters (ctx : FilterContext Tuple) (st : LocalFilterStats)
    (row : Tuple) (room : Z) :
  0 <= room -> counters_ok (room + 1) st ->
  counters_ok room (stats_of (EvalRuntimeFilter ctx st row)) /\
  grown 1 st (stats_of (EvalRuntimeFilter ctx st row)).
Proof.
  intros Hroom (Hrej & Hcon & Htot).
  destruct (enabled st) eqn:Hen.
  - pose proof (EvalRuntimeFilter_enabled Tuple min_ratio ctx st row Hen) as Hfacts.
    cbv zeta in Hfacts. destruct Hfacts as (Htp & _ & Hoff & Hon).
    rewrite int64_id in Htp by (unfold in_int64; lia).
    destruct (enabled (stats_of (EvalRuntimeFilter ctx st row))) eqn:Hen'.
    + destruct (Hon eq_refl) as (Hc & Hpass & Hrejd).
      rewrite int64_id in Hc by (unfold in_int64; lia).
      assert (Hr : rejected st
                     <= rejected (stats_of (EvalRuntimeFilter ctx st row))
                     <= rejected st + 1).
      { destruct (Eval ctx row).
        - destruct (Hpass eq_refl) as [_ ->]. lia.
        - destruct (Hrejd eq_refl) as [_ ->].
          rewrite int64_id by (unfold in_int64; lia). lia. }
      unfold counters_ok, grown. rewrite Htp, Hc, Hen'. repeat split; auto; lia.
    + destruct (Hoff eq_refl) as (_ & Hc & Hr).
      unfold counters_ok, grown. rewrite Htp, Hc, Hr, Hen'.
      repeat split; auto; try lia; try discriminate.
  - rewrite (EvalRuntimeFilter_disabled Tuple min_ratio ctx st row Hen).
    cbn [stats_of]. split.
    + unfold counters_ok. repeat split; lia.
    + apply (grown_more 0 1); [lia | apply grown_refl].
Qed.

(** One call of [EvalRuntimeFilters] leaves every entry as it is or as the
    body of the loop leaves it. *)
Lemma EvalRuntimeFilters_entries (ctxs : list (FilterContext Tuple)) :
  forall (stats : list LocalFilterStats) (row : Tuple) (i : nat)
         (st : LocalFilterStats),
    nth_error stats i = Some st ->
    exists st',
      nth_error (snd (EvalRuntimeFilters ctxs stats row)) i = Some st' /\
      (st' = st \/ exists ctx, st' = stats_of (EvalRuntimeFilter ctx st row)).
Proof.
  induction ctxs as [|ctx ctxs IH]; intros stats row i st Hi;
    cbn [Filter.EvalRuntimeFilters].
  - exists st. cbn [snd]. auto.
  - destruct stats as [|st0 rest]; [destruct i; discriminate Hi|].
    specialize (IH rest row).
    destruct (Filter.EvalRuntimeFilters Tuple min_ratio ctxs rest row)
      as [verdict rest'] eqn:Hrec.
    cbn [snd] in IH.
    destruct (EvalRuntimeFilter ctx st0 row) as [s|s|s] eqn:Hstep; cbn [snd];
      destruct i as [|i]; cbn [nth_error] in *;
      try (injection Hi as <-; exists s; split; [reflexivity|];
           right; exists ctx; now rewrite Hstep);
      try (now apply IH).
    exists st. auto.
Qed.

Lemma EvalRuntimeFilters_length (ctxs : list (FilterContext Tuple))
    (stats : list LocalFilterStats) (row : Tuple) :
  length (snd (EvalRuntimeFilters ctxs stats row)) = length stats.
Proof. apply (EvalRuntimeFilters_spec Tuple min_ratio ctxs stats row). Qed.

(** X14: over any sequence of rows the counters of every runtime
    filter stay in order, 0 <= rejected <= considered <= total_possible; no
    counter goes down, total_possible grows by at most the number of rows,
    no filter is enabled again and the number of filters stays the same (as
    long as total_possible plus the number of rows stays within int64). *)
Theorem EvalRows_counters (rows : list (list (FilterContext Tuple) * Tuple)) :
  forall stats : list LocalFilterStats,
    Forall (counters_ok (Z.of_nat (length rows))) stats ->
    length (snd (EvalRows rows stats)) = length stats /\
    forall i st, nth_error stats i = Some st ->
      exists st',
        nth_error (snd (EvalRows rows stats)) i = Some st' /\
        0 <= rejected st' <= considered st' /\
        considered st' <= total_possible st' /\
        grown (Z.of_nat (length rows)) st st'.
Proof.
  induction rows as [|[ctxs row] rows IH]; intros stats Hok; cbn [Filter.EvalRows].
  - cbn [snd length]. split; [reflexivity|]. intros i st Hi. exists st.
    rewrite Forall_forall in Hok.
    destruct (Hok st (nth_error_In _ _ Hi)) as (H1 & H2 & _).
    split; [exact Hi|]. split; [exact H1|]. split; [exact H2 | apply grown_refl].
  - pose proof (EvalRuntimeFilters_entries ctxs stats row) as Hone.
    pose proof (EvalRuntimeFilters_length ctxs stats row) as Hlen.
    destruct (Filter.EvalRuntimeFilters Tuple min_ratio ctxs stats row)
      as [verdict stats1] eqn:Hcall.
    cbn [snd] in Hone, Hlen.
    assert (Hstep : forall i st, nth_error stats i = Some st ->
              exists st1, nth_error stats1 i = Some st1 /\
                          counters_ok (Z.of_nat (length rows)) st1 /\ grown 1 st st1).
    { intros i st Hi. destruct (Hone i st Hi) as (st1 & Hi1 & Hcase).
      exists st1. split; [exact Hi1|].
      rewrite Forall_forall in Hok. pose proof (Hok st (nth_error_In _ _ Hi)) as Hst.
      cbn [length] in Hst. rewrite Nat2Z.inj_succ in Hst.
      destruct Hcase as [->|[ctx ->]].
      - split; [apply (counters_ok_less (Z.succ (Z.of_nat (length rows)))); [lia|exact Hst]|].
        apply (grown_more 0 1); [lia | apply grown_refl].
      - apply EvalRuntimeFilter_counters; [lia|].
        replace (Z.of_nat (length rows) + 1) with (Z.succ (Z.of_nat (length rows)))
          by lia.
        exact Hst. }
    assert (Hok1 : Forall (counters_ok (Z.of_nat (length rows))) stats1).
    { apply Forall_forall. intros st1 Hin.
      destruct (In_nth_error _ _ Hin) as [i Hi1].
      assert (Hlt : (i < length stats)%nat).
      { rewrite <- Hlen. apply nth_error_Some. congruence. }
      destruct (nth_error stats i) as [st|] eqn:Hi;
        [|apply nth_error_None in Hi; lia].
      destruct (Hstep i st Hi) as (st1' & Hi1' & Hc & _).
      rewrite Hi1 in Hi1'. injection Hi1' as <-. exact Hc. }
    specialize (IH stats1 Hok1).
    destruct (Filter.EvalRows Tuple min_ratio rows stats1) as [verdicts stats2].
    cbn [snd] in *. destruct IH as [IHlen IHnth].
    split; [congruence|].
    intros i st Hi. destruct (Hstep i st Hi) as (st1 & Hi1 & _ & Hg1).
    destruct (IHnth i st1 Hi1) as (st2 & Hi2 & H1 & H2 & Hg2).
    exists st2. split; [exact Hi2|]. split; [exact H1|]. split; [exact H2|].
    cbn [length]. rewrite Nat2Z.inj_succ.
    replace (Z.succ (Z.of_nat (length rows))) with (1 + Z.of_nat (length rows)) by lia.
    exact (grown_trans 1 _ st st1 st2 Hg1 Hg2).
Qed.

End FilterCountersFacts.

(** Three rows through two fresh filters, of which the first rejects the
    odd rows: the second filter sees the even rows only. *)
Lemma EvalRows_counters_witness :
  let odd := Filter.mkFilterContext false (fun n : nat => Nat.even n) in
  let all := Filter.mkFilterContext false (fun n : nat => true) in
  let rows := [([odd; all], 1%nat); ([odd; all], 2%nat); ([odd; all], 3%nat)] in
  snd (Filter.EvalRows nat Filter.default_min_filter_reject_ratio rows
         [Filter.fresh_stats; Filter.fresh_stats])
    = [Filter.mkLocalFilterStats 3 2 3 true; Filter.mkLocalFilterStats 1 0 1 true] /\
  length (snd (Filter.EvalRows nat Filter.default_min_filter_reject_ratio rows
                 [Filter.fresh_stats; Filter.fresh_stats])) = 2%nat.
Proof.
  cbv zeta. split; [reflexivity|].
  apply (EvalRows_counters nat Filter.default_min_filter_reject_ratio
           [([Filter.mkFilterContext false (fun n : nat => Nat.even n);
              Filter.mkFilterContext false (fun n : nat => true)], 1%nat);
            ([Filter.mkFilterContext false (fun n : nat => Nat.even n);
              Filter.mkFilterContext false (fun n : nat => true)], 2%nat);
            ([Filter.mkFilterContext false (fun n : nat => Nat.even n);
              Filter.mkFilterContext false (fun n : nat => true)], 3%nat)]
           [Filter.fresh_stats; Filter.fresh_stats]).
  repeat constructor; cbn; lia.
Defined.

(** ** The rows that the transfer delivers *)

Section TransferRowsFacts.

Import Filter.

Variable Tuple : Type.
Variable FLAGS_parquet_min_filter_reject_ratio : PrimFloat.float.

Local Abbreviation TransferLoop :=
  (TransferLoop Tuple FLAGS_parquet_min_filter_reject_ratio).
Local Abbreviation TransferScratchTuples :=
  (TransferScratchTuples Tuple FLAGS_parquet_min_filter_reject_ratio).




End TransferRowsFacts.

